(** * WeasyPrint: text drawing and the PDF/A finalizer

    A shallow embedding of [weasyprint/draw/text.py] and
    [weasyprint/pdf/pdfa.py].  The Python code mutates a pydyf stream, a
    shared per-font cache and the object graph of the document; here this
    is explicit state passing in a small state-and-exception monad.

    A Python float is read as the rational it denotes, kept in lowest
    terms.  Where the code turns the result of float arithmetic into an
    int (the kerning, the cached width), every operation is rounded to
    binary64 by [fl]; the literal [1e-6] is the double it denotes.  Where a
    float is only handed on (to the show string, the emoji list, the
    decoration lines), the operations are exact.  Overflow to infinity is
    not modelled. *)

From Stdlib Require Import ZArith QArith Qround Qabs Qpower Lia Lqa List.
From stdpp Require Import gmap strings list fin_maps.

Set Default Proof Using "Type".
#[local] Set Warnings "-register-all,-clear-no-such-hyp".
#[local] Open Scope Z_scope.

(** ** Numbers *)

Definition fadd (a b : Q) : Q := Qred (a + b).
Definition fsub (a b : Q) : Q := Qred (a - b).
Definition fmul (a b : Q) : Q := Qred (a * b).
Definition fdiv (a b : Q) : Q := Qred (a / b).
Definition fneg (a : Q) : Q := Qred (- a).
Definition of_int (n : Z) : Q := inject_Z n.

(** Truth value of a float: [if x:]. *)
Definition truthy (a : Q) : bool := negb (Qeq_bool a 0).

(** [int(x)] on a float truncates toward zero. *)
Definition py_int (q : Q) : Z := Z.quot (Qnum q) (Zpos (Qden q)).

(** [round(x)] on a float rounds half to even and returns an int. *)
Definition py_round (q : Q) : Z :=
  let f := Qfloor q in
  match Qcompare (q - inject_Z f) (1 # 2) with
  | Lt => f
  | Gt => f + 1
  | Eq => if Z.even f then f else f + 1
  end.

(** The binary logarithm of a positive rational, rounded down. *)
Definition ilog2 (q : Q) : Z :=
  let k := Z.log2 (Qnum q) - Z.log2 (Zpos (Qden q)) in
  if Qle_bool (2 ^ k) q then k else k - 1.

(** The result of a float operation whose exact result is [q]: the
    nearest binary64 number, ties to the even significand.  The
    significand has 53 bits; below [2^-1022] the numbers are [2^-1074]
    apart. *)
Definition fl (q : Q) : Q :=
  if Qeq_bool q 0 then 0%Q
  else
    let a := Qabs q in
    let e := Z.max (ilog2 a - 52) (-1074) in
    let m := py_round (a * 2 ^ (- e)) in
    let v := (inject_Z m * 2 ^ e)%Q in
    Qred (if Qle_bool 0 q then v else - v).

(** Modelled from the spec: [units_to_double] and [units_from_double] are
    in [text/ffi.py], which is not among the files at hand.  They convert
    between "the shaping engine's font units" and device units, at Pango's
    fixed-point scale of 1024 units: [units_to_double(v) = v / PANGO_SCALE]
    and [units_from_double(v) = int(v * PANGO_SCALE)]. *)
Definition PANGO_SCALE : Z := 1024.
Definition units_to_double (v : Z) : Q := fdiv (of_int v) (of_int PANGO_SCALE).
Definition units_from_double (v : Q) : Z := py_int (fmul v (of_int PANGO_SCALE)).

(** Pango's glyph sentinels. *)
Definition PANGO_GLYPH_EMPTY : Z := 0x0FFFFFFF.
Definition PANGO_GLYPH_UNKNOWN_FLAG : Z := 0x10000000.

(** The default float precision used by pydyf: the double that the
    literal [1e-6] denotes, [4722366482869645 / 2^72], a little less than
    a millionth. *)
Definition pydyf_precision : Q :=
  4722366482869645 # 4722366482869645213696.

(** ** Python strings and slices

    A [str] is a list of code points, a [bytes] a list of byte values. *)

Definition text := list Z.
Definition bytes := list Z.

(** Bounds of a slice: a negative bound counts from the end, and both are
    clamped to the sequence. *)
Definition slice_bound (len i : Z) : Z :=
  if i <? 0 then Z.max 0 (i + len) else Z.min i len.

(** [l[lo:hi]] *)
Definition py_slice {A} (lo hi : Z) (l : list A) : list A :=
  let len := Z.of_nat (length l) in
  let lo' := slice_bound len lo in
  let hi' := slice_bound len hi in
  firstn (Z.to_nat (hi' - lo')) (skipn (Z.to_nat lo') l).

(** [l[:hi]] *)
Definition py_slice_to {A} (hi : Z) (l : list A) : list A := py_slice 0 hi l.

(** [str.isspace] on one code point. *)
Definition py_isspace (c : Z) : bool :=
  ((9 <=? c) && (c <=? 13)) || ((28 <=? c) && (c <=? 32)) ||
  (c =? 0x85) || (c =? 0xA0) || (c =? 0x1680) ||
  ((0x2000 <=? c) && (c <=? 0x200A)) ||
  (c =? 0x2028) || (c =? 0x2029) || (c =? 0x202F) || (c =? 0x205F) ||
  (c =? 0x3000).

Fixpoint lstrip (t : text) : text :=
  match t with
  | c :: t' => if py_isspace c then lstrip t' else t
  | [] => []
  end.

(** [str.strip()] *)
Definition strip (t : text) : text := rev (lstrip (rev (lstrip t))).

(** [s.endswith(suffix)] *)
Fixpoint startswith (p t : text) : bool :=
  match p, t with
  | [], _ => true
  | a :: p', b :: t' => (a =? b) && startswith p' t'
  | _ :: _, [] => false
  end.
Definition endswith (t suffix : text) : bool := startswith (rev suffix) (rev t).

(** [str.encode()] to UTF-8; a lone surrogate cannot be encoded. *)
Definition encode_char (c : Z) : option bytes :=
  if c <? 0x80 then Some [c]
  else if c <? 0x800 then Some [0xC0 + c / 64; 0x80 + c mod 64]
  else if (0xD800 <=? c) && (c <=? 0xDFFF) then None
  else if c <? 0x10000 then
    Some [0xE0 + c / 4096; 0x80 + (c / 64) mod 64; 0x80 + c mod 64]
  else
    Some [0xF0 + c / 262144; 0x80 + (c / 4096) mod 64;
          0x80 + (c / 64) mod 64; 0x80 + c mod 64].

Fixpoint encode (t : text) : option bytes :=
  match t with
  | [] => Some []
  | c :: t' =>
      match encode_char c, encode t' with
      | Some b, Some r => Some (b ++ r)
      | _, _ => None
      end
  end.

Definition continuation (b : Z) : bool := (0x80 <=? b) && (b <=? 0xBF).

(** [bytes.decode()] from UTF-8, strict. *)
Fixpoint decode (b : bytes) : option text :=
  match b with
  | [] => Some []
  | b0 :: r0 =>
      if b0 <? 0x80 then cons b0 <$> decode r0
      else match r0 with
      | [] => None
      | b1 :: r1 =>
          if (0xC2 <=? b0) && (b0 <=? 0xDF) && continuation b1 then
            cons ((b0 - 0xC0) * 64 + (b1 - 0x80)) <$> decode r1
          else match r1 with
          | [] => None
          | b2 :: r2 =>
              let c3 := (b0 - 0xE0) * 4096 + (b1 - 0x80) * 64 + (b2 - 0x80) in
              if (0xE0 <=? b0) && (b0 <=? 0xEF) && continuation b1 &&
                 continuation b2 && (0x800 <=? c3) &&
                 negb ((0xD800 <=? c3) && (c3 <=? 0xDFFF)) then
                cons c3 <$> decode r2
              else match r2 with
              | [] => None
              | b3 :: r3 =>
                  let c4 := (b0 - 0xF0) * 262144 + (b1 - 0x80) * 4096 +
                            (b2 - 0x80) * 64 + (b3 - 0x80) in
                  if (0xF0 <=? b0) && (b0 <=? 0xF4) && continuation b1 &&
                     continuation b2 && continuation b3 &&
                     (0x10000 <=? c4) && (c4 <=? 0x10FFFF) then
                    cons c4 <$> decode r3
                  else None
              end
          end
      end
  end.

(** ** Exceptions and the state monad *)

Inductive exn :=
| AssertionError
| UnboundLocalError
| IndexError
| KeyError
| TypeError
| AttributeError
| ValueError
| ZeroDivisionError
| UnicodeError
| NullPointer          (* cffi refuses to dereference NULL *)
| ParseError           (* xml.etree.ElementTree *)
| UnidentifiedImageError. (* PIL *)

Inductive outcome (A : Type) :=
| Return (a : A)
| Raise (e : exn)
| OutOfFuel.
Arguments Return {A} a.
Arguments Raise {A} e.
Arguments OutOfFuel {A}.

(** A computation over a mutable state [S]: what was written before an
    exception stays written. *)
Definition M (S A : Type) : Type := S -> outcome A * S.

Definition raise {S A} (e : exn) : M S A := fun s => (Raise e, s).
Definition get {S} : M S S := fun s => (Return s, s).
Definition modify {S} (f : S -> S) : M S unit := fun s => (Return tt, f s).

#[global] Instance M_ret {S} : MRet (M S) := fun A a s => (Return a, s).
#[global] Instance M_bind {S} : MBind (M S) := fun A B k m s =>
  match m s with
  | (Return a, s') => k a s'
  | (Raise e, s') => (Raise e, s')
  | (OutOfFuel, s') => (OutOfFuel, s')
  end.

(** Python's [/] on a divisor that may be zero. *)
Definition py_div {S} (a b : Q) : M S Q :=
  if Qeq_bool b 0 then raise ZeroDivisionError else mret (fdiv a b).

(** ** Data model of the text drawer *)

(** A show-text string is built from these pieces: ['<'], ['>'], a glyph
    code printed on [digits] hexadecimal digits at least, an int, a float. *)
Inductive token :=
| TOpen
| TClose
| TGlyph (digits : nat) (glyph : Z)
| TInt (n : Z)
| TFloat (x : Q).

Definition show_string := list token.

Inductive Image :=
| SVGImage (svg_data : bytes) (glyph : Z)
| RasterImage (pillow_width pillow_height : Z) (image_id : string * Z)
              (png_data : bytes).

(** One entry of the emoji list: [[image, font, a, d, e, f]]. *)
Record Emoji := {
  emoji_image : Image;
  emoji_font : Z;
  emoji_a : Q;
  emoji_d : Q;
  emoji_e : Q;
  emoji_f : Q }.

(** The calls made on the pydyf stream, in order. *)
Inductive op :=
| set_color_rgb (r g b : Q)
| set_alpha (alpha : Q)
| begin_text
| end_text
| set_text_matrix (a b c d e f : Q)
| set_font_size (font_hash : string) (size : Q)
| show_text (s : show_string)
| set_text_rise (rise : Q)
| push_state
| pop_state
| transform (a d e f : Q)
| image_draw (image : Image) (font_size : Q)
| draw_line (x1 y1 x2 y2 thickness : Q) (style : string)
            (color : Q * Q * Q * Q) (offset_x : Q).

(** The font object shared by every stream of a document. *)
Record Font := {
  font_hash : string;
  font_bitmap : bool;
  font_svg : bool;
  font_png : bool;
  font_upem : Z;
  font_widths : gmap Z Z;
  font_cmap : gmap Z text }.

Definition set_widths (f : Font) (w : gmap Z Z) : Font :=
  {| font_hash := font_hash f; font_bitmap := font_bitmap f;
     font_svg := font_svg f; font_png := font_png f;
     font_upem := font_upem f; font_widths := w; font_cmap := font_cmap f |}.

Definition set_cmap (f : Font) (c : gmap Z text) : Font :=
  {| font_hash := font_hash f; font_bitmap := font_bitmap f;
     font_svg := font_svg f; font_png := font_png f;
     font_upem := font_upem f; font_widths := font_widths f; font_cmap := c |}.

Record PangoRectangle := {
  rect_x : Z; rect_y : Z; rect_width : Z; rect_height : Z }.

(** [PangoGlyphInfo]: the glyph and its geometry. *)
Record GlyphInfo := {
  glyph_id : Z;
  geometry_width : Z;
  geometry_x_offset : Z;
  geometry_y_offset : Z }.

(** [PangoGlyphItem]: one run of the shaped line. *)
Record Run := {
  item_offset : Z;
  item_length : Z;
  analysis_font : Z;
  glyphs : list GlyphInfo;
  log_clusters : list Z }.

(** The layout object of a textbox, with what the drawer sets on it. *)
Record Layout := {
  layout_text : text;
  max_width : option Q;
  underline_thickness : Q;
  underline_position : Q;
  strikethrough_thickness : Q;
  strikethrough_position : Q;
  ascent : Q;
  single_paragraph_mode : bool;
  pango_width : option Z;
  ellipsize_end : bool }.

Definition with_text (l : Layout) (t : text) : Layout :=
  {| layout_text := t; max_width := max_width l;
     underline_thickness := underline_thickness l;
     underline_position := underline_position l;
     strikethrough_thickness := strikethrough_thickness l;
     strikethrough_position := strikethrough_position l;
     ascent := ascent l;
     single_paragraph_mode := single_paragraph_mode l;
     pango_width := pango_width l; ellipsize_end := ellipsize_end l |}.

Definition with_single_paragraph_mode (l : Layout) (b : bool) : Layout :=
  {| layout_text := layout_text l; max_width := max_width l;
     underline_thickness := underline_thickness l;
     underline_position := underline_position l;
     strikethrough_thickness := strikethrough_thickness l;
     strikethrough_position := strikethrough_position l;
     ascent := ascent l;
     single_paragraph_mode := b;
     pango_width := pango_width l; ellipsize_end := ellipsize_end l |}.

Definition with_width (l : Layout) (w : Z) : Layout :=
  {| layout_text := layout_text l; max_width := max_width l;
     underline_thickness := underline_thickness l;
     underline_position := underline_position l;
     strikethrough_thickness := strikethrough_thickness l;
     strikethrough_position := strikethrough_position l;
     ascent := ascent l;
     single_paragraph_mode := single_paragraph_mode l;
     pango_width := Some w; ellipsize_end := ellipsize_end l |}.

Definition with_ellipsize (l : Layout) (b : bool) : Layout :=
  {| layout_text := layout_text l; max_width := max_width l;
     underline_thickness := underline_thickness l;
     underline_position := underline_position l;
     strikethrough_thickness := strikethrough_thickness l;
     strikethrough_position := strikethrough_position l;
     ascent := ascent l;
     single_paragraph_mode := single_paragraph_mode l;
     pango_width := pango_width l; ellipsize_end := b |}.

Record Style := {
  font_size : Q;
  visibility : string;
  text_decoration_line : list string;
  text_decoration_color : Q * Q * Q * Q;
  text_decoration_style : string;
  color : Q * Q * Q * Q;
  hyphenate_character : text;
  lang : string }.

Record TextBox := {
  box_text : text;
  style : Style;
  position_x : Q;
  position_y : Q;
  baseline : Q;
  box_width : Q }.

Inductive TextOverflow := clip | overflow_ellipsis.

(** [text_overflow == 'ellipsis'] *)
Definition is_ellipsis (text_overflow : TextOverflow) : bool :=
  match text_overflow with
  | overflow_ellipsis => true
  | clip => false
  end.

(** The [block-ellipsis] value: ['none'], ['auto'] or [('string', s)]. *)
Inductive BlockEllipsis :=
| be_none
| be_auto
| be_string (s : text).

(** [block_ellipsis != 'none'] *)
Definition not_none (block_ellipsis : BlockEllipsis) : bool :=
  match block_ellipsis with
  | be_none => false
  | _ => true
  end.

(** What a draw call works on: the stream, the font registry the stream
    hands out, and the layout of the textbox being drawn. *)
Record World := {
  stream : list op;
  fonts : gmap Z Font;
  pango_layout : Layout }.

Definition emit (o : op) : M World unit :=
  modify (fun w => {| stream := stream w ++ [o]; fonts := fonts w;
                      pango_layout := pango_layout w |}).

Definition set_fonts (fs : gmap Z Font) : M World unit :=
  modify (fun w => {| stream := stream w; fonts := fs;
                      pango_layout := pango_layout w |}).

Definition set_layout (l : Layout) : M World unit :=
  modify (fun w => {| stream := stream w; fonts := fonts w;
                      pango_layout := l |}).

(** What the drawer asks of Pango, HarfBuzz, ElementTree, Pillow and of the
    modules of the package it imports. *)
Class Collaborators := {
  (** [Layout.get_first_line]: the runs of the first line, and the index
      at which the second line starts, if any. *)
  get_first_line : Layout -> list Run * option Z;
  (** [text.line_break.get_last_word_end] *)
  get_last_word_end : text -> string -> option Z;
  (** [pango_font_get_glyph_extents]: the logical rectangle. *)
  glyph_logical_rect : Z -> Z -> PangoRectangle;
  (** [text.fonts.get_hb_object_data] for the ['svg'] and ['png'] tables. *)
  hb_svg_data : Z -> Z -> bytes;
  hb_png_data : Z -> Z -> bytes;
  (** whether [ElementTree.fromstring] accepts the data *)
  svg_parses : bytes -> bool;
  (** [Image.open]: the size of the decoded picture, if it decodes *)
  image_open : bytes -> option (Z * Z);
  (** the font object the registry builds for a font it has not seen *)
  new_font : Z -> Font }.

(** ** [draw/text.py] *)

Section Draw.
Context `{Collaborators}.

Definition out_of_fuel {S A} : M S A := fun s => (OutOfFuel, s).

Definition Qlt_bool (a b : Q) : bool := negb (Qle_bool b a).

(** The locals of [draw_first_line] that live across the two loops. *)
Record Locals := {
  previous_utf8_position : Z;
  last_font : option Z;
  cur_string : show_string;
  x_advance : Q;
  emojis : list Emoji }.

Definition with_string (l : Locals) (s : show_string) : Locals :=
  {| previous_utf8_position := previous_utf8_position l;
     last_font := last_font l; cur_string := s;
     x_advance := x_advance l; emojis := emojis l |}.

(** Modelled from the spec: [Stream.add_font] is in [pdf/stream.py], which
    is not among the files at hand.  It "registers/looks up the shared
    per-font cache object": the font already registered under this
    identity, or a new one, registered from now on. *)
Definition add_font (pango_font : Z) : M World Font :=
  w ← get;
  match fonts w !! pango_font with
  | Some f => mret f
  | None =>
      set_fonts (<[pango_font := new_font pango_font]> (fonts w));;
      mret (new_font pango_font)
  end.

(** Reading through the reference [add_font] returned. *)
Definition the_font (pango_font : Z) : M World Font :=
  w ← get;
  match fonts w !! pango_font with
  | Some f => mret f
  | None => raise KeyError
  end.

(** [font.widths[glyph] = v] and [font.cmap[glyph] = t], on the shared
    font object. *)
Definition store_width (pango_font glyph v : Z) : M World unit :=
  w ← get;
  set_fonts (alter (fun f => set_widths f (<[glyph := v]> (font_widths f)))
                   pango_font (fonts w)).

Definition store_cmap (pango_font glyph : Z) (t : text) : M World unit :=
  w ← get;
  set_fonts (alter (fun f => set_cmap f (<[glyph := t]> (font_cmap f)))
                   pango_font (fonts w)).

(** [glyph == PANGO_GLYPH_EMPTY or glyph & PANGO_GLYPH_UNKNOWN_FLAG] *)
Definition no_visible_glyph (glyph : Z) : bool :=
  (glyph =? PANGO_GLYPH_EMPTY) ||
  negb (Z.land glyph PANGO_GLYPH_UNKNOWN_FLAG =? 0).

(** [f'{glyph:02x}' if font.bitmap else f'{glyph:04x}'] *)
Definition glyph_code (font : Font) (glyph : Z) : token :=
  TGlyph (if font_bitmap font then 2 else 4) glyph.

(** Closing the glyph list that is open at the end of the string:
    [if string[-1] == '<': string = string[:-1] else: string += '>']. *)
Definition close_string (s : show_string) : M World show_string :=
  match last s with
  | None => raise IndexError
  | Some TOpen => mret (removelast s)
  | Some _ => mret (s ++ [TClose])
  end.

(** [kerning = int(font.widths[glyph] -
       units_to_double(width * 1000) / font_size + offset)], with the
    rounding of each float operation: the conversions of the two ints,
    the quotient, the difference and the sum.  The [offset] comes in as
    the exact quotient [x_offset / font_size], and is rounded here. *)
Definition kerning_of (font_size : Q) (declared width : Z) (offset : Q) : Z :=
  py_int (fl (fl (fl (of_int declared)
                  - fl (fl (units_to_double (width * 1000)) / font_size))
              + fl offset)).

(** The part of the glyph loop that builds the emoji list. *)
Definition emoji_of (font_size : Q) (pango_font glyph declared : Z)
    (font : Font) (x_adv : Q) : M World (list Emoji) :=
  if font_svg font then
    let svg_data := hb_svg_data pango_font glyph in
    if bool_decide (svg_data = []) then mret []
    else if svg_parses svg_data then
      a ← py_div (fdiv (of_int declared) 1000) (of_int (font_upem font));
      let a := fmul a font_size in
      mret [ {| emoji_image := SVGImage svg_data glyph;
                emoji_font := pango_font;
                emoji_a := a; emoji_d := a; emoji_e := x_adv; emoji_f := 0 |} ]
    else raise ParseError
  else if font_png font then
    let png_data := hb_png_data pango_font glyph in
    if bool_decide (png_data = []) then mret []
    else match image_open png_data with
    | None => raise UnidentifiedImageError
    | Some (pillow_width, pillow_height) =>
        let d := fdiv (of_int declared) 1000 in
        ratio ← py_div (of_int pillow_width) (of_int pillow_height);
        let a := fmul ratio d in
        let rect := glyph_logical_rect pango_font glyph in
        let f := units_to_double (- rect_y rect - rect_height rect) in
        let f := fsub (fdiv f font_size) font_size in
        mret [ {| emoji_image :=
                    RasterImage pillow_width pillow_height
                                (font_hash font, glyph) png_data;
                  emoji_font := pango_font;
                  emoji_a := a; emoji_d := d; emoji_e := x_adv; emoji_f := f |} ]
    end
  else mret [].

(** Lines 193 to 198: get ink bounding box and logical widths in font. *)
Definition cache_width (font_size : Q) (pango_font glyph : Z)
    : M World unit :=
  font ← the_font pango_font;
  match font_widths font !! glyph with
  | Some _ => mret tt
  | None =>
      let rect := glyph_logical_rect pango_font glyph in
      store_width pango_font glyph
        (py_round (fl (fl (units_to_double (rect_width rect * 1000))
                       / font_size)))
  end.

(** [font.widths[glyph]] *)
Definition declared_width (pango_font glyph : Z) : M World Z :=
  font ← the_font pango_font;
  match font_widths font !! glyph with
  | Some v => mret v
  | None => raise KeyError
  end.

(** Lines 207 to 209: create mapping between glyphs and characters. *)
Definition cache_cmap (utf8_text : bytes) (pango_font glyph : Z)
    (previous_utf8_position utf8_position : Z) : M World unit :=
  font ← the_font pango_font;
  match font_cmap font !! glyph with
  | Some _ => mret tt
  | None =>
      match decode (py_slice previous_utf8_position utf8_position
                             utf8_text) with
      | Some t => store_cmap pango_font glyph t
      | None => raise UnicodeError
      end
  end.

(** Lines 173 to 190: the glyph joins the string, or is shown alone when
    it is raised. *)
Definition place_glyph (font : Font) (glyph : Z) (offset rise : Q)
    (string : show_string) : M World show_string :=
  if truthy rise then
    flushed ← close_string string;
    emit (show_text flushed);;
    emit (set_text_rise (fneg rise));;
    emit (show_text
            ((if truthy offset then [TFloat (fneg offset)] else []) ++
             [TOpen; glyph_code font glyph; TClose]));;
    emit (set_text_rise 0);;
    mret [TOpen]
  else
    mret (string ++
          (if truthy offset
           then [TClose; TFloat (fneg offset); TOpen] else []) ++
          [glyph_code font glyph]).

(** The body of [for i in range(num_glyphs)]. *)
Definition encode_glyph (font_size : Q) (utf8_text : bytes) (pango_font : Z)
    (utf8_positions : list Z) (i : nat) (glyph_info : GlyphInfo)
    (l : Locals) : M World Locals :=
  let glyph := glyph_id glyph_info in
  let width := geometry_width glyph_info in
  if no_visible_glyph glyph then
    mret (with_string l
            (cur_string l ++
             [TClose; TFloat (fdiv (of_int (- width)) font_size); TOpen]))
  else
    utf8_position ← match utf8_positions !! i with
                    | Some p => mret p
                    | None => raise IndexError
                    end;
    let offset := fdiv (of_int (geometry_x_offset glyph_info)) font_size in
    let rise := fdiv (of_int (geometry_y_offset glyph_info)) 1000 in
    font ← the_font pango_font;
    string ← place_glyph font glyph offset rise (cur_string l);
    cache_width font_size pango_font glyph;;
    declared ← declared_width pango_font glyph;
    (* Set kerning, word spacing, letter spacing. *)
    let kerning := kerning_of font_size declared width offset in
    let string :=
      if kerning =? 0 then string
      else string ++ [TClose; TInt kerning; TOpen] in
    cache_cmap utf8_text pango_font glyph (previous_utf8_position l)
               utf8_position;;
    (* Create list of emojis. *)
    new_emojis ← emoji_of font_size pango_font glyph declared font
                          (x_advance l);
    mret {| previous_utf8_position := utf8_position;
            last_font := last_font l;
            cur_string := string;
            x_advance :=
              fadd (x_advance l)
                   (fdiv (fsub (fadd (of_int declared) offset)
                               (of_int kerning)) 1000);
            emojis := emojis l ++ new_emojis |}.

Fixpoint encode_glyphs (font_size : Q) (utf8_text : bytes) (pango_font : Z)
    (utf8_positions : list Z) (i : nat) (gs : list GlyphInfo)
    (l : Locals) : M World Locals :=
  match gs with
  | [] => mret l
  | glyph_info :: gs' =>
      l' ← encode_glyph font_size utf8_text pango_font utf8_positions i
                        glyph_info l;
      encode_glyphs font_size utf8_text pango_font utf8_positions (S i) gs' l'
  end.

(** [[offset + clusters[i] for i in range(1, num_glyphs)]] followed by
    [offset + glyph_item.item.length]. *)
Definition utf8_positions_of (run : Run) : list Z :=
  map (fun i => item_offset run + nth i (log_clusters run) 0)
      (seq 1 (length (glyphs run) - 1)) ++
  [item_offset run + item_length run].

(** The body of [while run != ffi.NULL]. *)
Definition encode_run (font_size : Q) (utf8_text : bytes) (run : Run)
    (l : Locals) : M World Locals :=
  let pango_font := analysis_font run in
  font ← add_font pango_font;
  let utf8_positions := utf8_positions_of run in
  l ← (if bool_decide (last_font l = Some pango_font) then mret l
       else
         (match cur_string l with
          | [] => mret tt
          | _ :: _ => emit (show_text (cur_string l))
          end);;
         emit (set_font_size (font_hash font)
                             (if font_bitmap font then 1 else font_size));;
         mret {| previous_utf8_position := previous_utf8_position l;
                 last_font := Some pango_font; cur_string := [];
                 x_advance := x_advance l; emojis := emojis l |});
  let l := with_string l (cur_string l ++ [TOpen]) in
  l ← encode_glyphs font_size utf8_text pango_font utf8_positions 0
                    (glyphs run) l;
  (* Close the last glyphs list, remove if empty. *)
  string ← close_string (cur_string l);
  mret (with_string l string).

Fixpoint encode_runs (font_size : Q) (utf8_text : bytes) (runs : list Run)
    (l : Locals) : M World Locals :=
  match runs with
  | [] => mret l
  | run :: runs' =>
      l' ← encode_run font_size utf8_text run l;
      encode_runs font_size utf8_text runs' l'
  end.

(** Modelled from the spec: [Layout.set_text] is in [text/layout.py], which
    is not among the files at hand; the text is handed to the shaping
    engine to be shaped again ("re-append ellipsis, re-shape"). *)
Definition set_text (t : text) : M World unit :=
  w ← get; set_layout (with_text (pango_layout w) t).

(** Truth value of the index [get_first_line] returns. *)
Definition index_truthy (index : option Z) : bool :=
  match index with
  | Some n => negb (n =? 0)
  | None => false
  end.

(** [while index:], lines 117 to 125.  [ellipsis] is [None] when the local
    of that name was never assigned; [fuel] bounds the number of times the
    body runs to its end. *)
Fixpoint truncation_loop (fuel : nat) (ellipsis : option text) (lang : string)
    (line : list Run * option Z) : M World (list Run * option Z) :=
  if index_truthy (snd line) then
    match ellipsis with
    | None => raise UnboundLocalError
    | Some ellipsis' =>
        w ← get;
        let t := layout_text (pango_layout w) in
        match get_last_word_end
                (py_slice_to (- Z.of_nat (length ellipsis')) t) lang with
        | None => mret line
        | Some last_word_end =>
            match fuel with
            | O => out_of_fuel
            | S fuel' =>
                let new_text := py_slice_to last_word_end t in
                set_text (new_text ++ ellipsis');;
                w ← get;
                truncation_loop fuel' ellipsis lang
                                (get_first_line (pango_layout w))
            end
        end
    end
  else mret line.

Definition initial_locals : Locals :=
  {| previous_utf8_position := 0; last_font := None; cur_string := [];
     x_advance := 0; emojis := [] |}.

(** Lines 88 to 112: what is set on the layout before the first line is
    asked for; the result is the local [ellipsis], if assigned. *)
Definition prepare_layout (textbox : TextBox) (text_overflow : TextOverflow)
    (block_ellipsis : BlockEllipsis) : M World (option text) :=
  if is_ellipsis text_overflow || not_none block_ellipsis then
    w ← get;
    match max_width (pango_layout w) with
    | None => raise AssertionError
    | Some max_width' =>
        set_layout (with_width (pango_layout w)
                               (units_from_double max_width'));;
        if is_ellipsis text_overflow then
          w ← get;
          set_layout (with_ellipsize (pango_layout w) true);;
          mret None
        else
          ellipsis ← match block_ellipsis with
                     | be_auto => mret [0x2026]
                     | be_string s => mret s
                     | be_none => raise AssertionError
                     end;
          (* Remove last word if hyphenated. *)
          w ← get;
          let new_text := layout_text (pango_layout w) in
          let hyphen := hyphenate_character (style textbox) in
          let new_text :=
            if endswith new_text hyphen then
              match get_last_word_end
                      (py_slice_to (- Z.of_nat (length hyphen)) new_text)
                      (lang (style textbox)) with
              | Some last_word_end =>
                  if last_word_end =? 0 then new_text
                  else py_slice_to last_word_end new_text
              | None => new_text
              end
            else new_text in
          set_text (new_text ++ ellipsis);;
          mret (Some ellipsis)
    end
  else mret None.

Definition draw_first_line (fuel : nat) (textbox : TextBox)
    (text_overflow : TextOverflow) (block_ellipsis : BlockEllipsis)
    (matrix : Q * Q * Q * Q * Q * Q) : M World (list Emoji) :=
  (* Don't draw lines with only invisible characters. *)
  if bool_decide (strip (box_text textbox) = []) then mret []
  else
    let font_size := font_size (style textbox) in
    if Qlt_bool font_size pydyf_precision then mret []
    else
      w ← get;
      set_layout (with_single_paragraph_mode (pango_layout w) true);;
      ellipsis ← prepare_layout textbox text_overflow block_ellipsis;
      w ← get;
      let line := get_first_line (pango_layout w) in
      line ← (if not_none block_ellipsis
              then truncation_loop fuel ellipsis (lang (style textbox)) line
              else mret line);
      w ← get;
      utf8_text ← match encode (layout_text (pango_layout w)) with
                  | Some b => mret b
                  | None => raise UnicodeError
                  end;
      let '(a, b, c, d, e, f) := matrix in
      emit (set_text_matrix a b c d e f);;
      match fst line with
      | [] => raise NullPointer
      | runs =>
          l ← encode_runs font_size utf8_text runs initial_locals;
          (* Draw text. *)
          emit (show_text (cur_string l));;
          mret (emojis l)
      end.

(** [draw_line] is in [draw/border.py], which is not among the files at
    hand; it is one call on the stream here.  The colour is the one
    [get_color] resolved. *)
Definition draw_text_decoration (textbox : TextBox)
    (offset_x offset_y thickness : Q) (color : Q * Q * Q * Q)
    : M World unit :=
  emit (draw_line (position_x textbox)
                  (fadd (position_y textbox) offset_y)
                  (fadd (position_x textbox) (box_width textbox))
                  (fadd (position_y textbox) offset_y)
                  thickness (text_decoration_style (style textbox))
                  color offset_x).

Fixpoint draw_emojis (font_size x y : Q) (emojis : list Emoji)
    : M World unit :=
  match emojis with
  | [] => mret tt
  | em :: rest =>
      emit push_state;;
      emit (transform (emoji_a em) (emoji_d em)
                      (fadd x (fmul (emoji_e em) font_size))
                      (fadd y (emoji_f em)));;
      emit (image_draw (emoji_image em) font_size);;
      emit pop_state;;
      draw_emojis font_size x y rest
  end.

Definition draw_text (fuel : nat) (textbox : TextBox) (offset_x : Q)
    (text_overflow : TextOverflow) (block_ellipsis : BlockEllipsis)
    : M World unit :=
  (* Pango crashes with font-size: 0. *)
  if Qeq_bool (font_size (style textbox)) 0 then raise AssertionError
  (* Don't draw invisible textboxes. *)
  else if negb (bool_decide (visibility (style textbox) = "visible"%string))
  then mret tt
  else
    (* Draw underline and overline. *)
    let text_decoration_values := text_decoration_line (style textbox) in
    let decoration_color := text_decoration_color (style textbox) in
    (if bool_decide ("overline"%string ∈ text_decoration_values) then
       w ← get;
       let thickness := underline_thickness (pango_layout w) in
       let offset_y :=
         fadd (fsub (baseline textbox) (ascent (pango_layout w)))
              (fdiv thickness 2) in
       draw_text_decoration textbox offset_x offset_y thickness
                            decoration_color
     else mret tt);;
    (if bool_decide ("underline"%string ∈ text_decoration_values) then
       w ← get;
       let thickness := underline_thickness (pango_layout w) in
       let offset_y :=
         fadd (fsub (baseline textbox)
                    (underline_position (pango_layout w)))
              (fdiv thickness 2) in
       draw_text_decoration textbox offset_x offset_y thickness
                            decoration_color
     else mret tt);;
    (* Draw text. *)
    let x := position_x textbox in
    let y := fadd (position_y textbox) (baseline textbox) in
    let '(r, g, b, alpha) := color (style textbox) in
    emit (set_color_rgb r g b);;
    emit (set_alpha alpha);;
    (* [pango_layout.reactivate] and, at the end, [deactivate] act on the
       Pango side only. *)
    emit begin_text;;
    emojis ← draw_first_line fuel textbox text_overflow block_ellipsis
                             (1, 0, 0, -1, x, y)%Q;
    emit end_text;;
    (* Draw emojis. *)
    draw_emojis (font_size (style textbox)) x y emojis;;
    (* Draw line through. *)
    (if bool_decide ("line-through"%string ∈ text_decoration_values) then
       w ← get;
       let thickness := strikethrough_thickness (pango_layout w) in
       let offset_y :=
         fsub (baseline textbox) (strikethrough_position (pango_layout w)) in
       draw_text_decoration textbox offset_x offset_y thickness
                            decoration_color
     else mret tt).

End Draw.

(** ** [pdf/pdfa.py] *)

(** What a pydyf dictionary or array can hold. *)
Inductive value :=
| VStr (s : string)              (* a [str], such as ['/Annot'] *)
| VInt (n : Z)
| VRef (number : nat)            (* [obj.reference], [b'<number> 0 R'] *)
| VString (s : string)           (* [pydyf.String] *)
| VArray (l : list value)        (* [pydyf.Array] *)
| VDict (d : gmap string value)  (* [pydyf.Dictionary] *)
| VOther.

(** The objects of [pdf.objects]. *)
Inductive pdf_object :=
| Dictionary (d : gmap string value)
| Array (l : list value)
| Stream (content : list bytes) (extra : gmap string value) (compress : bool)
| PdfString (s : string)
| Object.

(** The document: [pdf.objects], and the number under which the catalog
    is among them ([pydyf.PDF] adds it on creation, so [pdf.catalog] and
    that entry of [pdf.objects] are one dictionary). *)
Record PDF := {
  objects : list pdf_object;
  catalog : nat }.

Record Attachment := {
  md5 : option string;
  relationship : string }.

Class PdfCollaborators := {
  (** [read_binary(__package__, 'sRGB2014.icc')] *)
  sRGB2014_icc : bytes;
  (** [int(s.split()[0])] on a [str] *)
  int_of_first_word : string -> outcome Z;
  (** the XMP packet [add_metadata] writes *)
  xmp_packet : bytes -> string -> Z -> string -> bytes }.

Section Pdfa.
Context `{PdfCollaborators}.

(** [pdf.add_object(obj)]: the object gets the next number. *)
Definition add_object (o : pdf_object) : M PDF nat :=
  pdf ← get;
  modify (fun pdf => {| objects := objects pdf ++ [o];
                        catalog := catalog pdf |});;
  mret (length (objects pdf)).

Definition set_object (i : nat) (o : pdf_object) : M PDF unit :=
  modify (fun pdf => {| objects := <[i := o]> (objects pdf);
                        catalog := catalog pdf |}).

Definition get_catalog : M PDF (gmap string value) :=
  pdf ← get;
  match objects pdf !! catalog pdf with
  | Some (Dictionary d) => mret d
  | _ => raise TypeError
  end.

Definition set_catalog (d : gmap string value) : M PDF unit :=
  pdf ← get; set_object (catalog pdf) (Dictionary d).

(** [v == s] for a [str] literal [s]. *)
Definition is_str (v : option value) (s : string) : bool :=
  match v with
  | Some (VStr s') => bool_decide (s' = s)
  | _ => false
  end.

(** [key in v] *)
Definition py_contains (key : string) (v : value) : M PDF bool :=
  match v with
  | VDict d => mret (bool_decide (is_Some (d !! key)))
  | VArray l => mret (existsb (fun x => is_str (Some x) key) l)
  | VStr s => mret (bool_decide (is_Some (String.index 0 key s)))
  | _ => raise TypeError
  end.

(** [v[key]] for a [str] key *)
Definition py_getitem (key : string) (v : value) : M PDF value :=
  match v with
  | VDict d => match d !! key with
               | Some x => mret x
               | None => raise KeyError
               end
  | _ => raise TypeError
  end.

(** [int(v.split()[0])] *)
Definition reference_number (v : value) : M PDF Z :=
  match v with
  | VRef n => mret (Z.of_nat n)
  | VStr s => fun pdf => (int_of_first_word s, pdf)
  | _ => raise AttributeError
  end.

(** [pdf.objects[reference]] *)
Definition object_at (reference : Z) : M PDF pdf_object :=
  pdf ← get;
  let n := Z.of_nat (length (objects pdf)) in
  let i := if reference <? 0 then reference + n else reference in
  if (i <? 0) || (n <=? i) then raise IndexError
  else match objects pdf !! Z.to_nat i with
       | Some o => mret o
       | None => raise IndexError
       end.

Fixpoint odd_elements {A} (l : list A) : list A :=
  match l with
  | _ :: x :: rest => x :: odd_elements rest
  | _ => []
  end.

(** [names[1::2]] *)
Definition names_1_2 (names : pdf_object) : M PDF (list value) :=
  match names with
  | Array l => mret (odd_elements l)
  | _ => raise TypeError
  end.

(** The dict comprehension of lines 45 to 48: a later attachment with the
    same hash replaces an earlier one. *)
Definition relationships_of (attachments : list Attachment)
    : gmap string string :=
  foldl (fun m attachment =>
           match md5 attachment with
           | Some h => if bool_decide (h = ""%string) then m
                       else <[h := relationship attachment]> m
           | None => m
           end) ∅ attachments.

(** [relationships.get(checksum, 'Unspecified')]; lists and dictionaries
    cannot be hashed. *)
Definition relationships_get (relationships : gmap string string)
    (checksum : value) : M PDF string :=
  match checksum with
  | VStr s => mret (default "Unspecified"%string (relationships !! s))
  | VArray _ | VDict _ => raise TypeError
  | _ => mret "Unspecified"%string
  end.

(** Lines 49 to 55, over the numbers of the objects. *)
Fixpoint tag_filespecs (relationships : gmap string string)
    (numbers : list nat) (attachments : list value) : M PDF (list value) :=
  match numbers with
  | [] => mret attachments
  | i :: rest =>
      pdf ← get;
      match objects pdf !! i with
      | Some (Dictionary pdf_object) =>
          if is_str (pdf_object !! "Type"%string) "/Filespec" then
            match pdf_object !! "CheckSum"%string with
            | None => raise KeyError
            | Some checksum =>
                relationship ← relationships_get relationships checksum;
                set_object i
                  (Dictionary (<["AFRelationship"%string :=
                                   VStr ("/" +:+ relationship)]> pdf_object));;
                tag_filespecs relationships rest (attachments ++ [VRef i])
            end
          else tag_filespecs relationships rest attachments
      | _ => tag_filespecs relationships rest attachments
      end
  end.

(** Lines 62 to 64, over the numbers of the objects. *)
Fixpoint print_annotations (numbers : list nat) : M PDF unit :=
  match numbers with
  | [] => mret tt
  | i :: rest =>
      pdf ← get;
      match objects pdf !! i with
      | Some (Dictionary pdf_object) =>
          if is_str (pdf_object !! "Type"%string) "/Annot" then
            set_object i
              (Dictionary (<["F"%string := VInt (2 ^ (3 - 1))]> pdf_object));;
            print_annotations rest
          else print_annotations rest
      | _ => print_annotations rest
      end
  end.

(** Lines 56 to 59. *)
Definition extend_AF (attachments : list value) : M PDF unit :=
  match attachments with
  | [] => mret tt
  | _ :: _ =>
      catalog ← get_catalog;
      let catalog :=
        match catalog !! "AF"%string with
        | Some _ => catalog
        | None => <["AF"%string := VArray []]> catalog
        end in
      match catalog !! "AF"%string with
      | Some (VArray l) =>
          set_catalog (<["AF"%string := VArray (l ++ attachments)]> catalog)
      | _ => raise AttributeError
      end
  end.

(** Lines 38 to 59. *)
Definition add_AF (document_attachments : list Attachment) : M PDF unit :=
  catalog ← get_catalog;
  has_names ←
    match catalog !! "Names"%string with
    | Some names => py_contains "EmbeddedFiles" names
    | None => mret false
    end;
  attachments ←
    (if has_names : bool then
       names ← py_getitem "Names" (VDict catalog);
       embedded ← py_getitem "EmbeddedFiles" names;
       reference ← reference_number embedded;
       names ← object_at reference;
       names_1_2 names
     else mret []);
  let relationships := relationships_of document_attachments in
  pdf ← get;
  attachments ← tag_filespecs relationships (seq 0 (length (objects pdf)))
                              attachments;
  extend_AF attachments.

(** Modelled from the spec: [add_metadata] is in [pdf/metadata.py], which
    is not among the files at hand; the finalizer "writes a metadata
    stream": a stream object holding the packet is added to the document
    and the catalog refers to it. *)
Definition add_metadata (metadata : bytes) (variant : string) (version : Z)
    (conformance : string) (compress : bool) : M PDF unit :=
  number ← add_object
    (Stream [xmp_packet metadata variant version conformance]
            (<["Type"%string := VStr "/Metadata"]>
               (<["Subtype"%string := VStr "/XML"]> ∅)) compress);
  catalog ← get_catalog;
  set_catalog (<["Metadata"%string := VRef number]> catalog).

Definition pdfa (metadata : bytes) (document_attachments : list Attachment)
    (compress : bool) (version : Z) : M PDF unit :=
  (* Add ICC profile *)
  profile ← add_object
    (Stream [sRGB2014_icc]
            (<["N"%string := VInt 3]>
               (<["Alternate"%string := VStr "/DeviceRGB"]> ∅)) compress);
  catalog ← get_catalog;
  set_catalog
    (<["OutputIntents"%string :=
         VArray [VDict
           (<["Type"%string := VStr "/OutputIntent"]>
           (<["S"%string := VStr "/GTS_PDFA1"]>
           (<["OutputConditionIdentifier"%string :=
                VString "sRGB IEC61966-2.1"]>
           (<["DestOutputProfile"%string := VRef profile]> ∅))))]]>
       catalog);;
  (* Add AF for attachments *)
  (if 2 <=? version then add_AF document_attachments else mret tt);;
  (* Print annotations *)
  pdf ← get;
  print_annotations (seq 0 (length (objects pdf)));;
  (* Common PDF metadata stream *)
  add_metadata metadata "a" version "B" compress.

(** [VARIANTS]: the finalizer at versions 1 to 4. *)
Definition VARIANTS : list (string * (Z * string)) :=
  [("pdf/a-1b", (1, "1.4")); ("pdf/a-2b", (2, "1.7"));
   ("pdf/a-3b", (3, "1.7")); ("pdf/a-4b", (4, "2.0"))]%string.

End Pdfa.

(** ** Vocabulary of the statements *)

(** Every dictionary of [pdf] is still a dictionary of [pdf'], under the
    same number, and agrees with it outside the keys [written]. *)
Definition frame (written : list string) (pdf pdf' : PDF) : Prop :=
  catalog pdf' = catalog pdf /\
  forall i d, objects pdf !! i = Some (Dictionary d) ->
    exists d', objects pdf' !! i = Some (Dictionary d') /\
      forall k, k ∉ written -> d' !! k = d !! k.

(** What the annotation loop does to one object. *)
Definition mark_printable (o : pdf_object) : pdf_object :=
  match o with
  | Dictionary d =>
      if is_str (d !! "Type"%string) "/Annot"
      then Dictionary (<["F"%string := VInt 4]> d) else o
  | _ => o
  end.

(** Every annotation dictionary of the document has [F = 4]. *)
Definition annotations_printable (pdf : PDF) : Prop :=
  forall i d, objects pdf !! i = Some (Dictionary d) ->
    is_str (d !! "Type"%string) "/Annot" = true ->
    d !! "F"%string = Some (VInt 4).

(** The relationship the document records for a content hash: that of the
    last attachment with this hash. *)
Definition recorded_relationship (attachments : list Attachment)
    (h : string) : option string :=
  relationship <$>
    last (filter (fun a => md5 a = Some h) attachments).

(** The name written for a checksum. *)
Definition relationship_name (attachments : list Attachment)
    (checksum : value) : string :=
  match checksum with
  | VStr s =>
      if bool_decide (s = ""%string) then "/Unspecified"%string
      else "/" +:+ default "Unspecified"%string
                     (recorded_relationship attachments s)
  | _ => "/Unspecified"%string
  end.

(** The catalog's [AF] array holds [v]. *)
Definition in_AF (pdf : PDF) (v : value) : Prop :=
  exists c l, objects pdf !! catalog pdf = Some (Dictionary c) /\
    c !! "AF"%string = Some (VArray l) /\ v ∈ l.

(** What the attachment loop does to one object. *)
Definition tag_filespec (attachments : list Attachment) (o : pdf_object)
    : pdf_object :=
  match o with
  | Dictionary d =>
      if is_str (d !! "Type"%string) "/Filespec" then
        match d !! "CheckSum"%string with
        | Some checksum =>
            Dictionary (<["AFRelationship"%string :=
                            VStr (relationship_name attachments checksum)]> d)
        | None => o
        end
      else o
  | _ => o
  end.


(** The font object [f'] is [f] with, at most, more cache entries. *)
Definition font_stable (f f' : Font) : Prop :=
  font_hash f' = font_hash f /\ font_bitmap f' = font_bitmap f /\
  font_svg f' = font_svg f /\ font_png f' = font_png f /\
  font_upem f' = font_upem f /\
  (forall g v, font_widths f !! g = Some v -> font_widths f' !! g = Some v) /\
  (forall g t, font_cmap f !! g = Some t -> font_cmap f' !! g = Some t).

(** Every font registered in [w] is registered in [w'], with every cache
    entry it had. *)
Definition caches_preserved (w w' : World) : Prop :=
  forall k f, fonts w !! k = Some f ->
    exists f', fonts w' !! k = Some f' /\ font_stable f f'.

(** A computation that takes a world to one related to it by [R],
    whatever its outcome. *)
Definition keeps {A} (R : World -> World -> Prop) (m : M World A) : Prop :=
  forall w, R w (snd (m w)).

(** One call of [draw_text], on a textbox and its layout. *)
Record Call := {
  call_fuel : nat;
  call_textbox : TextBox;
  call_layout : Layout;
  call_offset_x : Q;
  call_text_overflow : TextOverflow;
  call_block_ellipsis : BlockEllipsis }.

(** A series of draws on one stream, each on its own textbox. *)
Definition draw_all `{Collaborators} (calls : list Call) (w : World) : World :=
  foldl (fun w c =>
           snd (draw_text (call_fuel c) (call_textbox c) (call_offset_x c)
                          (call_text_overflow c) (call_block_ellipsis c)
                          {| stream := stream w; fonts := fonts w;
                             pango_layout := call_layout c |}))
        w calls.

(** A show string that holds one glyph code, after at most a number. *)
Definition lone_glyph (s : show_string) : Prop :=
  exists digits g,
    s = [TOpen; TGlyph digits g; TClose] \/
    exists x, s = [TFloat x; TOpen; TGlyph digits g; TClose].

(** A sequence of stream calls in which the rise is only ever set around
    one glyph shown alone: a show of what was pending, the rise, the show
    of the glyph, and the rise back at 0. *)
Inductive rise_isolated : list op -> Prop :=
| isolated_nil : rise_isolated []
| isolated_plain o rest :
    (forall r, o <> set_text_rise r) ->
    rise_isolated rest -> rise_isolated (o :: rest)
| isolated_rise pending r s rest :
    lone_glyph s ->
    rise_isolated rest ->
    rise_isolated (show_text pending :: set_text_rise r :: show_text s ::
                   set_text_rise 0 :: rest).

(** The stream of [w'] is that of [w] and then calls in which the rise is
    isolated. *)
Definition extends_isolated (w w' : World) : Prop :=
  exists ops, stream w' = stream w ++ ops /\ rise_isolated ops.

(** The font object [add_font] answers with in [w]. *)
Definition font_for `{Collaborators} (w : World) (pango_font : Z) : Font :=
  default (new_font pango_font) (fonts w !! pango_font).

(** The font objects [add_font] answers with have the same flags in [w']
    as in [w]. *)
Definition same_flags `{Collaborators} (w w' : World) : Prop :=
  forall pango_font,
    font_svg (font_for w' pango_font) = font_svg (font_for w pango_font) /\
    font_png (font_for w' pango_font) = font_png (font_for w pango_font).

(** A computation that needs no fuel. *)
Definition total {A} (m : M World A) : Prop :=
  forall w, fst (m w) <> OutOfFuel.

(** The picture of a glyph is there and cannot be read. *)
Definition malformed_picture `{Collaborators} (font : Font)
    (pango_font g : Z) : Prop :=
  (font_svg font = true /\ hb_svg_data pango_font g <> [] /\
   svg_parses (hb_svg_data pango_font g) = false) \/
  (font_svg font = false /\ font_png font = true /\
   hb_png_data pango_font g <> [] /\
   image_open (hb_png_data pango_font g) = None).

(** The font has no picture for the glyph: no data in the table it would
    be read from, or no table. *)
Definition no_picture `{Collaborators} (font : Font)
    (pango_font g : Z) : Prop :=
  (font_svg font = true /\ hb_svg_data pango_font g = []) \/
  (font_svg font = false /\ font_png font = true /\
   hb_png_data pango_font g = []) \/
  (font_svg font = false /\ font_png font = false).

(** A computation that raises no exception but those of [E]. *)
Definition raises_only {A} (E : exn -> Prop) (m : M World A) : Prop :=
  forall w e w', m w = (Raise e, w') -> E e.

(** The exceptions that are not those of the picture parsers. *)
Definition no_parser_error (e : exn) : Prop :=
  e <> ParseError /\ e <> UnidentifiedImageError.

(** Nothing was sent to the stream between [w] and [w']. *)
Definition same_stream (w w' : World) : Prop := stream w' = stream w.







(** The unit roundoff of binary64, and half the least subnormal number. *)
Definition unit_roundoff : Q := 1 # 9007199254740992.





(** ** Vocabulary for the finalizer's footprint *)

(** The object numbered [j] is a file specification. *)
Definition filespec_at (pdf : PDF) (j : nat) : bool :=
  match objects pdf !! j with
  | Some (Dictionary d) => is_str (d !! "Type"%string) "/Filespec"
  | _ => false
  end.

(** The numbers of the file specifications of a document, in order. *)
Definition filespec_numbers (pdf : PDF) : list nat :=
  filter (fun j => filespec_at pdf j = true)
         (seq 0 (length (objects pdf))).

(** Between [pdf] and [pdf'] the catalog has the same number, every object
    that is no dictionary is the same, and a dictionary [d] numbered [i]
    differs at most at the keys [k] with [allowed i d k]. *)
Definition changes_only
    (allowed : nat -> gmap string value -> string -> Prop)
    (pdf pdf' : PDF) : Prop :=
  catalog pdf' = catalog pdf /\
  forall i o, objects pdf !! i = Some o ->
    match o with
    | Dictionary d =>
        exists d', objects pdf' !! i = Some (Dictionary d') /\
          forall k, ~ allowed i d k -> d' !! k = d !! k
    | _ => objects pdf' !! i = Some o
    end.

(** The entries the finalizer may write at version [version]: [F] of an
    annotation; [AFRelationship] of a file specification, from version 2;
    [OutputIntents] and [Metadata] of the catalog [cat], and its [AF] from
    version 2. *)
Definition pdfa_touches (version : Z) (cat : nat) (i : nat)
    (d : gmap string value) (k : string) : Prop :=
  (k = "F"%string /\ is_str (d !! "Type"%string) "/Annot" = true) \/
  (k = "AFRelationship"%string /\ 2 <= version /\
   is_str (d !! "Type"%string) "/Filespec" = true) \/
  (i = cat /\
   (k = "OutputIntents"%string \/ k = "Metadata"%string \/
    (k = "AF"%string /\ 2 <= version))).

(** The entries the finalizer writes once the output intent is there. *)
Definition later_keys (i : nat) (d : gmap string value) (k : string) : Prop :=
  k = "F"%string \/ k = "AFRelationship"%string \/ k = "AF"%string \/
  k = "Metadata"%string.

(** A checksum [relationships.get] can look up: lists and dictionaries
    cannot be hashed. *)
Definition hashable (v : value) : bool :=
  match v with
  | VArray _ | VDict _ => false
  | _ => true
  end.

(** The file specifications of a document carry checksums that can be
    looked up. *)
Definition filespecs_checked (pdf : PDF) : Prop :=
  forall i d, objects pdf !! i = Some (Dictionary d) ->
    is_str (d !! "Type"%string) "/Filespec" = true ->
    exists checksum, d !! "CheckSum"%string = Some checksum /\
                     hashable checksum = true.

(** The [AF] array a catalog starts with. *)
Definition initial_AF (c : gmap string value) : list value :=
  match c !! "AF"%string with
  | Some (VArray l) => l
  | _ => []
  end.

(** The number a reference stands for: [int(embedded.split()[0])]. *)
Definition embedded_reference `{PdfCollaborators} (embedded : value)
    : option Z :=
  match embedded with
  | VRef n => Some (Z.of_nat n)
  | VStr s => match int_of_first_word s with
              | Return reference => Some reference
              | _ => None
              end
  | _ => None
  end.

(** The entries the name tree of a catalog [c] gives among the objects of
    [pdf]: when [c] has [Names] with [EmbeddedFiles], every second entry
    of the array that is the object [EmbeddedFiles] refers to, counted as
    Python indexes a list; nothing otherwise. *)
Definition embedded_names `{PdfCollaborators} (c : gmap string value)
    (pdf : PDF) : list value :=
  match c !! "Names"%string with
  | Some (VDict names) =>
      match names !! "EmbeddedFiles"%string with
      | Some embedded =>
          match embedded_reference embedded with
          | Some reference =>
              let n := Z.of_nat (length (objects pdf)) in
              let i := if reference <? 0 then reference + n else reference in
              if (i <? 0) || (n <=? i) then []
              else match objects pdf !! Z.to_nat i with
                   | Some (Array l) => odd_elements l
                   | _ => []
                   end
          | None => []
          end
      | None => []
      end
  | _ => []
  end.

(** The stream the finalizer adds for the colour profile. *)
Definition profile_stream `{PdfCollaborators} (compress : bool) : pdf_object :=
  Stream [sRGB2014_icc]
         (<["N"%string := VInt 3]>
            (<["Alternate"%string := VStr "/DeviceRGB"]> ∅)) compress.

(** The output intent the finalizer gives the catalog, for the profile
    stream numbered [profile]. *)
Definition output_intents (profile : nat) : value :=
  VArray [VDict
    (<["Type"%string := VStr "/OutputIntent"]>
    (<["S"%string := VStr "/GTS_PDFA1"]>
    (<["OutputConditionIdentifier"%string := VString "sRGB IEC61966-2.1"]>
    (<["DestOutputProfile"%string := VRef profile]> ∅))))].

(** The document when the finalizer has added the colour profile and
    written the output intent, for a catalog that was [c]. *)
Definition with_output_intent `{PdfCollaborators} (compress : bool)
    (c : gmap string value) (pdf : PDF) : PDF :=
  {| objects :=
       <[catalog pdf :=
           Dictionary (<["OutputIntents"%string :=
                           output_intents (length (objects pdf))]> c)]>
         (objects pdf ++ [profile_stream compress]);
     catalog := catalog pdf |}.

(** ** Vocabulary for what a line sends to the stream *)

(** Reading a show string from left to right; [inside] says whether a glyph
    list is open.  Glyph codes stand inside a list, numbers between lists,
    and lists do not nest.  The result is whether a list is open at the
    end. *)
Fixpoint scan (inside : bool) (s : show_string) : option bool :=
  match s with
  | [] => Some inside
  | TOpen :: s' => if inside then None else scan true s'
  | TClose :: s' => if inside then scan false s' else None
  | TGlyph _ _ :: s' => if inside then scan true s' else None
  | TInt _ :: s' | TFloat _ :: s' => if inside then None else scan false s'
  end.

(** A show string whose glyph lists are all closed, and one whose last
    list is still open. *)
Definition closed (s : show_string) : Prop := scan false s = Some false.
Definition half_open (s : show_string) : Prop := scan false s = Some true.

(** The operators of a text object, with well-formed operands. *)
Definition text_operator (o : op) : Prop :=
  match o with
  | set_text_matrix _ _ _ _ _ _ | set_font_size _ _ | set_text_rise _ => True
  | show_text s => closed s
  | _ => False
  end.

(** The operators that stand outside of a text object. *)
Definition outside_text (o : op) : Prop :=
  match o with
  | push_state | pop_state | transform _ _ _ _ | image_draw _ _
  | draw_line _ _ _ _ _ _ _ _ => True
  | _ => False
  end.


(** From [w] to [w'] the stream got more operators, all of them [ok]. *)
Definition sends (ok : op -> Prop) (w w' : World) : Prop :=
  exists ops, stream w' = stream w ++ ops /\ Forall ok ops.

(** From [w] to [w'] the layout is the same. *)
Definition same_layout (w w' : World) : Prop :=
  pango_layout w' = pango_layout w.

(** A computation that, from a font registry with [P], takes the world to
    one related by [R]; when it returns [a] the registry has [Q a], and
    when it raises, the exception is an [expected] one. *)
Definition spec (R : World -> World -> Prop) (expected : exn -> Prop) {A}
    (P : gmap Z Font -> Prop) (m : M World A)
    (Q : A -> gmap Z Font -> Prop) : Prop :=
  forall w, P (fonts w) ->
    R w (snd (m w)) /\
    match fst (m w) with
    | Return a => Q a (fonts (snd (m w)))
    | Raise e => expected e
    | OutOfFuel => True
    end.

(** The registry knows the font, and the font the width of the glyph. *)
Definition registered (pango_font : Z) (fs : gmap Z Font) : Prop :=
  is_Some (fs !! pango_font).

Definition width_cached (pango_font glyph : Z) (fs : gmap Z Font) : Prop :=
  exists f, fs !! pango_font = Some f /\ is_Some (font_widths f !! glyph).

(** The exceptions drawing a line can end with. *)
Definition drawing_errors : list exn :=
  [ AssertionError; UnboundLocalError; UnicodeError; NullPointer;
    ParseError; UnidentifiedImageError; ZeroDivisionError ].

(** What [draw_emojis] sends for one emoji. *)
Definition emoji_block (font_size x y : Q) (em : Emoji) : list op :=
  [ push_state;
    transform (emoji_a em) (emoji_d em)
              (fadd x (fmul (emoji_e em) font_size)) (fadd y (emoji_f em));
    image_draw (emoji_image em) font_size;
    pop_state ].

(** The local [ellipsis] for a [block-ellipsis] value. *)
Definition ellipsis_of (block_ellipsis : BlockEllipsis) : text :=
  match block_ellipsis with
  | be_auto => [0x2026]
  | be_string s => s
  | be_none => []
  end.

(** The world once [ops] have been sent to the stream. *)
Definition extend (w : World) (ops : list op) : World :=
  {| stream := stream w ++ ops; fonts := fonts w;
     pango_layout := pango_layout w |}.


(** The line of a decoration, [offset_y] under the top of the textbox. *)
Definition decoration_line (textbox : TextBox)
    (offset_x offset_y thickness : Q) : op :=
  draw_line (position_x textbox) (fadd (position_y textbox) offset_y)
            (fadd (position_x textbox) (box_width textbox))
            (fadd (position_y textbox) offset_y)
            thickness (text_decoration_style (style textbox))
            (text_decoration_color (style textbox)) offset_x.

(** What the decoration [name] sends: its line, when the style of the
    textbox asks for it. *)
Definition decoration (name : string) (textbox : TextBox)
    (offset_x offset_y thickness : Q) : list op :=
  if bool_decide (name ∈ text_decoration_line (style textbox))
  then [decoration_line textbox offset_x offset_y thickness] else [].

(** The three decorations of [draw_text], placed from the metrics of the
    layout. *)
Definition overline (textbox : TextBox) (offset_x : Q) (layout : Layout)
    : list op :=
  decoration "overline" textbox offset_x
    (fadd (fsub (baseline textbox) (ascent layout))
          (fdiv (underline_thickness layout) 2))
    (underline_thickness layout).

Definition underline (textbox : TextBox) (offset_x : Q) (layout : Layout)
    : list op :=
  decoration "underline" textbox offset_x
    (fadd (fsub (baseline textbox) (underline_position layout))
          (fdiv (underline_thickness layout) 2))
    (underline_thickness layout).

Definition line_through (textbox : TextBox) (offset_x : Q) (layout : Layout)
    : list op :=
  decoration "line-through" textbox offset_x
    (fsub (baseline textbox) (strikethrough_position layout))
    (strikethrough_thickness layout).

(** What [draw_text] sends before the line is drawn: overline, underline,
    colour, alpha and the beginning of the text object. *)
Definition text_opening (textbox : TextBox) (offset_x : Q) (layout : Layout)
    : list op :=
  overline textbox offset_x layout ++ underline textbox offset_x layout ++
  (let '(r, g, b, alpha) := color (style textbox) in
   [set_color_rgb r g b; set_alpha alpha; begin_text]).

(** The layout a line without block ellipsis leaves: as it was for a
    blank text or a font size below the precision; else in
    single-paragraph mode, and with Pango's width and its ellipsis at the
    end set when [text-overflow] is [ellipsis] and the layout has a maximal
    width. *)
Definition plain_line_layout (textbox : TextBox)
    (text_overflow : TextOverflow) (layout : Layout) : Layout :=
  if bool_decide (strip (box_text textbox) = []) ||
     Qlt_bool (font_size (style textbox)) pydyf_precision
  then layout
  else
    let single := with_single_paragraph_mode layout true in
    if is_ellipsis text_overflow then
      match max_width layout with
      | Some width =>
          with_ellipsize (with_width single (units_from_double width)) true
      | None => single
      end
    else single.



(** The text of the layout is a part of [original], from its start,
    followed by [ellipsis]. *)
Definition cut_with_ellipsis (original ellipsis : text) (w : World) : Prop :=
  exists kept, kept `prefix_of` original /\
    layout_text (pango_layout w) = kept ++ ellipsis.

(** From a world with [P], the computation returns [a] in a world with
    [Q a], or ends otherwise in a world with [X]. *)
Definition triple {A} (P : World -> Prop) (m : M World A)
    (Q : A -> World -> Prop) (X : World -> Prop) : Prop :=
  forall w, P w ->
    match fst (m w) with
    | Return a => Q a (snd (m w))
    | _ => X (snd (m w))
    end.

(** The font registered as [pango_font] has the width and the text of the
    glyph. *)
Definition glyph_known (pango_font glyph : Z) (w : World) : Prop :=
  exists f, fonts w !! pango_font = Some f /\
    is_Some (font_widths f !! glyph) /\ is_Some (font_cmap f !! glyph).

(** Every visible glyph of the runs is known to the font of its run. *)
Definition glyphs_known (runs : list Run) (w : World) : Prop :=
  forall run gi, run ∈ runs -> gi ∈ glyphs run ->
    no_visible_glyph (glyph_id gi) = false ->
    glyph_known (analysis_font run) (glyph_id gi) w.

(** ** A small document *)

Definition sample_pdf_collaborators : PdfCollaborators :=
  {| sRGB2014_icc := [0; 0; 12; 72];
     int_of_first_word := fun _ => Raise ValueError;
     xmp_packet := fun metadata _ _ _ => metadata |}.

(** The four objects [pydyf.PDF] starts with, an annotation and an
    embedded file. *)
Definition sample_pdf : PDF :=
  {| objects :=
       [ Object;
         Dictionary (<["Type"%string := VStr "/Pages"]> ∅);
         Dictionary ∅;
         Dictionary (<["Type"%string := VStr "/Catalog"]> ∅);
         Dictionary (<["Type"%string := VStr "/Annot"]>
                       (<["Subtype"%string := VStr "/Link"]> ∅));
         Dictionary (<["Type"%string := VStr "/Filespec"]>
                       (<["CheckSum"%string :=
                            VStr "d41d8cd98f00b204e9800998ecf8427e"]> ∅)) ];
     catalog := 3 |}.

Definition sample_attachments : list Attachment :=
  [ {| md5 := Some "d41d8cd98f00b204e9800998ecf8427e"%string;
       relationship := "Source" |};
    {| md5 := None; relationship := "Data" |} ].

Definition sample_pdf_final : PDF :=
  snd (pdfa (H := sample_pdf_collaborators) [60; 62] sample_attachments
            false 3 sample_pdf).

(** ** A small shaping engine *)

(** The index of the last space of a text. *)
Fixpoint last_space (t : text) : option nat :=
  match t with
  | [] => None
  | c :: t' =>
      match last_space t' with
      | Some k => Some (S k)
      | None => if c =? 32 then Some O else None
      end
  end.

(** The number of words of a text, spaces separating them. *)
Definition space_words (t : list Z) : nat :=
  S (length (filter (fun c => c = 32) t)).

(** A shaping engine that always answers with the same line of runs, for
    which a line overflows when its text has more than [fits] characters,
    whose words end at spaces, and whose fonts are all [font] with
    [logical_width] wide glyphs carrying the picture [png]. *)
Definition fixed_engine (runs : list Run) (fits : Z) (logical_width : Z)
    (font : Font) (png : bytes) (picture : option (Z * Z)) : Collaborators :=
  {| get_first_line := fun layout =>
       (runs,
        if fits <? Z.of_nat (length (layout_text layout))
        then Some fits else None);
     get_last_word_end := fun t _ => Z.of_nat <$> last_space t;
     glyph_logical_rect := fun _ _ =>
       {| rect_x := 0; rect_y := - 1024; rect_width := logical_width;
          rect_height := 1024 |};
     hb_svg_data := fun _ _ => [];
     hb_png_data := fun _ _ => png;
     svg_parses := fun _ => true;
     image_open := fun _ => picture;
     new_font := fun _ => font |}.

Definition outline_font : Font :=
  {| font_hash := "AAAAAA"; font_bitmap := false; font_svg := false;
     font_png := false; font_upem := 1000;
     font_widths := ∅; font_cmap := ∅ |}.

Definition picture_font : Font :=
  {| font_hash := "EMOJIS"; font_bitmap := false; font_svg := false;
     font_png := true; font_upem := 2048;
     font_widths := ∅; font_cmap := ∅ |}.

Definition sample_layout (t : text) : Layout :=
  {| layout_text := t; max_width := Some 100%Q;
     underline_thickness := 1; underline_position := -1;
     strikethrough_thickness := 1; strikethrough_position := 3;
     ascent := 9; single_paragraph_mode := false;
     pango_width := None; ellipsize_end := false |}.

Definition sample_style (size : Q) : Style :=
  {| font_size := size; visibility := "visible";
     text_decoration_line := []; text_decoration_color := (0, 0, 0, 1)%Q;
     text_decoration_style := "solid"; color := (0, 0, 0, 1)%Q;
     hyphenate_character := [0x2010]; lang := "en" |}.

Definition sample_textbox (t : text) (size : Q) : TextBox :=
  {| box_text := t; style := sample_style size;
     position_x := 0; position_y := 0; baseline := 10; box_width := 100 |}.

Definition sample_world (t : text) : World :=
  {| stream := []; fonts := ∅; pango_layout := sample_layout t |}.

Definition glyph (id width x_offset y_offset : Z) : GlyphInfo :=
  {| glyph_id := id; geometry_width := width;
     geometry_x_offset := x_offset; geometry_y_offset := y_offset |}.

(** One run in font 1 over the whole of a text of [length] bytes, one
    cluster per glyph. *)
Definition one_run (length : Z) (gs : list GlyphInfo) : Run :=
  {| item_offset := 0; item_length := length; analysis_font := 1;
     glyphs := gs;
     log_clusters := map Z.of_nat (seq 0 (List.length gs)) |}.

(** What a computation returned, or [d]. *)
Definition returned {A} (o : outcome A) (d : A) : A :=
  match o with
  | Return a => a
  | _ => d
  end.

(** "Hi" at size 12, the second glyph raised by 1000 units; the same with
    an empty glyph in its place. *)
Definition raised_engine : Collaborators :=
  fixed_engine [one_run 2 [glyph 43 6144 0 0; glyph 76 6144 0 1000]]
               100 6144 outline_font [] None.
Definition raised_empty_engine : Collaborators :=
  fixed_engine [one_run 2 [glyph 43 6144 0 0;
                           glyph PANGO_GLYPH_EMPTY 6144 0 1000]]
               100 6144 outline_font [] None.

(** "Hi" in a font with pictures, none of which decodes. *)
Definition broken_picture_engine : Collaborators :=
  fixed_engine [one_run 2 [glyph 43 6144 0 0; glyph 76 6144 0 0]]
               100 6144 picture_font [1; 2; 3] None.

(** "H" at size 1 in a font with pictures twice as wide as high. *)
Definition wide_picture_engine : Collaborators :=
  fixed_engine [one_run 1 [glyph 43 1024 0 0]]
               100 1024 picture_font [137; 80; 78; 71] (Some (200, 100)).

(** "HiH" at size 1: glyphs declared 512 units wide, shaped 511 wide. *)
Definition tight_glyphs : list GlyphInfo :=
  [glyph 43 511 0 0; glyph 76 511 0 0; glyph 43 511 0 0].
Definition tight_engine : Collaborators :=
  fixed_engine [one_run 3 tight_glyphs] 100 512 outline_font [] None.


(** "The quick brown fox", on a line that holds 16 characters. *)
Definition the_quick_brown_fox : text :=
  [84; 104; 101; 32; 113; 117; 105; 99; 107; 32;
   98; 114; 111; 119; 110; 32; 102; 111; 120].
Definition narrow_engine : Collaborators :=
  fixed_engine [one_run 1 [glyph 43 512 0 0]] 16 512 outline_font [] None.

(** A world in which font 1 is registered, the width of glyph 43 known. *)
Definition warm_font : Font :=
  set_cmap (set_widths outline_font (<[43 := 500]> ∅)) (<[43 := [72]]> ∅).
Definition warm_world : World :=
  {| stream := []; fonts := <[1 := warm_font]> ∅;
     pango_layout := sample_layout [72; 105] |}.

(** Drawing "Hi" at size 12. *)
Definition hi_call : Call :=
  {| call_fuel := 0; call_textbox := sample_textbox [72; 105] 12;
     call_layout := sample_layout [72; 105]; call_offset_x := 0;
     call_text_overflow := clip; call_block_ellipsis := be_none |}.

(** ** More documents *)

(** A document whose embedded file has no checksum. *)
Definition unchecked_pdf : PDF :=
  {| objects :=
       [ Dictionary (<["Type"%string := VStr "/Catalog"]> ∅);
         Dictionary (<["Type"%string := VStr "/Filespec"]>
                       (<["F"%string := VString "notes.txt"]> ∅)) ];
     catalog := 0 |}.

(** A document whose name tree names, as its embedded files, a dictionary:
    the catalog itself. *)
Definition misnamed_catalog : gmap string value :=
  <["Type"%string := VStr "/Catalog"]>
    (<["Names"%string :=
         VDict (<["EmbeddedFiles"%string := VRef 1]> ∅)]> ∅).

Definition misnamed_pdf : PDF :=
  {| objects := [ Object; Dictionary misnamed_catalog ];
     catalog := 1 |}.

(** A document with a name tree, a file the tree does not name and an
    [AF] array already there. *)
Definition named_pdf : PDF :=
  {| objects :=
       [ Dictionary
           (<["Type"%string := VStr "/Catalog"]>
           (<["AF"%string := VArray [VRef 9]]>
           (<["Names"%string :=
                VDict (<["EmbeddedFiles"%string := VRef 1]> ∅)]> ∅)));
         Array [VString "a.txt"; VRef 2; VString "b.txt"; VRef 7];
         Dictionary (<["Type"%string := VStr "/Filespec"]>
                       (<["CheckSum"%string := VStr "0cc175b9"]> ∅)) ];
     catalog := 0 |}.

Definition named_pdf_final : PDF :=
  snd (pdfa (H := sample_pdf_collaborators) [60; 62] sample_attachments
            true 2 named_pdf).

(** Three attachments, two of them with the same content. *)
Definition twin_attachments : list Attachment :=
  [ {| md5 := Some "0cc175b9"%string; relationship := "Data" |};
    {| md5 := Some "0cc175b9"%string; relationship := "Source" |};
    {| md5 := Some "92eb5ffe"%string; relationship := "Alternative" |} ].

(** ** A layout without a width *)

(** "Hi" on a layout that was given no maximal width. *)
Definition unbounded_world : World :=
  {| stream := []; fonts := ∅;
     pango_layout :=
       {| layout_text := [72; 105]; max_width := None;
          underline_thickness := 1; underline_position := -1;
          strikethrough_thickness := 1; strikethrough_position := 3;
          ascent := 9; single_paragraph_mode := false;
          pango_width := None; ellipsize_end := false |} |}.

(** * Proofs *)

(** ** Binary64 rounding *)

Section Rounding.

Lemma py_round_error y : (Qabs (inject_Z (py_round y) - y) <= 1 # 2)%Q.
Proof.
  unfold py_round.
  pose proof (Qfloor_le y) as Hlo. pose proof (Qlt_floor y) as Hhi.
  rewrite inject_Z_plus in Hhi. change (inject_Z 1) with 1%Q in Hhi.
  set (f := Qfloor y) in *. clearbody f.
  apply Qabs_Qle_condition.
  destruct (Qcompare_spec (y - inject_Z f) (1 # 2)) as [He|Hl|Hg].
  - destruct (Z.even f); rewrite ?inject_Z_plus;
      change (inject_Z 1) with 1%Q; split; lra.
  - split; lra.
  - rewrite inject_Z_plus. change (inject_Z 1) with 1%Q. split; lra.
Qed.

Lemma pow2_pos e : (0 < 2 ^ e)%Q.
Proof. apply Qpower_0_lt. reflexivity. Qed.

Lemma pow2_plus a b : (2 ^ (a + b) == 2 ^ a * 2 ^ b)%Q.
Proof. apply Qpower_plus. discriminate. Qed.

Lemma pow2_log2 (n : positive) :
  (2 ^ Z.log2 (Zpos n) <= inject_Z (Zpos n))%Q /\
  (inject_Z (Zpos n) < 2 ^ (Z.log2 (Zpos n) + 1))%Q.
Proof.
  destruct (Z.log2_spec (Zpos n) ltac:(lia)) as [Hlo Hhi].
  pose proof (Z.log2_nonneg (Zpos n)) as Hnn.
  split.
  - rewrite <- (Zpower_Qpower 2) by done. by rewrite Zle_Qle in Hlo.
  - rewrite <- (Zpower_Qpower 2) by lia. rewrite Zlt_Qlt in Hhi.
    by rewrite <- Z.add_1_r in Hhi.
Qed.

(** [ilog2] is the floor of the binary logarithm. *)
Lemma ilog2_spec a :
  (0 < a)%Q -> (2 ^ ilog2 a <= a)%Q /\ (a < 2 ^ (ilog2 a + 1))%Q.
Proof.
  intros Ha. destruct a as [n d]. unfold ilog2. cbn [Qnum Qden].
  assert (Hn : 0 < n) by (unfold Qlt in Ha; cbn in Ha; lia).
  destruct n as [|n|n]; try lia.
  destruct (pow2_log2 n) as [Hn1 Hn2], (pow2_log2 d) as [Hd1 Hd2].
  set (ln := Z.log2 (Zpos n)) in *. set (ld := Z.log2 (Zpos d)) in *.
  assert (Hq : ((Zpos n # d) * inject_Z (Zpos d) == inject_Z (Zpos n))%Q).
  { rewrite (Qmake_Qdiv (Zpos n) d). field. discriminate. }
  assert (Hdpos : (0 < inject_Z (Zpos d))%Q) by reflexivity.
  set (a := (Zpos n # d)%Q) in *. set (qn := inject_Z (Zpos n)) in *.
  set (qd := inject_Z (Zpos d)) in *.
  assert (Hlow : (2 ^ (ln - ld - 1) < a)%Q).
  { pose proof (pow2_plus (ln - ld - 1) (ld + 1)) as Hp.
    replace (ln - ld - 1 + (ld + 1)) with ln in Hp by lia.
    pose proof (pow2_pos (ln - ld - 1)) as Hpos.
    set (P := (2 ^ (ln - ld - 1))%Q) in *. set (E := (2 ^ (ld + 1))%Q) in *.
    set (L := (2 ^ ln)%Q) in *. clearbody P E L a qn qd. nra. }
  assert (Hup : (a < 2 ^ (ln - ld + 1))%Q).
  { pose proof (pow2_plus (ln - ld + 1) ld) as Hp.
    replace (ln - ld + 1 + ld) with (ln + 1) in Hp by lia.
    pose proof (pow2_pos (ln - ld + 1)) as Hpos.
    set (P := (2 ^ (ln - ld + 1))%Q) in *. set (E := (2 ^ ld)%Q) in *.
    set (L := (2 ^ (ln + 1))%Q) in *. clearbody P E L a qn qd. nra. }
  destruct (Qle_bool (2 ^ (ln - ld)) a) eqn:Hle.
  - apply Qle_bool_iff in Hle. split; [done|]. done.
  - assert (Hlt : (a < 2 ^ (ln - ld))%Q).
    { apply Qnot_le_lt. intros Hc. apply Qle_bool_iff in Hc. congruence. }
    split; [by apply Qlt_le_weak|].
    by replace (ln - ld - 1 + 1) with (ln - ld) by lia.
Qed.

Lemma pow2_cancel e : (2 ^ e * 2 ^ (- e) == 1)%Q.
Proof. rewrite <- pow2_plus. by replace (e + - e) with 0 by lia. Qed.

(** Rounding at exponent [e] moves a number by half a unit at most. *)
Lemma round_at_error a e :
  (Qabs (inject_Z (py_round (a * 2 ^ (- e))) * 2 ^ e - a)
   <= 2 ^ e * (1 # 2))%Q.
Proof.
  pose proof (py_round_error (a * 2 ^ (- e))) as Hr.
  pose proof (pow2_pos e) as Hpos. pose proof (pow2_cancel e) as Hc.
  set (m := inject_Z (py_round (a * 2 ^ (- e)))) in *.
  assert (Heq : (m * 2 ^ e - a == 2 ^ e * (m - a * 2 ^ (- e)))%Q).
  { transitivity (m * 2 ^ e - a * (2 ^ e * 2 ^ (- e)))%Q; [|ring].
    rewrite Hc. ring. }
  rewrite Heq, Qabs_Qmult.
  rewrite (Qabs_pos (2 ^ e)) by (by apply Qlt_le_weak).
  apply Qmult_le_l; done.
Qed.

Lemma fl_abs q :
  ~ (q == 0)%Q ->
  let a := Qabs q in
  let e := Z.max (ilog2 a - 52) (-1074) in
  (Qabs (fl q - q)
   == Qabs (inject_Z (py_round (a * 2 ^ (- e))) * 2 ^ e - a))%Q.
Proof.
  intros Hq a e. unfold fl.
  destruct (Qeq_bool q 0) eqn:Hz; [by apply Qeq_bool_iff in Hz|].
  fold a e. set (v := (inject_Z (py_round (a * 2 ^ (- e))) * 2 ^ e)%Q).
  rewrite Qred_correct.
  destruct (Qle_bool 0 q) eqn:Hs.
  - apply Qle_bool_iff in Hs. unfold a. by rewrite (Qabs_pos q).
  - assert (Hneg : (q <= 0)%Q).
    { apply Qlt_le_weak, Qnot_le_lt. intros Hc.
      apply Qle_bool_iff in Hc. congruence. }
    unfold a. rewrite (Qabs_neg q) by done.
    rewrite <- (Qabs_opp (- v - q)).
    apply Qabs_wd. ring.
Qed.


Lemma fl_zero q : (q == 0)%Q -> fl q = 0%Q.
Proof. intros Hz. unfold fl. apply Qeq_bool_iff in Hz. by rewrite Hz. Qed.

(** In the normal range the error is relative. *)
Lemma fl_error_normal q :
  (q == 0)%Q \/ (2 ^ (-1022) <= Qabs q)%Q ->
  (Qabs (fl q - q) <= unit_roundoff * Qabs q)%Q.
Proof.
  intros [Hz|Hn].
  { rewrite (fl_zero q Hz), Hz. change (Qabs (0 - 0)) with 0%Q.
    change (Qabs 0) with 0%Q. unfold unit_roundoff. lra. }
  pose proof (pow2_pos (-1022)) as Hp.
  assert (Hnz : ~ (q == 0)%Q).
  { intros Hz. rewrite Hz in Hn. change (Qabs 0) with 0%Q in Hn. lra. }
  rewrite (fl_abs q Hnz).
  set (a := Qabs q) in *. set (e := Z.max (ilog2 a - 52) (-1074)).
  assert (Ha : (0 < a)%Q) by lra.
  destruct (ilog2_spec a Ha) as [Hlo Hhi].
  assert (Hlog : -1022 <= ilog2 a).
  { assert (Hlt : (2 ^ (-1022) < 2 ^ (ilog2 a + 1))%Q) by lra.
    apply Qpower_lt_compat_l_inv in Hlt; [lia|reflexivity]. }
  assert (He : e = ilog2 a + -52) by (unfold e; lia).
  eapply Qle_trans; [apply round_at_error|]. rewrite He, pow2_plus.
  assert ((2 ^ (-52) * (1 # 2) == unit_roundoff)%Q) as Hu by reflexivity.
  assert (Hs : (2 ^ ilog2 a * 2 ^ (-52) * (1 # 2)
                == 2 ^ ilog2 a * unit_roundoff)%Q).
  { rewrite <- Hu. ring. }
  rewrite Hs. set (p := (2 ^ ilog2 a)%Q) in *.
  unfold unit_roundoff. clearbody p a. lra.
Qed.

Lemma fl_error_int n :
  (Qabs (fl (inject_Z n) - inject_Z n)
   <= unit_roundoff * Qabs (inject_Z n))%Q.
Proof.
  apply fl_error_normal.
  destruct (Z.eq_dec n 0) as [->|Hn]; [by left|right].
  assert (Hone : (1 <= Qabs (inject_Z n))%Q).
  { apply Qabs_case; intros Hs.
    - change 0%Q with (inject_Z 0) in Hs. rewrite <- Zle_Qle in Hs.
      change 1%Q with (inject_Z 1). rewrite <- Zle_Qle. lia.
    - change 0%Q with (inject_Z 0) in Hs. rewrite <- Zle_Qle in Hs.
      rewrite <- inject_Z_opp. change 1%Q with (inject_Z 1).
      rewrite <- Zle_Qle. lia. }
  assert (Hsmall : (2 ^ (-1022) <= 1)%Q) by (vm_compute; discriminate).
  lra.
Qed.









End Rounding.

Ltac monad_unfold :=
  unfold mbind, M_bind, mret, M_ret, get, modify, raise, out_of_fuel in *.

(** ** The PDF/A finalizer *)

Section PdfaProofs.
Context `{PdfCollaborators}.

Lemma frame_refl written pdf : frame written pdf pdf.
Proof. split; [done|]. intros i d Hd. by exists d. Qed.

Lemma frame_trans written pdf1 pdf2 pdf3 :
  frame written pdf1 pdf2 -> frame written pdf2 pdf3 -> frame written pdf1 pdf3.
Proof.
  intros [Hc1 H1] [Hc2 H2]. split; [congruence|].
  intros i d Hd. destruct (H1 i d Hd) as (d' & Hd' & Hk).
  destruct (H2 i d' Hd') as (d'' & Hd'' & Hk').
  exists d''. split; [done|]. intros k Hw. rewrite Hk' by done. by apply Hk.
Qed.

Lemma frame_weaken w1 w2 pdf pdf' :
  w1 ⊆ w2 -> frame w1 pdf pdf' -> frame w2 pdf pdf'.
Proof.
  intros Hs [Hc Hf]. split; [done|]. intros i d Hd.
  destruct (Hf i d Hd) as (d' & Hd' & Hk). exists d'. split; [done|].
  intros k Hn. apply Hk. set_solver.
Qed.

Lemma frame_add_object written o pdf :
  frame written pdf (snd (add_object o pdf)).
Proof.
  split; [done|]. intros i d Hd. exists d. split; [|done].
  cbn. by apply lookup_app_l_Some.
Qed.

Lemma frame_set_object written i d d' pdf :
  objects pdf !! i = Some (Dictionary d) ->
  (forall k, k ∉ written -> d' !! k = d !! k) ->
  frame written pdf (snd (set_object i (Dictionary d') pdf)).
Proof.
  intros Hi Hk. split; [done|]. intros j d0 Hd0. cbn.
  destruct (decide (i = j)) as [->|Hne].
  - rewrite list_lookup_insert_eq by (by eapply lookup_lt_Some).
    eexists. split; [done|]. intros k Hn. rewrite Hk by done. congruence.
  - rewrite list_lookup_insert_ne by done. by exists d0.
Qed.

Lemma insert_outside (written : list string) key (v : value)
    (d : gmap string value) k :
  key ∈ written -> k ∉ written -> <[key := v]> d !! k = d !! k.
Proof. intros Hin Hout. apply lookup_insert_ne. set_solver. Qed.

Lemma get_catalog_inv pdf c pdf' :
  get_catalog pdf = (Return c, pdf') ->
  pdf' = pdf /\ objects pdf !! catalog pdf = Some (Dictionary c).
Proof.
  unfold get_catalog. monad_unfold.
  destruct (objects pdf !! catalog pdf) as [[]|]; intros [=]; subst; done.
Qed.

Lemma get_catalog_state pdf : snd (get_catalog pdf) = pdf.
Proof.
  unfold get_catalog. monad_unfold.
  by destruct (objects pdf !! catalog pdf) as [[]|].
Qed.

(** The annotation loop never fails, and marks the objects it visits. *)
Lemma print_annotations_spec numbers pdf :
  exists pdf', print_annotations numbers pdf = (Return tt, pdf') /\
    catalog pdf' = catalog pdf /\
    forall j, objects pdf' !! j =
      if bool_decide (j ∈ numbers) then mark_printable <$> (objects pdf !! j)
      else objects pdf !! j.
Proof.
  revert pdf. induction numbers as [|i rest IH]; intros pdf.
  - exists pdf. split; [reflexivity|]. split; [reflexivity|]. intros j.
    rewrite bool_decide_eq_false_2; [done | set_solver].
  - cbn [print_annotations]. monad_unfold.
    assert (Hskip : mark_printable <$> objects pdf !! i = objects pdf !! i ->
      exists pdf', print_annotations rest pdf = (Return tt, pdf') /\
        catalog pdf' = catalog pdf /\
        forall j, objects pdf' !! j =
          if bool_decide (j ∈ i :: rest)
          then mark_printable <$> (objects pdf !! j) else objects pdf !! j).
    { intros Hid. destruct (IH pdf) as (pdf' & Hrun & Hc & Hl).
      exists pdf'. split; [done|]. split; [done|]. intros j. rewrite Hl.
      destruct (decide (j = i)) as [->|Hne].
      - rewrite (bool_decide_eq_true_2 (i ∈ i :: rest)) by set_solver.
        case_bool_decide; [done | by rewrite Hid].
      - repeat case_bool_decide; set_solver. }
    destruct (objects pdf !! i) as [[d| | | |]|] eqn:Hi; try (by apply Hskip).
    destruct (is_str (d !! "Type"%string) "/Annot") eqn:Ht.
    2:{ apply Hskip. cbn. by rewrite Ht. }
    unfold set_object. monad_unfold.
    match goal with
    | |- context [print_annotations rest ?p] => set (pdf1 := p)
    end.
    destruct (IH pdf1) as (pdf' & Hrun & Hc & Hl).
    exists pdf'. split; [done|]. split; [done|]. intros j. rewrite Hl.
    subst pdf1. cbn [objects].
    change (2 ^ (3 - 1)) with 4.
    destruct (decide (j = i)) as [->|Hne].
    + rewrite (bool_decide_eq_true_2 (i ∈ i :: rest)) by set_solver.
      rewrite list_lookup_insert_eq by (by eapply lookup_lt_Some).
      rewrite Hi. cbn. rewrite Ht.
      case_bool_decide; [|done]. cbn.
      assert (Ht' : is_str (<["F"%string := VInt 4]> d !! "Type"%string)
                      "/Annot" = true).
      { by rewrite lookup_insert_ne. }
      by rewrite Ht', insert_insert_eq.
    + rewrite list_lookup_insert_ne by done.
      repeat case_bool_decide; set_solver.
Qed.

Lemma seq_lookup_lt {A} (l : list A) j :
  j ∈ seq 0 (length l) <-> (j < length l)%nat.
Proof. rewrite list_elem_of_In, in_seq. lia. Qed.

Lemma print_annotations_printable pdf pdf' :
  print_annotations (seq 0 (length (objects pdf))) pdf = (Return tt, pdf') ->
  annotations_printable pdf'.
Proof.
  intros Hrun. destruct (print_annotations_spec (seq 0 (length (objects pdf))) pdf)
    as (pdf2 & Hrun2 & _ & Hl).
  rewrite Hrun in Hrun2. injection Hrun2 as <-.
  intros j d Hj Ht. rewrite Hl in Hj.
  case_bool_decide as Hin.
  - destruct (objects pdf !! j) as [o|] eqn:Ho; [|done].
    cbn in Hj. injection Hj as Hj. destruct o as [d0| | | |]; try done.
    cbn in Hj. destruct (is_str (d0 !! "Type"%string) "/Annot") eqn:Ht0.
    + injection Hj as <-. by rewrite lookup_insert_eq.
    + injection Hj as <-. congruence.
  - apply lookup_lt_Some in Hj. apply seq_lookup_lt in Hj. done.
Qed.

Lemma print_annotations_frame numbers pdf :
  frame ["F"%string] pdf (snd (print_annotations numbers pdf)).
Proof.
  destruct (print_annotations_spec numbers pdf) as (pdf' & Hrun & Hc & Hl).
  rewrite Hrun. split; [done|]. intros i d Hd. cbn. rewrite Hl, Hd.
  case_bool_decide; [|by exists d]. cbn.
  destruct (is_str (d !! "Type"%string) "/Annot"); [|by exists d].
  eexists. split; [done|]. intros k Hk. rewrite lookup_insert_ne; set_solver.
Qed.

Lemma bind_inv {S A B} (m : M S A) (k : A -> M S B) s b s' :
  (m ≫= k) s = (Return b, s') ->
  exists a s1, m s = (Return a, s1) /\ k a s1 = (Return b, s').
Proof.
  monad_unfold. destruct (m s) as [[a| |] s1]; intros Hk; try done.
  by exists a, s1.
Qed.

Lemma relationships_of_snoc attachments a :
  relationships_of (attachments ++ [a]) =
  match md5 a with
  | Some h => if bool_decide (h = ""%string) then relationships_of attachments
              else <[h := relationship a]> (relationships_of attachments)
  | None => relationships_of attachments
  end.
Proof. unfold relationships_of. by rewrite foldl_app. Qed.

(** The dictionary built from the attachments maps a hash to the
    relationship of the last attachment that carries it. *)
Lemma relationships_of_lookup attachments h :
  relationships_of attachments !! h =
  if bool_decide (h = ""%string) then None
  else recorded_relationship attachments h.
Proof.
  induction attachments as [|a attachments IH] using rev_ind.
  - cbn. rewrite lookup_empty. by case_bool_decide.
  - rewrite relationships_of_snoc. unfold recorded_relationship in *.
    rewrite filter_app.
    destruct (md5 a) as [h'|] eqn:Hmd5.
    + destruct (decide (h' = h)) as [->|Hne].
      * rewrite (filter_cons_True _ a) by done. rewrite filter_nil.
        rewrite last_snoc. case_bool_decide; [by rewrite IH|].
        by rewrite lookup_insert_eq.
      * rewrite (filter_cons_False _ a) by congruence.
        rewrite filter_nil, app_nil_r.
        destruct (bool_decide (h' = ""%string)); [done|].
        by rewrite lookup_insert_ne.
    + rewrite (filter_cons_False _ a) by congruence.
      by rewrite filter_nil, app_nil_r.
Qed.

Lemma relationships_get_inv attachments checksum pdf r pdf' :
  relationships_get (relationships_of attachments) checksum pdf
    = (Return r, pdf') ->
  pdf' = pdf /\ "/" +:+ r = relationship_name attachments checksum.
Proof.
  destruct checksum; cbn; monad_unfold; intros [=]; subst; split; try done.
  rewrite relationships_of_lookup. by case_bool_decide.
Qed.

(** The attachment loop, when it returns: every object visited is tagged,
    and the reference of every file specification is in the list. *)
Lemma tag_filespecs_spec attachments numbers acc pdf out pdf' :
  NoDup numbers ->
  tag_filespecs (relationships_of attachments) numbers acc pdf
    = (Return out, pdf') ->
  catalog pdf' = catalog pdf /\
  (forall j, objects pdf' !! j =
     if bool_decide (j ∈ numbers)
     then tag_filespec attachments <$> (objects pdf !! j)
     else objects pdf !! j) /\
  (forall j d, j ∈ numbers -> objects pdf !! j = Some (Dictionary d) ->
     is_str (d !! "Type"%string) "/Filespec" = true ->
     is_Some (d !! "CheckSum"%string) /\ VRef j ∈ out) /\
  (forall v, v ∈ acc -> v ∈ out).
Proof.
  intros Hnd. revert acc pdf. induction numbers as [|i rest IH];
    intros acc pdf Hrun.
  - cbn in Hrun. monad_unfold. injection Hrun as <- <-.
    split; [done|]. split; [|split]; [|set_solver..].
    intros j. rewrite bool_decide_eq_false_2; [done | set_solver].
  - apply NoDup_cons in Hnd as [Hi Hnd].
    cbn [tag_filespecs] in Hrun. monad_unfold.
    assert (Hskip : tag_filespecs (relationships_of attachments) rest acc pdf
                    = (Return out, pdf') ->
      tag_filespec attachments <$> objects pdf !! i = objects pdf !! i ->
      (forall d, objects pdf !! i = Some (Dictionary d) ->
         is_str (d !! "Type"%string) "/Filespec" = false) ->
      catalog pdf' = catalog pdf /\
      (forall j, objects pdf' !! j =
         if bool_decide (j ∈ i :: rest)
         then tag_filespec attachments <$> (objects pdf !! j)
         else objects pdf !! j) /\
      (forall j d, j ∈ i :: rest -> objects pdf !! j = Some (Dictionary d) ->
         is_str (d !! "Type"%string) "/Filespec" = true ->
         is_Some (d !! "CheckSum"%string) /\ VRef j ∈ out) /\
      (forall v, v ∈ acc -> v ∈ out)).
    { intros Hrun' Hid Hno.
      destruct (IH Hnd _ _ Hrun') as (Hc & Hl & Hr & Hacc).
      split; [done|]. split; [|split; [|done]].
      - intros j. rewrite Hl. destruct (decide (j = i)) as [->|Hne].
        + rewrite (bool_decide_eq_true_2 (i ∈ i :: rest)) by set_solver.
          rewrite bool_decide_eq_false_2 by done. by rewrite Hid.
        + repeat case_bool_decide; set_solver.
      - intros j d [->|Hin]%elem_of_cons Hj Ht.
        + rewrite (Hno d Hj) in Ht. done.
        + by apply Hr. }
    destruct (objects pdf !! i) as [[d| | | |]|] eqn:Hoi;
      try (apply Hskip; done).
    destruct (is_str (d !! "Type"%string) "/Filespec") eqn:Ht.
    2:{ apply Hskip; [done| |].
        - cbn. by rewrite Ht.
        - intros d' [= <-]. done. }
    destruct (d !! "CheckSum"%string) as [checksum|] eqn:Hcs; [|done].
    destruct (relationships_get (relationships_of attachments) checksum pdf)
      as [[r| |] pdf0] eqn:Hget; try done.
    apply relationships_get_inv in Hget as [-> Hname].
    unfold set_object in Hrun. monad_unfold.
    match type of Hrun with
    | tag_filespecs _ _ _ ?p = _ => set (pdf1 := p) in *
    end.
    destruct (IH Hnd _ _ Hrun) as (Hc & Hl & Hr & Hacc).
    split; [done|]. split; [|split].
    + intros j. rewrite Hl. subst pdf1. cbn [objects].
      destruct (decide (j = i)) as [->|Hne].
      * rewrite (bool_decide_eq_true_2 (i ∈ i :: rest)) by set_solver.
        rewrite bool_decide_eq_false_2 by done.
        rewrite list_lookup_insert_eq by (by eapply lookup_lt_Some).
        rewrite Hoi. cbn. by rewrite Ht, Hcs, Hname.
      * rewrite list_lookup_insert_ne by done.
        repeat case_bool_decide; set_solver.
    + intros j d' [->|Hin]%elem_of_cons Hj Ht'.
      * rewrite Hoi in Hj. injection Hj as <-. split; [by rewrite Hcs|].
        apply Hacc. set_solver.
      * assert (j <> i) by set_solver.
        apply Hr; try done. subst pdf1. cbn [objects].
        by rewrite list_lookup_insert_ne.
    + intros v Hv. apply Hacc. set_solver.
Qed.

Lemma extend_AF_spec out pdf pdf' :
  extend_AF out pdf = (Return tt, pdf') ->
  frame ["AF"%string] pdf pdf' /\ (forall v, v ∈ out -> in_AF pdf' v).
Proof.
  destruct out as [|v0 out'].
  { cbn. monad_unfold. intros [= <-]. split; [apply frame_refl | set_solver]. }
  set (out := v0 :: out'). unfold extend_AF.
  intros (c & pdf1 & Hc & Hrun)%bind_inv.
  apply get_catalog_inv in Hc as [-> Hc].
  set (c' := match c !! "AF"%string with
             | Some _ => c | None => <["AF"%string := VArray []]> c end) in *.
  destruct (c' !! "AF"%string) as [[| | | |l| |]|] eqn:HAF; try done.
  assert (Hc' : forall k, k ∉ ["AF"%string] -> c' !! k = c !! k).
  { intros k Hk. subst c'. destruct (c !! "AF"%string); [done|].
    apply lookup_insert_ne. set_solver. }
  unfold set_catalog in Hrun. monad_unfold.
  injection Hrun as <-. split.
  - apply (frame_set_object _ _ c); [done|]. intros k Hk.
    rewrite lookup_insert_ne by set_solver. by apply Hc'.
  - intros v Hv. eexists _, (l ++ out). cbn. split; [|split].
    + apply list_lookup_insert_eq. by eapply lookup_lt_Some.
    + by rewrite lookup_insert_eq.
    + set_solver.
Qed.

Lemma py_contains_state key v pdf : snd (py_contains key v pdf) = pdf.
Proof. by destruct v. Qed.

Lemma py_getitem_state key v pdf : snd (py_getitem key v pdf) = pdf.
Proof. destruct v; try done. cbn. by destruct (d !! key). Qed.

Lemma reference_number_state v pdf : snd (reference_number v pdf) = pdf.
Proof. by destruct v. Qed.

Lemma object_at_state reference pdf : snd (object_at reference pdf) = pdf.
Proof.
  unfold object_at. monad_unfold.
  destruct (_ || _); [done|]. by destruct (objects pdf !! _).
Qed.

Lemma names_1_2_state names pdf : snd (names_1_2 names pdf) = pdf.
Proof. by destruct names. Qed.

(** A literal key is none of a literal list of keys. *)
Ltac key_outside :=
  rewrite ?not_elem_of_cons;
  repeat split; try discriminate; try apply not_elem_of_nil.

Ltac same_state H lem :=
  let E := fresh in
  pose proof lem as E; rewrite H in E; cbn in E; subst.

(** The attachment part of the finalizer, when it returns. *)
Lemma add_AF_spec attachments pdf pdf' :
  add_AF attachments pdf = (Return tt, pdf') ->
  frame ["AF"; "AFRelationship"]%string pdf pdf' /\
  forall i d, objects pdf !! i = Some (Dictionary d) ->
    is_str (d !! "Type"%string) "/Filespec" = true ->
    exists checksum d',
      d !! "CheckSum"%string = Some checksum /\
      objects pdf' !! i = Some (Dictionary d') /\
      d' !! "AFRelationship"%string
        = Some (VStr (relationship_name attachments checksum)) /\
      in_AF pdf' (VRef i).
Proof.
  unfold add_AF.
  intros (c & pdf1 & Hc & Hrun)%bind_inv.
  apply get_catalog_inv in Hc as [-> Hc].
  apply bind_inv in Hrun as (has_names & pdf1 & Hn & Hrun).
  assert (pdf1 = pdf) as ->.
  { destruct (c !! "Names"%string).
    - by same_state Hn (py_contains_state "EmbeddedFiles" v pdf).
    - monad_unfold. by injection Hn. }
  apply bind_inv in Hrun as (acc & pdf1 & Hacc & Hrun).
  assert (pdf1 = pdf) as ->.
  { destruct has_names; [|monad_unfold; by injection Hacc].
    apply bind_inv in Hacc as (names & p1 & H1 & Hacc).
    same_state H1 (py_getitem_state "Names" (VDict c) pdf).
    apply bind_inv in Hacc as (embedded & p1 & H1' & Hacc).
    same_state H1' (py_getitem_state "EmbeddedFiles" names pdf).
    apply bind_inv in Hacc as (reference & p1 & H2 & Hacc).
    same_state H2 (reference_number_state embedded pdf).
    apply bind_inv in Hacc as (names' & p1 & H3 & Hacc).
    same_state H3 (object_at_state reference pdf).
    by same_state Hacc (names_1_2_state names' pdf). }
  apply bind_inv in Hrun as (pdf0 & pdf1 & Hget & Hrun).
  monad_unfold. injection Hget as <- <-.
  apply bind_inv in Hrun as (out & pdf1 & Htag & Hext).
  apply tag_filespecs_spec in Htag as (Hcat & Hl & Hr & _);
    [|apply NoDup_seq].
  apply extend_AF_spec in Hext as [Hframe HAF].
  assert (Hf1 : frame ["AF"; "AFRelationship"]%string pdf pdf1).
  { split; [done|]. intros i d Hd. rewrite Hl, Hd.
    case_bool_decide; [|by exists d]. cbn.
    destruct (is_str (d !! "Type"%string) "/Filespec"); [|by exists d].
    destruct (d !! "CheckSum"%string); [|by exists d].
    eexists. split; [done|]. intros k Hk.
    apply lookup_insert_ne. set_solver. }
  split.
  - eapply frame_trans; [done|]. eapply frame_weaken; [|done]. set_solver.
  - intros i d Hd Ht.
    assert (Hin : i ∈ seq 0 (length (objects pdf))).
    { apply seq_lookup_lt. by eapply lookup_lt_Some. }
    destruct (Hr i d Hin Hd Ht) as [[checksum Hcs] Href].
    pose proof (Hl i) as Hi. rewrite bool_decide_eq_true_2, Hd in Hi by done.
    cbn in Hi. rewrite Ht, Hcs in Hi.
    destruct Hframe as [_ Hframe].
    destruct (Hframe _ _ Hi) as (d' & Hd' & Hk).
    exists checksum, d'. split; [done|]. split; [done|]. split.
    + rewrite Hk by key_outside.
      by rewrite lookup_insert_eq.
    + by apply HAF.
Qed.

Lemma add_metadata_frame metadata variant version conformance compress
    pdf pdf' :
  add_metadata metadata variant version conformance compress pdf
    = (Return tt, pdf') ->
  frame ["Metadata"%string] pdf pdf'.
Proof.
  unfold add_metadata.
  intros (number & pdf1 & Hadd & Hrun)%bind_inv.
  assert (Hf : frame ["Metadata"%string] pdf pdf1).
  { pose proof (frame_add_object ["Metadata"%string]
      (Stream [xmp_packet metadata variant version conformance]
         (<["Type"%string := VStr "/Metadata"]>
            (<["Subtype"%string := VStr "/XML"]> ∅)) compress) pdf) as Hf.
    by rewrite Hadd in Hf. }
  apply bind_inv in Hrun as (c & pdf2 & Hc & Hrun).
  apply get_catalog_inv in Hc as [-> Hc].
  eapply frame_trans; [done|].
  unfold set_catalog in Hrun. monad_unfold. injection Hrun as <-.
  apply (frame_set_object _ _ c); [done|]. intros k Hk.
  apply lookup_insert_ne. set_solver.
Qed.

(** The four stages of the finalizer, when it returns. *)
Lemma pdfa_stages metadata attachments compress version pdf pdf' :
  pdfa metadata attachments compress version pdf = (Return tt, pdf') ->
  exists pdf1 pdf2 pdf3,
    frame ["OutputIntents"%string] pdf pdf1 /\
    (if 2 <=? version then add_AF attachments else mret tt) pdf1
      = (Return tt, pdf2) /\
    print_annotations (seq 0 (length (objects pdf2))) pdf2
      = (Return tt, pdf3) /\
    frame ["Metadata"%string] pdf3 pdf'.
Proof.
  unfold pdfa.
  intros (profile & pdf0 & Hadd & Hrun)%bind_inv.
  assert (Hf : frame ["OutputIntents"%string] pdf pdf0).
  { pose proof (frame_add_object ["OutputIntents"%string]
      (Stream [sRGB2014_icc]
         (<["N"%string := VInt 3]>
            (<["Alternate"%string := VStr "/DeviceRGB"]> ∅)) compress) pdf)
      as Hf.
    by rewrite Hadd in Hf. }
  apply bind_inv in Hrun as (c & pdf1 & Hc & Hrun).
  apply get_catalog_inv in Hc as [-> Hc].
  apply bind_inv in Hrun as ([] & pdf1 & Hset & Hrun).
  apply bind_inv in Hrun as ([] & pdf2 & HAF & Hrun).
  apply bind_inv in Hrun as (pdf2' & pdf2'' & Hget & Hrun).
  monad_unfold. injection Hget as <- <-.
  apply bind_inv in Hrun as ([] & pdf3 & Hprint & Hmeta).
  exists pdf1, pdf2, pdf3. split; [|split; [done|split; [done|]]].
  - eapply frame_trans; [done|].
    unfold set_catalog in Hset. monad_unfold. injection Hset as <-.
    apply (frame_set_object _ _ c); [done|]. intros k Hk.
    apply lookup_insert_ne. set_solver.
  - by eapply add_metadata_frame.
Qed.

Lemma lookup_snoc_Dictionary (l : list pdf_object) o i d :
  (forall d', o <> Dictionary d') ->
  (l ++ [o]) !! i = Some (Dictionary d) -> l !! i = Some (Dictionary d).
Proof.
  intros Ho Hl. apply lookup_app_Some in Hl as [Hl|[Hlen Hl]]; [done|].
  apply list_lookup_singleton_Some in Hl as [_ ->]. by destruct (Ho d).
Qed.

Lemma add_metadata_printable metadata variant version conformance compress
    pdf pdf' :
  add_metadata metadata variant version conformance compress pdf
    = (Return tt, pdf') ->
  annotations_printable pdf -> annotations_printable pdf'.
Proof.
  unfold add_metadata.
  intros (number & pdf1 & Hadd & Hrun)%bind_inv Hp.
  unfold add_object in Hadd. monad_unfold. injection Hadd as <- <-.
  apply bind_inv in Hrun as (c & pdf2 & Hc & Hrun).
  apply get_catalog_inv in Hc as [-> Hc]. cbn in Hc.
  apply lookup_snoc_Dictionary in Hc; [|done].
  unfold set_catalog, set_object in Hrun. monad_unfold. injection Hrun as <-.
  intros i d. cbn. intros Hi Ht.
  destruct (decide (i = catalog pdf)) as [->|Hne].
  - rewrite list_lookup_insert_eq in Hi.
    2:{ rewrite length_app. apply lookup_lt_Some in Hc. lia. }
    injection Hi as <-. rewrite lookup_insert_ne in Ht |- * by done.
    by eapply Hp.
  - rewrite list_lookup_insert_ne in Hi by done.
    apply lookup_snoc_Dictionary in Hi; [|done]. by eapply Hp.
Qed.

(** C9.  When the PDF/A finalizer has run, at whatever version, every
    object of the document that is a dictionary of type [/Annot] has its
    flags entry [F] equal to 4; and the annotations the document had before
    are annotations still, with that flag. *)
Theorem pdfa_annotations_printable metadata attachments compress version
    pdf pdf' :
  pdfa metadata attachments compress version pdf = (Return tt, pdf') ->
  annotations_printable pdf' /\
  forall i d, objects pdf !! i = Some (Dictionary d) ->
    is_str (d !! "Type"%string) "/Annot" = true ->
    exists d', objects pdf' !! i = Some (Dictionary d') /\
      is_str (d' !! "Type"%string) "/Annot" = true /\
      d' !! "F"%string = Some (VInt 4).
Proof.
  intros Hrun.
  destruct (pdfa_stages _ _ _ _ _ _ Hrun)
    as (pdf1 & pdf2 & pdf3 & Hf1 & HAF & Hprint & Hf3).
  assert (Hp : annotations_printable pdf').
  { unfold pdfa in Hrun.
    apply bind_inv in Hrun as (? & ? & _ & Hrun).
    apply bind_inv in Hrun as (? & ? & _ & Hrun).
    apply bind_inv in Hrun as (? & ? & _ & Hrun).
    apply bind_inv in Hrun as (? & ? & _ & Hrun).
    apply bind_inv in Hrun as (? & ? & Hget & Hrun).
    monad_unfold. injection Hget as <- <-.
    apply bind_inv in Hrun as ([] & ? & Hprint' & Hmeta).
    eapply add_metadata_printable; [done|].
    by eapply print_annotations_printable. }
  split; [done|]. intros i d Hd Ht.
  assert (Hf2 : frame ["AF"; "AFRelationship"]%string pdf1 pdf2).
  { destruct (2 <=? version).
    - by apply add_AF_spec in HAF as [? _].
    - monad_unfold. injection HAF as <-. apply frame_refl. }
  assert (Hf : frame ["OutputIntents"; "AF"; "AFRelationship"; "F"; "Metadata"]%string
                 pdf pdf').
  { eapply frame_trans; [eapply frame_weaken; [|exact Hf1]; set_solver|].
    eapply frame_trans; [eapply frame_weaken; [|exact Hf2]; set_solver|].
    eapply frame_trans; [|eapply frame_weaken; [|exact Hf3]; set_solver].
    pose proof (print_annotations_frame
                  (seq 0 (length (objects pdf2))) pdf2) as Hf.
    rewrite Hprint in Hf. eapply frame_weaken; [|exact Hf]. set_solver. }
  destruct Hf as [_ Hf]. destruct (Hf i d Hd) as (d' & Hd' & Hk).
  assert (Ht' : is_str (d' !! "Type"%string) "/Annot" = true).
  { rewrite Hk; [done|]. key_outside. }
  exists d'. split; [done|]. split; [done|]. by eapply Hp.
Qed.

(** C10.  When the PDF/A finalizer has run at a version of 2 or more,
    every file specification of the document carries an [AFRelationship]:
    the relationship recorded for the attachment whose hash is the object's
    [CheckSum] (the last such attachment), or [/Unspecified] when no
    attachment has that hash; and its reference is in the catalog's [AF]
    array. *)
Theorem pdfa_tags_filespecs metadata attachments compress version pdf pdf' :
  2 <= version ->
  pdfa metadata attachments compress version pdf = (Return tt, pdf') ->
  forall i d, objects pdf !! i = Some (Dictionary d) ->
    is_str (d !! "Type"%string) "/Filespec" = true ->
    exists checksum d',
      d !! "CheckSum"%string = Some checksum /\
      objects pdf' !! i = Some (Dictionary d') /\
      is_str (d' !! "Type"%string) "/Filespec" = true /\
      d' !! "AFRelationship"%string
        = Some (VStr (relationship_name attachments checksum)) /\
      in_AF pdf' (VRef i).
Proof.
  intros Hv Hrun i d Hd Ht.
  destruct (pdfa_stages _ _ _ _ _ _ Hrun)
    as (pdf1 & pdf2 & pdf3 & Hf1 & HAF & Hprint & Hf3).
  rewrite (proj2 (Z.leb_le 2 version) Hv) in HAF.
  apply add_AF_spec in HAF as [[_ Hf2] HAF].
  assert (Hnot : forall k, k = "Type"%string \/ k = "CheckSum"%string \/
                   k = "AFRelationship"%string \/ k = "AF"%string ->
                 k ∉ ["OutputIntents"; "F"; "Metadata"]%string).
  { intros k Hk. rewrite !not_elem_of_cons.
    repeat split; try apply not_elem_of_nil;
      intros ->; repeat destruct Hk as [Hk|Hk]; discriminate. }
  destruct Hf1 as [Hc1 Hf1]. destruct (Hf1 i d Hd) as (d1 & Hd1 & Hk1).
  assert (Ht1 : is_str (d1 !! "Type"%string) "/Filespec" = true).
  { rewrite Hk1; [done|]. key_outside. }
  destruct (HAF i d1 Hd1 Ht1) as (checksum & d2 & Hcs & Hd2 & Hrel & HinAF).
  assert (Hf : frame ["OutputIntents"; "F"; "Metadata"]%string pdf2 pdf').
  { eapply frame_trans; [|eapply frame_weaken; [|exact Hf3]; set_solver].
    pose proof (print_annotations_frame
                  (seq 0 (length (objects pdf2))) pdf2) as Hf.
    rewrite Hprint in Hf. eapply frame_weaken; [|exact Hf]. set_solver. }
  destruct Hf as [Hc Hf]. destruct (Hf i d2 Hd2) as (d' & Hd' & Hk).
  exists checksum, d'. split; [|split; [done|split; [|split]]].
  - rewrite <- Hk1; [done|]. key_outside.
  - rewrite Hk by (apply Hnot; auto).
    destruct (Hf2 i d1 Hd1) as (d2' & Hd2' & Hk2).
    rewrite Hd2 in Hd2'. injection Hd2' as <-.
    rewrite Hk2; [done|]. key_outside.
  - rewrite Hk by (apply Hnot; auto). done.
  - destruct HinAF as (c & l & Hcat & HAFl & Hin).
    destruct (Hf _ _ Hcat) as (c' & Hc' & Hkc).
    exists c', l. rewrite Hc. split; [done|]. split; [|done].
    rewrite Hkc by (apply Hnot; auto). done.
Qed.

End PdfaProofs.

Lemma pdfa_annotations_printable_witness :
  annotations_printable sample_pdf_final /\
  forall i d, objects sample_pdf !! i = Some (Dictionary d) ->
    is_str (d !! "Type"%string) "/Annot" = true ->
    exists d', objects sample_pdf_final !! i = Some (Dictionary d') /\
      is_str (d' !! "Type"%string) "/Annot" = true /\
      d' !! "F"%string = Some (VInt 4).
Proof.
  apply (pdfa_annotations_printable (H := sample_pdf_collaborators)
           [60; 62] sample_attachments false 3 sample_pdf sample_pdf_final).
  vm_compute. reflexivity.
Defined.

Lemma pdfa_tags_filespecs_witness :
  exists d',
    objects sample_pdf_final !! 5%nat = Some (Dictionary d') /\
    d' !! "AFRelationship"%string = Some (VStr "/Source") /\
    in_AF sample_pdf_final (VRef 5).
Proof.
  destruct (pdfa_tags_filespecs (H := sample_pdf_collaborators)
              [60; 62] sample_attachments false 3 sample_pdf sample_pdf_final
              ltac:(lia) ltac:(vm_compute; reflexivity) 5%nat _
              eq_refl eq_refl)
    as (checksum & d' & Hcs & Hd' & _ & Hrel & HAF).
  exists d'. split; [done|]. split; [|done].
  vm_compute in Hcs. injection Hcs as <-. exact Hrel.
Defined.

(** ** The text drawer *)

Section DrawProofs.
Context `{Collaborators}.

(** *** Nothing to draw *)



End DrawProofs.

(** *** Relations kept along a draw *)

Section Keeps.
Context `{Collaborators}.
Variable R : World -> World -> Prop.
Hypothesis R_refl : forall w, R w w.
Hypothesis R_trans : forall w1 w2 w3, R w1 w2 -> R w2 w3 -> R w1 w3.

Lemma keeps_ret {A} (a : A) : keeps R (mret a).
Proof using R_refl. intros w. apply R_refl. Qed.

Lemma keeps_raise {A} e : keeps R (raise (A := A) e).
Proof using R_refl. intros w. apply R_refl. Qed.

Lemma keeps_out_of_fuel {A} : keeps R (out_of_fuel (A := A)).
Proof using R_refl. intros w. apply R_refl. Qed.

Lemma keeps_get : keeps R get.
Proof using R_refl. intros w. apply R_refl. Qed.

Lemma keeps_bind {A B} (m : M World A) (k : A -> M World B) :
  keeps R m -> (forall a, keeps R (k a)) -> keeps R (m ≫= k).
Proof using R_trans.
  intros Hm Hk w. monad_unfold. pose proof (Hm w) as Hw.
  destruct (m w) as [[a| |] w1]; cbn in *; try done.
  eapply R_trans; [done | apply Hk].
Qed.

Lemma keeps_py_div a b : keeps R (py_div a b).
Proof using R_refl.
  unfold py_div. destruct (Qeq_bool b 0); intros w; apply R_refl.
Qed.

Lemma keeps_the_font pango_font : keeps R (the_font pango_font).
Proof using R_refl.
  intros w. unfold the_font. monad_unfold.
  destruct (fonts w !! pango_font); apply R_refl.
Qed.

Lemma keeps_declared_width pango_font g :
  keeps R (declared_width pango_font g).
Proof using R_refl.
  intros w. unfold declared_width, the_font. monad_unfold.
  destruct (fonts w !! pango_font) as [f|]; [|apply R_refl].
  destruct (font_widths f !! g); apply R_refl.
Qed.

Lemma keeps_close_string s : keeps R (close_string s).
Proof using R_refl.
  intros w. unfold close_string. destruct (last s) as [[]|]; apply R_refl.
Qed.

(** What is asked of [R]: it holds across a call that is not a rise,
    across the placing of a glyph, across a change of the layout, and
    across the registry and cache operations. *)
Hypothesis keeps_emit :
  forall o, (forall r, o <> set_text_rise r) -> keeps R (emit o).
Hypothesis keeps_place_glyph :
  forall font g offset rise s, keeps R (place_glyph font g offset rise s).
Hypothesis keeps_set_layout : forall l, keeps R (set_layout l).
Hypothesis keeps_add_font : forall pango_font, keeps R (add_font pango_font).
Hypothesis keeps_cache_width :
  forall size pango_font g, keeps R (cache_width size pango_font g).
Hypothesis keeps_cache_cmap :
  forall utf8_text pango_font g previous position,
    keeps R (cache_cmap utf8_text pango_font g previous position).

Ltac keeps_step :=
  first
    [ apply keeps_ret | apply keeps_raise | apply keeps_out_of_fuel
    | apply keeps_get | apply keeps_py_div | apply keeps_the_font
    | apply keeps_declared_width | apply keeps_close_string
    | apply keeps_emit; discriminate
    | apply keeps_place_glyph | apply keeps_set_layout
    | apply keeps_add_font | apply keeps_cache_width
    | apply keeps_cache_cmap
    | match goal with
      | |- keeps R (mbind _ _) => apply keeps_bind; [|intros ?]
      end
    | match goal with
      | |- keeps R (match ?x with _ => _ end) => destruct x
      end ].

Ltac keeps_auto := repeat keeps_step.

Lemma keeps_set_text t : keeps R (set_text t).
Proof using All. unfold set_text. keeps_auto. Qed.

Lemma keeps_emoji_of size pango_font g declared font x :
  keeps R (emoji_of size pango_font g declared font x).
Proof using R_refl R_trans. unfold emoji_of. keeps_auto. Qed.

Lemma keeps_encode_glyph size utf8_text pango_font positions i gi l :
  keeps R (encode_glyph size utf8_text pango_font positions i gi l).
Proof using All. unfold encode_glyph. keeps_auto. apply keeps_emoji_of. Qed.

Lemma keeps_encode_glyphs size utf8_text pango_font positions gs :
  forall i l,
  keeps R (encode_glyphs size utf8_text pango_font positions i gs l).
Proof using All.
  induction gs as [|gi gs IH]; intros i l; cbn [encode_glyphs].
  - apply keeps_ret.
  - apply keeps_bind; [apply keeps_encode_glyph|]. intros l'. apply IH.
Qed.

Lemma keeps_encode_run size utf8_text run l :
  keeps R (encode_run size utf8_text run l).
Proof using All.
  unfold encode_run. keeps_auto; apply keeps_encode_glyphs.
Qed.

Lemma keeps_encode_runs size utf8_text runs :
  forall l, keeps R (encode_runs size utf8_text runs l).
Proof using All.
  induction runs as [|run runs IH]; intros l; cbn [encode_runs].
  - apply keeps_ret.
  - apply keeps_bind; [apply keeps_encode_run|]. intros l'. apply IH.
Qed.

Lemma keeps_truncation_loop fuel ellipsis lang :
  forall line, keeps R (truncation_loop fuel ellipsis lang line).
Proof using All.
  induction fuel as [|fuel IH]; intros line; cbn [truncation_loop];
    keeps_auto; first [apply keeps_set_text | apply IH].
Qed.

Lemma keeps_prepare_layout textbox text_overflow block_ellipsis :
  keeps R (prepare_layout textbox text_overflow block_ellipsis).
Proof using All. unfold prepare_layout. keeps_auto; apply keeps_set_text. Qed.

Lemma keeps_draw_first_line fuel textbox text_overflow block_ellipsis matrix :
  keeps R (draw_first_line fuel textbox text_overflow block_ellipsis matrix).
Proof using All.
  unfold draw_first_line. keeps_auto;
    first [ apply keeps_prepare_layout
          | apply keeps_truncation_loop
          | apply keeps_encode_runs ].
Qed.

Lemma keeps_draw_emojis size x y emojis :
  keeps R (draw_emojis size x y emojis).
Proof using All.
  induction emojis as [|em rest IH]; cbn [draw_emojis]; keeps_auto.
  apply IH.
Qed.

Lemma keeps_draw_text fuel textbox offset_x text_overflow block_ellipsis :
  keeps R (draw_text fuel textbox offset_x text_overflow block_ellipsis).
Proof using All.
  unfold draw_text, draw_text_decoration. keeps_auto;
    first [ apply keeps_draw_first_line | apply keeps_draw_emojis ].
Qed.

End Keeps.

Section Caches.
Context `{Collaborators}.

(** *** The font caches only grow *)

Lemma font_stable_refl f : font_stable f f.
Proof. by repeat split. Qed.

Lemma font_stable_trans f1 f2 f3 :
  font_stable f1 f2 -> font_stable f2 f3 -> font_stable f1 f3.
Proof.
  intros (?&?&?&?&?&Hw1&Hc1) (?&?&?&?&?&Hw2&Hc2).
  repeat split; try congruence; eauto.
Qed.

Lemma caches_preserved_refl w : caches_preserved w w.
Proof. intros k f Hk. exists f. split; [done | apply font_stable_refl]. Qed.

Lemma caches_preserved_trans w1 w2 w3 :
  caches_preserved w1 w2 -> caches_preserved w2 w3 -> caches_preserved w1 w3.
Proof.
  intros H12 H23 k f Hk. destruct (H12 k f Hk) as (f2 & Hk2 & Hs2).
  destruct (H23 k f2 Hk2) as (f3 & Hk3 & Hs3).
  exists f3. split; [done | by eapply font_stable_trans].
Qed.

Lemma caches_preserved_fonts w w' :
  fonts w' = fonts w -> caches_preserved w w'.
Proof.
  intros Hf k f Hk. exists f. rewrite Hf. split; [done|apply font_stable_refl].
Qed.

Lemma preserving_add_font pango_font :
  keeps caches_preserved (add_font pango_font).
Proof.
  intros w. unfold add_font. monad_unfold.
  destruct (fonts w !! pango_font) eqn:Hf; [apply caches_preserved_refl|].
  intros k f Hk. exists f. cbn. split; [|apply font_stable_refl].
  rewrite lookup_insert_ne; [done|]. congruence.
Qed.

(** The width of a glyph is written only where there was none. *)
Lemma preserving_cache_width size pango_font g :
  keeps caches_preserved (cache_width size pango_font g).
Proof.
  intros w. unfold cache_width, the_font, store_width, set_fonts.
  monad_unfold.
  destruct (fonts w !! pango_font) as [f|] eqn:Hf;
    [|apply caches_preserved_refl].
  destruct (font_widths f !! g) eqn:Hg; [apply caches_preserved_refl|].
  intros k f0 Hk. cbn. destruct (decide (k = pango_font)) as [->|Hne].
  - rewrite lookup_alter_eq, Hk. eexists. split; [done|].
    rewrite Hf in Hk. injection Hk as <-.
    repeat split; try done. intros g' v Hg'. cbn.
    rewrite lookup_insert_ne; [done|]. congruence.
  - rewrite lookup_alter_ne by done. exists f0.
    split; [done|apply font_stable_refl].
Qed.

(** The text of a glyph is written only where there was none. *)
Lemma preserving_cache_cmap utf8_text pango_font g previous position :
  keeps caches_preserved (cache_cmap utf8_text pango_font g previous position).
Proof.
  intros w. unfold cache_cmap, the_font, store_cmap, set_fonts.
  monad_unfold.
  destruct (fonts w !! pango_font) as [f|] eqn:Hf;
    [|apply caches_preserved_refl].
  destruct (font_cmap f !! g) eqn:Hg; [apply caches_preserved_refl|].
  destruct (decode _); [|apply caches_preserved_refl].
  intros k f0 Hk. cbn. destruct (decide (k = pango_font)) as [->|Hne].
  - rewrite lookup_alter_eq, Hk. eexists. split; [done|].
    rewrite Hf in Hk. injection Hk as <-.
    repeat split; try done. intros g' v Hg'. cbn.
    rewrite lookup_insert_ne; [done|]. congruence.
  - rewrite lookup_alter_ne by done. exists f0.
    split; [done|apply font_stable_refl].
Qed.

Lemma preserving_place_glyph font g offset rise s :
  keeps caches_preserved (place_glyph font g offset rise s).
Proof.
  intros w. apply caches_preserved_fonts. unfold place_glyph, close_string.
  destruct (truthy rise); [|done]. monad_unfold.
  by destruct (last s) as [[]|].
Qed.

Lemma preserving_draw_text fuel textbox offset_x text_overflow
    block_ellipsis :
  keeps caches_preserved
        (draw_text fuel textbox offset_x text_overflow block_ellipsis).
Proof.
  apply keeps_draw_text;
    first [ apply caches_preserved_refl | apply caches_preserved_trans
          | apply preserving_add_font | apply preserving_cache_width
          | apply preserving_cache_cmap | apply preserving_place_glyph
          | (intros; intros w; by apply caches_preserved_fonts) ].
Qed.

Lemma preserving_encode_glyphs size utf8_text pango_font positions gs i l :
  keeps caches_preserved
        (encode_glyphs size utf8_text pango_font positions i gs l).
Proof.
  apply keeps_encode_glyphs;
    first [ apply caches_preserved_refl | apply caches_preserved_trans
          | apply preserving_add_font | apply preserving_cache_width
          | apply preserving_cache_cmap | apply preserving_place_glyph
          | (intros; intros w; by apply caches_preserved_fonts) ].
Qed.

Lemma draw_all_snoc calls c w :
  draw_all (calls ++ [c]) w =
  snd (draw_text (call_fuel c) (call_textbox c) (call_offset_x c)
                 (call_text_overflow c) (call_block_ellipsis c)
                 {| stream := stream (draw_all calls w);
                    fonts := fonts (draw_all calls w);
                    pango_layout := call_layout c |}).
Proof. unfold draw_all. by rewrite foldl_app. Qed.

Lemma preserving_draw_all calls w : caches_preserved w (draw_all calls w).
Proof.
  induction calls as [|c calls IH] using rev_ind.
  - apply caches_preserved_refl.
  - rewrite draw_all_snoc.
    eapply caches_preserved_trans; [exact IH|].
    eapply caches_preserved_trans; [|apply preserving_draw_text].
    by apply caches_preserved_fonts.
Qed.

(** C1.  In a font object, the width and the text of a glyph are written
    at most once.  Where an entry exists, the step of the glyph loop that
    fills the cache writes nothing and the width read is the entry; every
    step of the glyph loop, and every series of draws on the stream, leave
    each font with every entry it had, unchanged. *)
Theorem font_caches_written_once (w : World) (k : Z) (f : Font) :
  fonts w !! k = Some f ->
  (forall g v, font_widths f !! g = Some v ->
     (forall size, cache_width size k g w = (Return tt, w)) /\
     declared_width k g w = (Return v, w)) /\
  (forall g t, font_cmap f !! g = Some t ->
     forall utf8_text previous position,
       cache_cmap utf8_text k g previous position w = (Return tt, w)) /\
  (forall size utf8_text pango_font positions i gi l,
     exists f',
       fonts (snd (encode_glyph size utf8_text pango_font positions i gi l w))
         !! k = Some f' /\
       (forall g v, font_widths f !! g = Some v ->
                    font_widths f' !! g = Some v) /\
       (forall g t, font_cmap f !! g = Some t ->
                    font_cmap f' !! g = Some t)) /\
  (forall calls,
     exists f',
       fonts (draw_all calls w) !! k = Some f' /\
       (forall g v, font_widths f !! g = Some v ->
                    font_widths f' !! g = Some v) /\
       (forall g t, font_cmap f !! g = Some t ->
                    font_cmap f' !! g = Some t)).
Proof.
  intros Hk. split; [|split; [|split]].
  - intros g v Hg. split.
    + intros size. unfold cache_width, the_font. monad_unfold.
      by rewrite Hk, Hg.
    + unfold declared_width, the_font. monad_unfold. by rewrite Hk, Hg.
  - intros g t Hg utf8_text previous position.
    unfold cache_cmap, the_font. monad_unfold. by rewrite Hk, Hg.
  - intros size utf8_text pango_font positions i gi l.
    destruct (preserving_encode_glyphs size utf8_text pango_font positions
                [gi] i l w k f Hk) as (f' & Hf' & Hs).
    exists f'. cbn [encode_glyphs] in Hf'.
    assert (Hsnd : forall (m : M World Locals),
              snd ((m ≫= fun l' => mret l') w) = snd (m w)).
    { intros m. monad_unfold. by destruct (m w) as [[]?]. }
    rewrite Hsnd in Hf'. split; [done|].
    destruct Hs as (_&_&_&_&_&Hw&Hc). by split.
  - intros calls.
    destruct (preserving_draw_all calls w k f Hk) as (f' & Hf' & Hs).
    exists f'. split; [done|].
    destruct Hs as (_&_&_&_&_&Hw&Hc). by split.
Qed.

End Caches.

(** *** One glyph *)

Section Glyphs.
Context `{Collaborators}.

Lemma Qred_eq (q : Q) : (Qred q == q)%Q.
Proof. apply Qred_correct. Qed.

Lemma fdiv_eq a b : (fdiv a b == a / b)%Q.
Proof. apply Qred_correct. Qed.

Lemma fmul_eq a b : (fmul a b == a * b)%Q.
Proof. apply Qred_correct. Qed.

Lemma fadd_eq a b : (fadd a b == a + b)%Q.
Proof. apply Qred_correct. Qed.

Lemma fsub_eq a b : (fsub a b == a - b)%Q.
Proof. apply Qred_correct. Qed.

Lemma fneg_eq a : (fneg a == - a)%Q.
Proof. apply Qred_correct. Qed.

Lemma no_visible_glyph_true g :
  g = PANGO_GLYPH_EMPTY \/ Z.land g PANGO_GLYPH_UNKNOWN_FLAG <> 0 ->
  no_visible_glyph g = true.
Proof.
  unfold no_visible_glyph. intros [->|Hflag]; [done|].
  apply orb_true_iff. right. apply negb_true_iff. by apply Z.eqb_neq.
Qed.

(** C5, as the code has it.  For a glyph that is the empty glyph or
    carries the unknown-glyph flag, the step of the glyph loop closes the
    glyph list, appends one number and opens a list again; the number is
    the negative of the glyph's advance width divided by the font size.
    No glyph code is appended, and the step is the same in every world and
    leaves it as it is: the caches of the font are neither read nor
    written, and nothing is sent to the stream. *)
Theorem no_visible_glyph_reserves_space size utf8_text pango_font positions
    i gi l :
  glyph_id gi = PANGO_GLYPH_EMPTY \/
  Z.land (glyph_id gi) PANGO_GLYPH_UNKNOWN_FLAG <> 0 ->
  exists x,
    (x == - (of_int (geometry_width gi) / size))%Q /\
    forall w,
      encode_glyph size utf8_text pango_font positions i gi l w =
        (Return (with_string l (cur_string l ++ [TClose; TFloat x; TOpen])),
         w).
Proof.
  intros Hg. apply no_visible_glyph_true in Hg.
  exists (fdiv (of_int (- geometry_width gi)) size). split.
  - rewrite fdiv_eq. unfold of_int. rewrite inject_Z_opp.
    unfold Qdiv. ring.
  - intros w. unfold encode_glyph. by rewrite Hg.
Qed.

Lemma the_font_inv pango_font w f w' :
  the_font pango_font w = (Return f, w') ->
  w' = w /\ fonts w !! pango_font = Some f.
Proof.
  unfold the_font. monad_unfold.
  destruct (fonts w !! pango_font); intros [=]; by subst.
Qed.

Lemma declared_width_inv pango_font g w v w' :
  declared_width pango_font g w = (Return v, w') ->
  w' = w /\ exists f, fonts w !! pango_font = Some f /\
                      font_widths f !! g = Some v.
Proof.
  unfold declared_width, the_font. monad_unfold.
  destruct (fonts w !! pango_font) as [f|]; [|done].
  destruct (font_widths f !! g) eqn:Hg; intros [=]; subst. eauto.
Qed.

Lemma close_string_state s w : snd (close_string s w) = w.
Proof. unfold close_string. by destruct (last s) as [[]|]. Qed.

Lemma place_glyph_fonts font g offset rise s w :
  fonts (snd (place_glyph font g offset rise s w)) = fonts w /\
  pango_layout (snd (place_glyph font g offset rise s w)) = pango_layout w.
Proof.
  unfold place_glyph, close_string. destruct (truthy rise); [|done].
  monad_unfold. by destruct (last s) as [[]|].
Qed.

Lemma emoji_of_state size pango_font g declared font x w :
  snd (emoji_of size pango_font g declared font x w) = w.
Proof.
  unfold emoji_of, py_div. monad_unfold.
  repeat (match goal with
          | |- context [if ?b then _ else _] => destruct b
          | |- context [match ?o with Some _ => _ | None => _ end] =>
              destruct o as [[]|]
          end; try done).
Qed.

(** A picture that does not parse or decode, and a font without one. *)
Lemma emoji_of_malformed size pango_font g declared font x w :
  (font_svg font = true ->
   hb_svg_data pango_font g <> [] ->
   svg_parses (hb_svg_data pango_font g) = false ->
   emoji_of size pango_font g declared font x w = (Raise ParseError, w)) /\
  (font_svg font = false -> font_png font = true ->
   hb_png_data pango_font g <> [] ->
   image_open (hb_png_data pango_font g) = None ->
   emoji_of size pango_font g declared font x w
     = (Raise UnidentifiedImageError, w)) /\
  ((font_svg font = true /\ hb_svg_data pango_font g = []) \/
   (font_svg font = false /\ font_png font = true /\
    hb_png_data pango_font g = []) \/
   (font_svg font = false /\ font_png font = false) ->
   emoji_of size pango_font g declared font x w = (Return [], w)).
Proof.
  unfold emoji_of. split; [|split].
  - intros -> Hd Hp. rewrite bool_decide_eq_false_2 by done. by rewrite Hp.
  - intros -> -> Hd Ho. rewrite bool_decide_eq_false_2 by done.
    by rewrite Ho.
  - intros [[-> Hd]|[(-> & -> & Hd)|[-> ->]]]; try done;
      by rewrite bool_decide_eq_true_2.
Qed.

Lemma emoji_of_png size pango_font g declared font x w em_list w'
    pillow_width pillow_height :
  font_svg font = false -> font_png font = true ->
  hb_png_data pango_font g <> [] ->
  image_open (hb_png_data pango_font g) = Some (pillow_width, pillow_height) ->
  emoji_of size pango_font g declared font x w = (Return em_list, w') ->
  pillow_height <> 0 /\
  exists em, em_list = [em] /\
    emoji_d em = fdiv (of_int declared) 1000 /\
    emoji_a em = fmul (fdiv (of_int pillow_width) (of_int pillow_height))
                      (emoji_d em) /\
    emoji_e em = x.
Proof.
  intros Hsvg Hpng Hd Ho. unfold emoji_of. rewrite Hsvg, Hpng.
  rewrite bool_decide_eq_false_2 by done. rewrite Ho.
  unfold py_div. destruct (Qeq_bool (of_int pillow_height) 0) eqn:Hz.
  { monad_unfold. done. }
  monad_unfold. intros [= <- <-]. split.
  - intros ->. done.
  - eexists. split; [done|]. by cbn.
Qed.

(** What a step of the glyph loop went through when it returns. *)
Lemma encode_glyph_inv size utf8_text pango_font positions i gi l w l' w' :
  no_visible_glyph (glyph_id gi) = false ->
  encode_glyph size utf8_text pango_font positions i gi l w
    = (Return l', w') ->
  let g := glyph_id gi in
  let offset := fdiv (of_int (geometry_x_offset gi)) size in
  let rise := fdiv (of_int (geometry_y_offset gi)) 1000 in
  exists position font string w1 w2 declared new_emojis,
    positions !! i = Some position /\
    fonts w !! pango_font = Some font /\
    place_glyph font g offset rise (cur_string l) w = (Return string, w1) /\
    cache_width size pango_font g w1 = (Return tt, w2) /\
    declared_width pango_font g w2 = (Return declared, w2) /\
    cache_cmap utf8_text pango_font g (previous_utf8_position l) position w2
      = (Return tt, w') /\
    emoji_of size pango_font g declared font (x_advance l) w'
      = (Return new_emojis, w') /\
    l' = {| previous_utf8_position := position;
            last_font := last_font l;
            cur_string :=
              (let kerning :=
                 kerning_of size declared (geometry_width gi) offset in
               if kerning =? 0 then string
               else string ++ [TClose; TInt kerning; TOpen]);
            x_advance :=
              fadd (x_advance l)
                   (fdiv (fsub (fadd (of_int declared) offset)
                               (of_int (kerning_of size declared
                                          (geometry_width gi) offset)))
                         1000);
            emojis := emojis l ++ new_emojis |}.
Proof.
  intros Hvis. unfold encode_glyph. rewrite Hvis.
  intros (position & w0 & Hpos & Hrun)%bind_inv.
  assert (w0 = w /\ positions !! i = Some position) as [-> Hp].
  { destruct (positions !! i); monad_unfold; [|done].
    by injection Hpos as <- <-. }
  apply bind_inv in Hrun as (font & w0 & Hfont & Hrun).
  apply the_font_inv in Hfont as [-> Hfont].
  apply bind_inv in Hrun as (string & w1 & Hplace & Hrun).
  apply bind_inv in Hrun as ([] & w2 & Hcw & Hrun).
  apply bind_inv in Hrun as (declared & w2' & Hdw & Hrun).
  pose proof (declared_width_inv _ _ _ _ _ Hdw) as [-> _].
  apply bind_inv in Hrun as ([] & w3 & Hcc & Hrun).
  apply bind_inv in Hrun as (new_emojis & w3' & Hem & Hrun).
  pose proof (emoji_of_state size pango_font (glyph_id gi) declared font
                (x_advance l) w3) as Hst.
  rewrite Hem in Hst. cbn in Hst. subst w3'.
  monad_unfold. injection Hrun as <- <-.
  exists position, font, string, w1, w2, declared, new_emojis.
  repeat split; done.
Qed.

(** C8.  For a glyph that carries a raster picture, the entry added to the
    emoji list has as vertical scale the declared width of the glyph, in
    the font's cache, divided by 1000, and as horizontal scale the width of
    the picture over its height, times the vertical scale; with a declared
    width of 1000 and a picture twice as wide as high, the horizontal scale
    is twice the vertical one. *)
Theorem raster_emoji_scales size utf8_text pango_font positions i gi l w
    l' w' font pillow_width pillow_height :
  no_visible_glyph (glyph_id gi) = false ->
  fonts w !! pango_font = Some font ->
  font_svg font = false -> font_png font = true ->
  hb_png_data pango_font (glyph_id gi) <> [] ->
  image_open (hb_png_data pango_font (glyph_id gi))
    = Some (pillow_width, pillow_height) ->
  encode_glyph size utf8_text pango_font positions i gi l w
    = (Return l', w') ->
  exists em declared font',
    emojis l' = emojis l ++ [em] /\
    fonts w' !! pango_font = Some font' /\
    font_widths font' !! glyph_id gi = Some declared /\
    (emoji_d em == of_int declared / 1000)%Q /\
    (emoji_a em == of_int pillow_width / of_int pillow_height * emoji_d em)%Q /\
    (declared = 1000 -> pillow_width = 2 * pillow_height ->
     (emoji_a em == 2 * emoji_d em)%Q).
Proof.
  intros Hvis Hfont Hsvg Hpng Hdata Hopen Hrun.
  destruct (encode_glyph_inv _ _ _ _ _ _ _ _ _ _ Hvis Hrun)
    as (position & font0 & string & w1 & w2 & declared & new_emojis &
        Hpos & Hfont0 & Hplace & Hcw & Hdw & Hcc & Hem & ->).
  rewrite Hfont in Hfont0. injection Hfont0 as <-.
  destruct (emoji_of_png _ _ _ _ _ _ _ _ _ _ _ Hsvg Hpng Hdata Hopen Hem)
    as (Hheight & em & -> & Hd & Ha & _).
  apply declared_width_inv in Hdw as (_ & f2 & Hf2 & Hdecl).
  pose proof (preserving_cache_cmap utf8_text pango_font (glyph_id gi)
                (previous_utf8_position l) position w2 _ _ Hf2)
    as (font' & Hfont' & Hstable).
  rewrite Hcc in Hfont'. cbn in Hfont'.
  exists em, declared, font'. split; [done|]. split; [done|].
  split; [by apply Hstable|].
  assert (Hdq : (emoji_d em == of_int declared / 1000)%Q).
  { rewrite Hd. apply fdiv_eq. }
  assert (Haq : (emoji_a em ==
                 of_int pillow_width / of_int pillow_height * emoji_d em)%Q).
  { rewrite Ha. rewrite fmul_eq. by rewrite fdiv_eq. }
  split; [done|]. split; [done|].
  intros -> ->. rewrite Haq. unfold of_int. rewrite inject_Z_mult.
  field. intros Hz. apply Hheight.
  unfold Qeq in Hz. cbn in Hz. lia.
Qed.

Lemma same_stream_refl w : same_stream w w.
Proof. done. Qed.

Lemma same_stream_trans w1 w2 w3 :
  same_stream w1 w2 -> same_stream w2 w3 -> same_stream w1 w3.
Proof. unfold same_stream. congruence. Qed.

Lemma quiet_cache_width size pango_font g :
  keeps same_stream (cache_width size pango_font g).
Proof.
  intros w. unfold cache_width, the_font, store_width, set_fonts.
  monad_unfold. destruct (fonts w !! pango_font) as [f|]; [|done].
  by destruct (font_widths f !! g).
Qed.

Lemma quiet_cache_cmap utf8_text pango_font g previous position :
  keeps same_stream (cache_cmap utf8_text pango_font g previous position).
Proof.
  intros w. unfold cache_cmap, the_font, store_cmap, set_fonts.
  monad_unfold. destruct (fonts w !! pango_font) as [f|]; [|done].
  destruct (font_cmap f !! g); [done|]. by destruct (decode _).
Qed.

Lemma truthy_zero_rise : truthy (fdiv (of_int 0) 1000) = false.
Proof. reflexivity. Qed.

(** A glyph that is not raised sends nothing to the stream. *)
Lemma quiet_encode_glyph size utf8_text pango_font positions i gi l :
  geometry_y_offset gi = 0 ->
  keeps same_stream
        (encode_glyph size utf8_text pango_font positions i gi l).
Proof.
  intros Hrise. unfold encode_glyph, place_glyph.
  rewrite Hrise, truthy_zero_rise.
  destruct (no_visible_glyph (glyph_id gi)); [by intros w|].
  repeat first
    [ apply keeps_ret; apply same_stream_refl
    | apply keeps_raise; apply same_stream_refl
    | apply keeps_the_font; apply same_stream_refl
    | apply keeps_declared_width; apply same_stream_refl
    | apply quiet_cache_width | apply quiet_cache_cmap
    | match goal with
      | |- keeps _ (emoji_of _ _ _ _ _ _) =>
          intros w; unfold same_stream; by rewrite emoji_of_state
      | |- keeps _ (mbind _ _) =>
          apply keeps_bind; [apply same_stream_trans| |intros ?]
      | |- keeps _ (match ?x with _ => _ end) => destruct x
      end ].
Qed.

End Glyphs.

(** *** A picture that cannot be read *)

Section Pictures.
Context `{Collaborators}.

Lemma total_ret {A} (a : A) : total (mret a).
Proof. by intros w. Qed.

Lemma total_raise {A} e : total (raise (A := A) e).
Proof. by intros w. Qed.

Lemma total_get : total get.
Proof. by intros w. Qed.

Lemma total_modify f : total (modify f).
Proof. by intros w. Qed.

Lemma total_bind {A B} (m : M World A) (k : A -> M World B) :
  total m -> (forall a, total (k a)) -> total (m ≫= k).
Proof.
  intros Hm Hk w. monad_unfold. pose proof (Hm w) as Hw.
  destruct (m w) as [[a| |] w1]; cbn in *; try done. apply Hk.
Qed.

Ltac total_step :=
  first
    [ apply total_ret | apply total_raise | apply total_get
    | apply total_modify
    | match goal with
      | |- total (mbind _ _) => apply total_bind; [|intros ?]
      end
    | match goal with
      | |- total (match ?x with _ => _ end) => destruct x
      end ].

Ltac total_auto := repeat total_step.

Lemma total_encode_glyph size utf8_text pango_font positions i gi l :
  total (encode_glyph size utf8_text pango_font positions i gi l).
Proof.
  unfold encode_glyph, place_glyph, cache_width, declared_width, cache_cmap,
    emoji_of, close_string, the_font, store_width, store_cmap, set_fonts,
    emit, py_div.
  total_auto.
Qed.

Lemma total_encode_glyphs size utf8_text pango_font positions gs :
  forall i l,
  total (encode_glyphs size utf8_text pango_font positions i gs l).
Proof.
  induction gs as [|gi gs IH]; intros i l; cbn [encode_glyphs].
  - apply total_ret.
  - apply total_bind; [apply total_encode_glyph|]. intros l'. apply IH.
Qed.

Lemma total_encode_run size utf8_text run l :
  total (encode_run size utf8_text run l).
Proof.
  unfold encode_run, add_font, close_string, set_fonts, emit.
  total_auto; apply total_encode_glyphs.
Qed.

Lemma total_encode_runs size utf8_text runs :
  forall l, total (encode_runs size utf8_text runs l).
Proof.
  induction runs as [|run runs IH]; intros l; cbn [encode_runs].
  - apply total_ret.
  - apply total_bind; [apply total_encode_run|]. intros l'. apply IH.
Qed.

Lemma encode_glyphs_app size utf8_text pango_font positions gs1 gs2 :
  forall i l w,
  encode_glyphs size utf8_text pango_font positions i (gs1 ++ gs2) l w =
  (encode_glyphs size utf8_text pango_font positions i gs1 l ≫=
   encode_glyphs size utf8_text pango_font positions (i + length gs1) gs2) w.
Proof.
  induction gs1 as [|g gs1 IH]; intros i l w; cbn [encode_glyphs app length].
  - monad_unfold. by rewrite Nat.add_0_r.
  - monad_unfold.
    destruct (encode_glyph _ _ _ _ _ _ _ _) as [[l1| |] w1]; try done.
    by rewrite IH, Nat.add_succ_r.
Qed.

Lemma encode_runs_app size utf8_text runs1 runs2 :
  forall l w,
  encode_runs size utf8_text (runs1 ++ runs2) l w =
  (encode_runs size utf8_text runs1 l ≫= encode_runs size utf8_text runs2) w.
Proof.
  induction runs1 as [|r runs1 IH]; intros l w; cbn [encode_runs app].
  - by monad_unfold.
  - monad_unfold.
    destruct (encode_run _ _ _ _ _) as [[l1| |] w1]; try done.
Qed.

Lemma same_flags_refl w : same_flags w w.
Proof. by intros pf. Qed.

Lemma same_flags_trans w1 w2 w3 :
  same_flags w1 w2 -> same_flags w2 w3 -> same_flags w1 w3.
Proof.
  intros H12 H23 pf. destruct (H12 pf), (H23 pf). split; congruence.
Qed.

Lemma same_flags_fonts w w' : fonts w' = fonts w -> same_flags w w'.
Proof. intros Hf pf. unfold font_for. by rewrite Hf. Qed.

Lemma same_flags_add_font pango_font : keeps same_flags (add_font pango_font).
Proof.
  intros w. unfold add_font. monad_unfold.
  destruct (fonts w !! pango_font) eqn:Hf; [apply same_flags_refl|].
  intros pf. unfold font_for. cbn.
  destruct (decide (pf = pango_font)) as [->|Hne].
  - by rewrite lookup_insert_eq, Hf.
  - by rewrite lookup_insert_ne.
Qed.

Lemma same_flags_alter (change : Font -> Font) pango_font w :
  (forall f, font_svg (change f) = font_svg f /\
             font_png (change f) = font_png f) ->
  same_flags w {| stream := stream w;
                  fonts := alter change pango_font (fonts w);
                  pango_layout := pango_layout w |}.
Proof.
  intros Hchange pf. unfold font_for. cbn.
  destruct (decide (pf = pango_font)) as [->|Hne].
  - rewrite lookup_alter_eq. destruct (fonts w !! pango_font); [|done].
    apply Hchange.
  - by rewrite lookup_alter_ne.
Qed.

Lemma same_flags_cache_width size pango_font g :
  keeps same_flags (cache_width size pango_font g).
Proof.
  intros w. unfold cache_width, the_font, store_width, set_fonts.
  monad_unfold.
  destruct (fonts w !! pango_font) as [f|] eqn:Hf; [|apply same_flags_refl].
  destruct (font_widths f !! g); [apply same_flags_refl|].
  by apply same_flags_alter.
Qed.

Lemma same_flags_cache_cmap utf8_text pango_font g previous position :
  keeps same_flags (cache_cmap utf8_text pango_font g previous position).
Proof.
  intros w. unfold cache_cmap, the_font, store_cmap, set_fonts.
  monad_unfold.
  destruct (fonts w !! pango_font) as [f|] eqn:Hf; [|apply same_flags_refl].
  destruct (font_cmap f !! g); [apply same_flags_refl|].
  destruct (decode _); [|apply same_flags_refl].
  by apply same_flags_alter.
Qed.

Lemma same_flags_place_glyph font g offset rise s :
  keeps same_flags (place_glyph font g offset rise s).
Proof. intros w. apply same_flags_fonts, place_glyph_fonts. Qed.

Ltac same_flags_side :=
  first [ apply same_flags_refl | apply same_flags_trans
        | apply same_flags_add_font | apply same_flags_cache_width
        | apply same_flags_cache_cmap | apply same_flags_place_glyph
        | (intros; intros ?; by apply same_flags_fonts) ].

Lemma same_flags_encode_glyphs size utf8_text pango_font positions gs i l :
  keeps same_flags (encode_glyphs size utf8_text pango_font positions i gs l).
Proof. apply keeps_encode_glyphs; same_flags_side. Qed.

Lemma same_flags_encode_runs size utf8_text runs l :
  keeps same_flags (encode_runs size utf8_text runs l).
Proof. apply keeps_encode_runs; same_flags_side. Qed.

Lemma bind_raise_inv {A B} (m : M World A) (k : A -> M World B) w e w' :
  (m ≫= k) w = (Raise e, w') ->
  m w = (Raise e, w') \/
  exists a w1, m w = (Return a, w1) /\ k a w1 = (Raise e, w').
Proof.
  monad_unfold. destruct (m w) as [[a|e0|] w1]; intros Hk; try done.
  - right. by exists a, w1.
  - left. by injection Hk as -> ->.
Qed.

Lemma raises_ret {A} E (a : A) : raises_only E (mret a).
Proof. by intros w e w'. Qed.

Lemma raises_raise {A} (E : exn -> Prop) e :
  E e -> raises_only E (raise (A := A) e).
Proof. intros He w e' w' [= <- _]. done. Qed.

Lemma raises_get E : raises_only E get.
Proof. by intros w e w'. Qed.

Lemma raises_modify E f : raises_only E (modify f).
Proof. by intros w e w'. Qed.

Lemma raises_bind {A B} E (m : M World A) (k : A -> M World B) :
  raises_only E m -> (forall a, raises_only E (k a)) ->
  raises_only E (m ≫= k).
Proof.
  intros Hm Hk w e w' [Hrun|(a & w1 & _ & Hrun)]%bind_raise_inv.
  - by eapply Hm.
  - by eapply Hk.
Qed.

Ltac raises_step :=
  first
    [ apply raises_ret | apply raises_get | apply raises_modify
    | apply raises_raise; split; discriminate
    | match goal with
      | |- raises_only _ (mbind _ _) => apply raises_bind; [|intros ?]
      end
    | match goal with
      | |- raises_only _ (match ?x with _ => _ end) => destruct x
      end ].

(** A font without a picture for the glyph gives no emoji. *)
Lemma emoji_of_no_picture size pango_font g declared font x w :
  no_picture font pango_font g ->
  emoji_of size pango_font g declared font x w = (Return [], w).
Proof.
  intros Hno.
  by destruct (emoji_of_malformed size pango_font g declared font x w)
    as (_ & _ & Hnone); apply Hnone.
Qed.

(** Without a picture, the step of a visible glyph adds no emoji, and
    does not end with an exception of the picture parsers. *)
Lemma encode_glyph_no_picture size utf8_text pango_font positions i gi l w
    font :
  fonts w !! pango_font = Some font ->
  no_visible_glyph (glyph_id gi) = false ->
  no_picture font pango_font (glyph_id gi) ->
  match fst (encode_glyph size utf8_text pango_font positions i gi l w) with
  | Return l1 => emojis l1 = emojis l
  | Raise e => no_parser_error e
  | OutOfFuel => False
  end.
Proof.
  intros Hfont Hvis Hno.
  destruct (encode_glyph size utf8_text pango_font positions i gi l w)
    as [[l1|e|] w1] eqn:Hrun; cbn [fst].
  - destruct (encode_glyph_inv _ _ _ _ _ _ _ _ _ _ Hvis Hrun)
      as (position & font0 & string & w2 & w3 & declared & new_emojis &
          _ & Hfont0 & _ & _ & _ & _ & Hem & ->).
    rewrite Hfont in Hfont0. injection Hfont0 as <-.
    rewrite emoji_of_no_picture in Hem by done. injection Hem as <-.
    cbn. by rewrite app_nil_r.
  - unfold encode_glyph in Hrun. rewrite Hvis in Hrun.
    apply bind_raise_inv in Hrun as [Hrun|(position & w2 & Hpos & Hrun)].
    { destruct (positions !! i); monad_unfold; [done|].
      injection Hrun as <- _. split; discriminate. }
    assert (w2 = w) as ->.
    { destruct (positions !! i); monad_unfold; [|done].
      by injection Hpos as _ <-. }
    apply bind_raise_inv in Hrun as [Hrun|(font0 & w3 & Hf & Hrun)].
    { unfold the_font in Hrun. monad_unfold. rewrite Hfont in Hrun. done. }
    apply the_font_inv in Hf as [-> Hf]. rewrite Hfont in Hf.
    injection Hf as <-.
    clear Hfont Hpos. revert w e w1 Hrun.
    change (raises_only no_parser_error
      (place_glyph font (glyph_id gi)
         (fdiv (of_int (geometry_x_offset gi)) size)
         (fdiv (of_int (geometry_y_offset gi)) 1000) (cur_string l) ≫=
       fun string =>
         cache_width size pango_font (glyph_id gi) ≫= fun _ =>
         declared_width pango_font (glyph_id gi) ≫= fun declared =>
         cache_cmap utf8_text pango_font (glyph_id gi)
                    (previous_utf8_position l) position ≫= fun _ =>
         emoji_of size pango_font (glyph_id gi) declared font
                  (x_advance l) ≫= fun new_emojis =>
         mret {| previous_utf8_position := position;
                 last_font := last_font l;
                 cur_string :=
                   (let kerning :=
                      kerning_of size declared (geometry_width gi)
                        (fdiv (of_int (geometry_x_offset gi)) size) in
                    if kerning =? 0 then string
                    else string ++ [TClose; TInt kerning; TOpen]);
                 x_advance :=
                   fadd (x_advance l)
                        (fdiv (fsub (fadd (of_int declared)
                                 (fdiv (of_int (geometry_x_offset gi)) size))
                                (of_int (kerning_of size declared
                                   (geometry_width gi)
                                   (fdiv (of_int (geometry_x_offset gi))
                                         size))))
                              1000);
                 emojis := emojis l ++ new_emojis |})).
    apply raises_bind.
    { unfold place_glyph, close_string, emit. repeat raises_step. }
    intros string. apply raises_bind.
    { unfold cache_width, the_font, store_width, set_fonts.
      repeat raises_step. }
    intros _. apply raises_bind.
    { unfold declared_width, the_font. repeat raises_step. }
    intros declared. apply raises_bind.
    { unfold cache_cmap, the_font, store_cmap, set_fonts.
      repeat raises_step. }
    intros _. apply raises_bind; [|intros ?; apply raises_ret].
    intros w e w1 Hrun. by rewrite emoji_of_no_picture in Hrun.
  - pose proof (total_encode_glyph size utf8_text pango_font positions i gi
                  l w) as Ht. by rewrite Hrun in Ht.
Qed.

Lemma malformed_picture_flags font font' pango_font g :
  font_svg font' = font_svg font -> font_png font' = font_png font ->
  malformed_picture font pango_font g -> malformed_picture font' pango_font g.
Proof. unfold malformed_picture. intros -> ->. done. Qed.

Lemma encode_glyph_malformed size utf8_text pango_font positions i gi l w
    font :
  fonts w !! pango_font = Some font ->
  no_visible_glyph (glyph_id gi) = false ->
  malformed_picture font pango_font (glyph_id gi) ->
  exists e w',
    encode_glyph size utf8_text pango_font positions i gi l w = (Raise e, w').
Proof.
  intros Hfont Hvis Hbad.
  destruct (encode_glyph size utf8_text pango_font positions i gi l w)
    as [[l'|e|] w'] eqn:Hrun.
  - destruct (encode_glyph_inv _ _ _ _ _ _ _ _ _ _ Hvis Hrun)
      as (position & font0 & string & w1 & w2 & declared & new_emojis &
          _ & Hfont0 & _ & _ & _ & _ & Hem & _).
    rewrite Hfont in Hfont0. injection Hfont0 as <-.
    destruct (emoji_of_malformed size pango_font (glyph_id gi) declared font
                (x_advance l) w') as (Hsvg & Hpng & _).
    destruct Hbad as [(Hs & Hd & Hp)|(Hs & Hg & Hd & Ho)].
    + rewrite Hsvg in Hem; done.
    + rewrite Hpng in Hem; done.
  - by exists e, w'.
  - pose proof (total_encode_glyph size utf8_text pango_font positions i gi
                  l w) as Ht. by rewrite Hrun in Ht.
Qed.

Lemma encode_glyphs_malformed size utf8_text pango_font positions before gi
    after i l w font :
  fonts w !! pango_font = Some font ->
  no_visible_glyph (glyph_id gi) = false ->
  malformed_picture font pango_font (glyph_id gi) ->
  exists e w',
    encode_glyphs size utf8_text pango_font positions i
                  (before ++ gi :: after) l w = (Raise e, w').
Proof.
  intros Hfont Hvis Hbad. rewrite encode_glyphs_app.
  pose proof (total_encode_glyphs size utf8_text pango_font positions before
                i l w) as Htotal.
  pose proof (preserving_encode_glyphs size utf8_text pango_font positions
                before i l w _ _ Hfont) as (font1 & Hfont1 & Hstable).
  unfold mbind, M_bind.
  destruct (encode_glyphs _ _ _ _ i before l w) as [[l1|e|] w1];
    [|by exists e, w1|done].
  cbn in Hfont1. cbn [encode_glyphs].
  destruct Hstable as (_ & _ & Hs & Hp & _).
  eapply malformed_picture_flags in Hbad; [|exact Hs|exact Hp].
  destruct (encode_glyph_malformed size utf8_text pango_font positions
              (i + length before) gi l1 w1 font1 Hfont1 Hvis Hbad)
    as (e & w' & Hrun).
  exists e, w'. monad_unfold. by rewrite Hrun.
Qed.

Lemma add_font_spec pango_font w :
  exists w',
    add_font pango_font w = (Return (font_for w pango_font), w') /\
    fonts w' !! pango_font = Some (font_for w pango_font) /\
    stream w' = stream w.
Proof.
  unfold add_font, font_for. monad_unfold.
  destruct (fonts w !! pango_font) eqn:Hf.
  - by exists w.
  - eexists. split; [reflexivity|]. cbn. by rewrite lookup_insert_eq.
Qed.

Lemma encode_run_malformed size utf8_text run before gi after l w :
  glyphs run = before ++ gi :: after ->
  no_visible_glyph (glyph_id gi) = false ->
  malformed_picture (font_for w (analysis_font run)) (analysis_font run)
                    (glyph_id gi) ->
  exists e w', encode_run size utf8_text run l w = (Raise e, w').
Proof.
  intros Hglyphs Hvis Hbad. unfold encode_run.
  destruct (add_font_spec (analysis_font run) w) as (w1 & Hadd & Hfont & _).
  unfold mbind at 1. unfold M_bind at 1. rewrite Hadd.
  set (font := font_for w (analysis_font run)) in *.
  assert (Hstep : forall l2 w2,
            fonts w2 !! analysis_font run = Some font ->
            exists e w',
              (encode_glyphs size utf8_text (analysis_font run)
                 (utf8_positions_of run) 0 (glyphs run)
                 (with_string l2 (cur_string l2 ++ [TOpen])) ≫=
               fun l3 => close_string (cur_string l3) ≫=
               fun string => mret (with_string l3 string)) w2
              = (Raise e, w')).
  { intros l2 w2 Hf2. rewrite Hglyphs.
    destruct (encode_glyphs_malformed size utf8_text (analysis_font run)
                (utf8_positions_of run) before gi after 0%nat
                (with_string l2 (cur_string l2 ++ [TOpen])) w2 font
                Hf2 Hvis Hbad) as (e & w' & Hrun).
    exists e, w'. unfold mbind at 1. unfold M_bind at 1. by rewrite Hrun. }
  unfold mbind at 1. unfold M_bind at 1.
  case_bool_decide.
  - cbn. by apply Hstep.
  - destruct (cur_string l); cbn; by apply Hstep.
Qed.

(** C7, as the code has it.  When the picture of a visible glyph is there
    and cannot be parsed or decoded, the parser's exception is not caught:
    the loop over the runs of the line ends with it, so no emoji list is
    returned.  The glyph's code had only joined the pending string: a
    glyph that is not raised sends nothing to the stream.  When the font
    the stream has for the run has no picture for the glyph, the glyph
    gives no emoji and the draw goes on: the step of the glyph, if it
    returns, leaves the emoji list as it was, and it does not end with an
    exception of the picture parsers. *)
Theorem malformed_picture_aborts size utf8_text runs_before run runs_after
    before gi after l w :
  glyphs run = before ++ gi :: after ->
  no_visible_glyph (glyph_id gi) = false ->
  (malformed_picture (font_for w (analysis_font run)) (analysis_font run)
                     (glyph_id gi) ->
   (exists e w',
      encode_runs size utf8_text (runs_before ++ run :: runs_after) l w
        = (Raise e, w')) /\
   (forall declared x w0,
      let result :=
        emoji_of size (analysis_font run) (glyph_id gi) declared
                 (font_for w (analysis_font run)) x w0 in
      result = (Raise ParseError, w0) \/
      result = (Raise UnidentifiedImageError, w0)) /\
   (forall positions i l0 w0,
      geometry_y_offset gi = 0 ->
      stream (snd (encode_glyph size utf8_text (analysis_font run) positions
                                i gi l0 w0)) = stream w0)) /\
  (forall font positions i l0 w0,
     fonts w0 !! analysis_font run = Some font ->
     no_picture font (analysis_font run) (glyph_id gi) ->
     (forall declared x w1,
        emoji_of size (analysis_font run) (glyph_id gi) declared font x w1
          = (Return [], w1)) /\
     match fst (encode_glyph size utf8_text (analysis_font run) positions
                             i gi l0 w0) with
     | Return l1 => emojis l1 = emojis l0
     | Raise e => e <> ParseError /\ e <> UnidentifiedImageError
     | OutOfFuel => False
     end).
Proof.
  intros Hglyphs Hvis. split; [intros Hbad; split; [|split]|].
  - rewrite encode_runs_app.
    pose proof (total_encode_runs size utf8_text runs_before l w) as Htotal.
    pose proof (same_flags_encode_runs size utf8_text runs_before l w
                  (analysis_font run)) as [Hs Hp].
    unfold mbind, M_bind.
    destruct (encode_runs size utf8_text runs_before l w) as [[l1|e|] w1];
      [|by exists e, w1|done].
    cbn in Hs, Hp. cbn [encode_runs].
    eapply malformed_picture_flags in Hbad; [|exact Hs|exact Hp].
    destruct (encode_run_malformed size utf8_text run before gi after l1 w1
                Hglyphs Hvis Hbad) as (e & w' & Hrun).
    exists e, w'. monad_unfold. by rewrite Hrun.
  - intros declared x w0.
    destruct (emoji_of_malformed size (analysis_font run) (glyph_id gi)
                declared (font_for w (analysis_font run)) x w0)
      as (Hsvg & Hpng & _).
    destruct Hbad as [(Hs & Hd & Hp)|(Hs & Hg & Hd & Ho)].
    + left. by apply Hsvg.
    + right. by apply Hpng.
  - intros positions i l0 w0 Hrise. by apply quiet_encode_glyph.
  - intros font positions i l0 w0 Hfont Hno. split.
    + intros declared x w1. by apply emoji_of_no_picture.
    + exact (encode_glyph_no_picture size utf8_text (analysis_font run)
               positions i gi l0 w0 font Hfont Hvis Hno).
Qed.

End Pictures.

(** *** Raised glyphs *)

Section Rise.
Context `{Collaborators}.

Lemma rise_isolated_app a b :
  rise_isolated a -> rise_isolated b -> rise_isolated (a ++ b).
Proof.
  intros Ha Hb. induction Ha as [|o rest Ho Hrest IH|pending r s rest Hs Hrest IH].
  - done.
  - cbn. by apply isolated_plain.
  - cbn. by apply isolated_rise.
Qed.

Lemma extends_isolated_refl w : extends_isolated w w.
Proof. exists []. split; [by rewrite app_nil_r | constructor]. Qed.

Lemma extends_isolated_trans w1 w2 w3 :
  extends_isolated w1 w2 -> extends_isolated w2 w3 -> extends_isolated w1 w3.
Proof.
  intros (a & Ha & Hia) (b & Hb & Hib). exists (a ++ b). split.
  - by rewrite Hb, Ha, app_assoc.
  - by apply rise_isolated_app.
Qed.

Lemma extends_isolated_same w w' : same_stream w w' -> extends_isolated w w'.
Proof.
  intros Hs. exists []. split; [by rewrite app_nil_r | constructor].
Qed.

Lemma extends_isolated_emit o :
  (forall r, o <> set_text_rise r) -> keeps extends_isolated (emit o).
Proof.
  intros Ho w. exists [o]. split; [done|].
  apply isolated_plain; [done | constructor].
Qed.

Lemma truthy_rise y :
  y <> 0 -> truthy (fdiv (of_int y) 1000) = true.
Proof.
  intros Hy. unfold truthy. apply negb_true_iff.
  destruct (Qeq_bool (fdiv (of_int y) 1000) 0) eqn:Hz; [|done].
  apply Qeq_bool_iff in Hz. rewrite fdiv_eq in Hz.
  exfalso. apply Hy. unfold Qeq, of_int in Hz. cbn in Hz. lia.
Qed.

(** What placing a raised glyph sends to the stream. *)
Lemma place_glyph_raised font g offset rise s w string w' :
  truthy rise = true ->
  place_glyph font g offset rise s w = (Return string, w') ->
  exists pending,
    close_string s w = (Return pending, w) /\
    string = [TOpen] /\
    fonts w' = fonts w /\ pango_layout w' = pango_layout w /\
    stream w' = stream w ++
      [ show_text pending; set_text_rise (fneg rise);
        show_text ((if truthy offset then [TFloat (fneg offset)] else []) ++
                   [TOpen; glyph_code font g; TClose]);
        set_text_rise 0 ].
Proof.
  intros Hrise. unfold place_glyph. rewrite Hrise.
  intros (pending & w0 & Hclose & Hrun)%bind_inv.
  pose proof (close_string_state s w) as Hst. rewrite Hclose in Hst.
  cbn in Hst. subst w0. exists pending. split; [done|].
  unfold emit in Hrun. monad_unfold. injection Hrun as <- <-.
  cbn. repeat split; try done. by rewrite <- !app_assoc.
Qed.

Lemma extends_isolated_place_glyph font g offset rise s :
  keeps extends_isolated (place_glyph font g offset rise s).
Proof.
  intros w. destruct (truthy rise) eqn:Hrise.
  - destruct (place_glyph font g offset rise s w) as [[string| |] w'] eqn:Hrun.
    + apply place_glyph_raised in Hrun as (pending & _ & _ & _ & _ & Hs);
        [|done].
      eexists. split; [exact Hs|]. apply isolated_rise; [|constructor].
      unfold lone_glyph, glyph_code. eexists _, g.
      destruct (truthy offset); [right; by eexists | by left].
    + apply extends_isolated_same. unfold place_glyph in Hrun.
      rewrite Hrise in Hrun. unfold close_string in Hrun.
      destruct (last s) as [[]|]; monad_unfold; try done.
      by injection Hrun as <- <-.
    + apply extends_isolated_same. unfold place_glyph in Hrun.
      rewrite Hrise in Hrun. unfold close_string in Hrun.
      destruct (last s) as [[]|]; monad_unfold; done.
  - apply extends_isolated_same. unfold place_glyph. by rewrite Hrise.
Qed.

Lemma extends_isolated_draw_first_line fuel textbox text_overflow
    block_ellipsis matrix :
  keeps extends_isolated
        (draw_first_line fuel textbox text_overflow block_ellipsis matrix).
Proof.
  apply keeps_draw_first_line;
    first [ apply extends_isolated_refl | apply extends_isolated_trans
          | apply extends_isolated_emit | apply extends_isolated_place_glyph
          | (intros; intros w; apply extends_isolated_same;
             first [ apply quiet_cache_width | apply quiet_cache_cmap ])
          | idtac ].
  - intros l w. by apply extends_isolated_same.
  - intros pango_font w. apply extends_isolated_same.
    by destruct (add_font_spec pango_font w) as (w' & -> & _ & Hs).
Qed.

(** C4, as the code has it.  A visible glyph with a vertical offset is
    shown alone: what was pending is shown first, the rise is set, the
    glyph is shown (after its horizontal offset, if it has one), the rise
    is set back to 0, and a new string is opened.  The rise set is the
    negative of the vertical offset divided by 1000; the font size plays
    no part in it.  In all that drawing a line sends to the stream, the
    rise is only ever set in such a group of four calls, and a glyph
    without vertical offset sends nothing to the stream by itself: it
    joins the pending string.  The empty glyph and a glyph with the
    unknown-glyph flag are passed over before the vertical offset is
    looked at: whatever that offset is, the step only appends the glyph's
    negative advance to the pending string, and leaves the stream and the
    rise as they are. *)
Theorem raised_glyph_shown_alone :
  (forall size utf8_text pango_font positions i gi l w l' w',
     no_visible_glyph (glyph_id gi) = false ->
     geometry_y_offset gi <> 0 ->
     encode_glyph size utf8_text pango_font positions i gi l w
       = (Return l', w') ->
     exists pending font rise,
       close_string (cur_string l) w = (Return pending, w) /\
       fonts w !! pango_font = Some font /\
       (rise == - (of_int (geometry_y_offset gi) / 1000))%Q /\
       stream w' = stream w ++
         [ show_text pending; set_text_rise rise;
           show_text
             ((if truthy (fdiv (of_int (geometry_x_offset gi)) size)
               then [TFloat (fneg (fdiv (of_int (geometry_x_offset gi))
                                        size))]
               else []) ++
              [TOpen; glyph_code font (glyph_id gi); TClose]);
           set_text_rise 0 ] /\
       (cur_string l' = [TOpen] \/
        exists kerning, cur_string l' = [TOpen; TClose; TInt kerning; TOpen]))
  /\
  (forall fuel textbox text_overflow block_ellipsis matrix w,
     exists ops,
       stream (snd (draw_first_line fuel textbox text_overflow
                                    block_ellipsis matrix w))
         = stream w ++ ops /\
       rise_isolated ops) /\
  (forall size utf8_text pango_font positions i gi l w,
     geometry_y_offset gi = 0 ->
     stream (snd (encode_glyph size utf8_text pango_font positions i gi l w))
       = stream w) /\
  (forall size utf8_text pango_font positions i gi l w,
     no_visible_glyph (glyph_id gi) = true ->
     encode_glyph size utf8_text pango_font positions i gi l w
       = (Return
            (with_string l
               (cur_string l ++
                [TClose; TFloat (fdiv (of_int (- geometry_width gi)) size);
                 TOpen])),
          w)).
Proof.
  split; [|split; [|split]].
  - intros size utf8_text pango_font positions i gi l w l' w' Hvis Hy Hrun.
    destruct (encode_glyph_inv _ _ _ _ _ _ _ _ _ _ Hvis Hrun)
      as (position & font & string & w1 & w2 & declared & new_emojis &
          Hpos & Hfont & Hplace & Hcw & Hdw & Hcc & Hem & ->).
    apply place_glyph_raised in Hplace
      as (pending & Hclose & -> & _ & _ & Hs); [|by apply truthy_rise].
    exists pending, font, (fneg (fdiv (of_int (geometry_y_offset gi)) 1000)).
    split; [done|]. split; [done|]. split.
    { rewrite fneg_eq. by rewrite fdiv_eq. }
    split.
    + pose proof (quiet_cache_width size pango_font (glyph_id gi) w1) as H1.
      rewrite Hcw in H1.
      pose proof (quiet_cache_cmap utf8_text pango_font (glyph_id gi)
                    (previous_utf8_position l) position w2) as H2.
      rewrite Hcc in H2. unfold same_stream in *. cbn in *. congruence.
    + cbn. destruct (_ =? 0); [by left | right; by eexists].
  - intros. apply extends_isolated_draw_first_line.
  - intros size utf8_text pango_font positions i gi l w Hy.
    by apply quiet_encode_glyph.
  - intros size utf8_text pango_font positions i gi l w Hno.
    unfold encode_glyph. by rewrite Hno.
Qed.

End Rise.

(** *** Widths and kernings *)

Section Widths.
Context `{Collaborators}.










End Widths.

(** *** The truncation loop *)

Section Truncation.
Context `{Collaborators}.

Lemma py_slice_to_firstn {A} (l : list A) k :
  0 <= k <= Z.of_nat (length l) ->
  py_slice_to k l = firstn (Z.to_nat k) l.
Proof.
  intros Hk. unfold py_slice_to, py_slice, slice_bound.
  destruct (0 <? 0) eqn:H0; [done|].
  destruct (k <? 0) eqn:Hneg; [lia|].
  rewrite Z.min_l by lia. rewrite Z.min_l by lia.
  cbn [Z.to_nat skipn]. by rewrite Z.sub_0_r.
Qed.

Lemma py_slice_to_neg {A} (l : list A) n :
  (0 < n)%nat ->
  py_slice_to (- Z.of_nat n) l = firstn (length l - n) l.
Proof.
  intros Hn. unfold py_slice_to, py_slice, slice_bound.
  destruct (0 <? 0) eqn:H0; [done|].
  destruct (- Z.of_nat n <? 0) eqn:Hneg; [|lia].
  rewrite Z.min_l by lia. cbn [Z.to_nat skipn]. f_equal. lia.
Qed.

Lemma py_slice_to_zero {A} (l : list A) : py_slice_to 0 l = [].
Proof.
  unfold py_slice_to, py_slice, slice_bound. cbn.
  rewrite Z.min_l by lia. done.
Qed.


Variable word_count : text -> nat.

(** What is asked of the word breaker: the end of the last word lies
    inside the text, and the text cut there has fewer words. *)
Hypothesis last_word_end_inside :
  forall t lang k,
    get_last_word_end t lang = Some k -> 0 <= k < Z.of_nat (length t).
Hypothesis last_word_end_drops_word :
  forall t lang k,
    get_last_word_end t lang = Some k ->
    (word_count (py_slice_to k t) < word_count t)%nat.




End Truncation.

(** ** The statements at work *)

(** Two draws of "Hi" leave the entries of glyph 43 as they were. *)
Lemma font_caches_written_once_witness :
  exists f',
    fonts (draw_all (H := raised_engine) [hi_call; hi_call] warm_world)
      !! 1 = Some f' /\
    font_widths f' !! 43 = Some 500 /\
    font_cmap f' !! 43 = Some [72].
Proof.
  destruct (font_caches_written_once (H := raised_engine) warm_world 1
              warm_font eq_refl) as (_ & _ & _ & Hall).
  destruct (Hall [hi_call; hi_call]) as (f' & Hf' & Hw & Hc).
  exists f'. split; [exact Hf'|]. split.
  - apply Hw. reflexivity.
  - apply Hc. reflexivity.
Defined.

(** The empty glyph, 2048 units wide at size 2: the adjustment is -1024,
    which is neither the negative of the width nor that of the advance in
    per-mille units. *)
Lemma no_visible_glyph_adjustment_counterexample :
  let gi := glyph PANGO_GLYPH_EMPTY 2048 0 0 in
  encode_glyph (H := raised_engine) 2 [] 1 [] 0 gi initial_locals warm_world
    = (Return (with_string initial_locals [TClose; TFloat (-1024); TOpen]),
       warm_world) /\
  ~ (-1024 == - of_int (geometry_width gi))%Q /\
  ~ (-1024 == - fdiv (units_to_double (geometry_width gi * 1000)) 2)%Q.
Proof.
  split; [reflexivity|]. split; intros Heq; vm_compute in Heq; discriminate.
Defined.

Lemma no_visible_glyph_reserves_space_witness :
  exists x,
    (x == - (of_int 2048 / 2))%Q /\
    forall w,
      encode_glyph (H := raised_engine) 2 [] 1 [] 0
                   (glyph PANGO_GLYPH_EMPTY 2048 0 0) initial_locals w =
        (Return (with_string initial_locals [TClose; TFloat x; TOpen]), w).
Proof.
  apply (no_visible_glyph_reserves_space (H := raised_engine) 2 [] 1 [] 0
           (glyph PANGO_GLYPH_EMPTY 2048 0 0) initial_locals).
  left. reflexivity.
Defined.



(** "Hi" in a font whose pictures do not decode: the draw ends with the
    decoder's exception, and no glyph was shown. *)
Lemma malformed_picture_counterexample :
  hb_png_data (Collaborators := broken_picture_engine) 1 43 <> [] /\
  image_open (Collaborators := broken_picture_engine)
             (hb_png_data (Collaborators := broken_picture_engine) 1 43)
    = None /\
  draw_first_line (H := broken_picture_engine) 0
                  (sample_textbox [72; 105] 12) clip be_none
                  (1, 0, 0, -1, 0, 10)%Q (sample_world [72; 105])
    = (Raise UnidentifiedImageError,
       {| stream := [set_text_matrix 1 0 0 (-1) 0 10;
                     set_font_size "EMOJIS" 12];
          fonts := fonts (snd (draw_first_line (H := broken_picture_engine) 0
                     (sample_textbox [72; 105] 12) clip be_none
                     (1, 0, 0, -1, 0, 10)%Q (sample_world [72; 105])));
          pango_layout :=
            with_single_paragraph_mode (sample_layout [72; 105]) true |}).
Proof.
  split; [discriminate|]. split; [reflexivity|].
  vm_compute. reflexivity.
Defined.

(** The same line: with the font of pictures the loop ends with an
    exception; with the outline font of [warm_world], which has no
    pictures, the glyph gives no emoji. *)
Lemma malformed_picture_aborts_witness :
  (exists e w',
     encode_runs (H := broken_picture_engine) 12 [72; 105]
       ([] ++ one_run 2 [glyph 43 6144 0 0; glyph 76 6144 0 0] :: [])
       initial_locals (sample_world [72; 105]) = (Raise e, w')) /\
  emoji_of (H := broken_picture_engine) 12 1 43 500 warm_font 0 warm_world
    = (Return [], warm_world) /\
  match fst (encode_glyph (H := broken_picture_engine) 12 [72; 105] 1
                          [1; 2] 0 (glyph 43 6144 0 0)
                          (with_string initial_locals [TOpen]) warm_world)
  with
  | Return l1 => emojis l1 = []
  | Raise e => e <> ParseError /\ e <> UnidentifiedImageError
  | OutOfFuel => False
  end.
Proof.
  destruct (malformed_picture_aborts (H := broken_picture_engine) 12
              [72; 105] []
              (one_run 2 [glyph 43 6144 0 0; glyph 76 6144 0 0]) []
              [] (glyph 43 6144 0 0) [glyph 76 6144 0 0]
              initial_locals (sample_world [72; 105]) eq_refl eq_refl)
    as [Hbad Hnone].
  split; [|split].
  - destruct Hbad as [Hraise _]; [|exact Hraise].
    right. split; [reflexivity|]. split; [reflexivity|].
    split; [discriminate|reflexivity].
  - destruct (Hnone warm_font [1; 2] 0%nat
                (with_string initial_locals [TOpen]) warm_world eq_refl)
      as [Hem _]; [|apply Hem].
    right. right. split; reflexivity.
  - destruct (Hnone warm_font [1; 2] 0%nat
                (with_string initial_locals [TOpen]) warm_world eq_refl)
      as [_ Hstep]; [|exact Hstep].
    right. right. split; reflexivity.
Defined.

(** A picture of 200 by 100 on a glyph declared 1000 wide. *)
Lemma raster_emoji_scales_witness :
  exists em declared font',
    emojis (returned (fst (encode_glyph (H := wide_picture_engine) 1 [72] 1
                             [1] 0 (glyph 43 1024 0 0) initial_locals
                             (snd (add_font (H := wide_picture_engine) 1
                                            (sample_world [72])))))
                     initial_locals)
      = [] ++ [em] /\
    fonts (snd (encode_glyph (H := wide_picture_engine) 1 [72] 1
                  [1] 0 (glyph 43 1024 0 0) initial_locals
                  (snd (add_font (H := wide_picture_engine) 1
                                 (sample_world [72])))))
      !! 1 = Some font' /\
    font_widths font' !! 43 = Some declared /\
    (emoji_d em == of_int declared / 1000)%Q /\
    (emoji_a em == of_int 200 / of_int 100 * emoji_d em)%Q /\
    (declared = 1000 -> 200 = 2 * 100 -> (emoji_a em == 2 * emoji_d em)%Q).
Proof.
  apply (raster_emoji_scales (H := wide_picture_engine) 1 [72] 1 [1] 0
           (glyph 43 1024 0 0) initial_locals
           (snd (add_font (H := wide_picture_engine) 1 (sample_world [72])))
           _ _ picture_font 200 100).
  - reflexivity.
  - reflexivity.
  - reflexivity.
  - reflexivity.
  - discriminate.
  - reflexivity.
  - vm_compute. reflexivity.
Defined.

(** "Hi" with the second glyph 1000 units up: the rise set is -1, not
    1000; with an empty glyph in its place no rise is set at all. *)
Lemma raised_glyph_counterexample :
  geometry_y_offset (glyph 76 6144 0 1000) = 1000 /\
  stream (snd (draw_first_line (H := raised_engine) 0
                 (sample_textbox [72; 105] 12) clip be_none
                 (1, 0, 0, -1, 0, 10)%Q (sample_world [72; 105])))
    = [ set_text_matrix 1 0 0 (-1) 0 10; set_font_size "AAAAAA" 12;
        show_text [TOpen; TGlyph 4 43; TClose]; set_text_rise (-1);
        show_text [TOpen; TGlyph 4 76; TClose]; set_text_rise 0;
        show_text [] ] /\
  ~ (-1 == of_int (geometry_y_offset (glyph 76 6144 0 1000)))%Q /\
  geometry_y_offset (glyph PANGO_GLYPH_EMPTY 6144 0 1000) <> 0 /\
  stream (snd (draw_first_line (H := raised_empty_engine) 0
                 (sample_textbox [72; 105] 12) clip be_none
                 (1, 0, 0, -1, 0, 10)%Q (sample_world [72; 105])))
    = [ set_text_matrix 1 0 0 (-1) 0 10; set_font_size "AAAAAA" 12;
        show_text [TOpen; TGlyph 4 43; TClose; TFloat (-512)] ].
Proof.
  split; [reflexivity|]. split; [vm_compute; reflexivity|].
  split; [intros Heq; vm_compute in Heq; discriminate|].
  split; [discriminate|]. vm_compute. reflexivity.
Defined.

Lemma raised_glyph_shown_alone_witness :
  exists pending font rise,
    close_string [TOpen] warm_world
      = (Return pending, warm_world) /\
    fonts warm_world !! 1 = Some font /\
    (rise == - (of_int 1000 / 1000))%Q /\
    stream (snd (encode_glyph (H := raised_engine) 12 [72; 105] 1 [1; 2] 1
                   (glyph 76 6144 0 1000)
                   (with_string initial_locals [TOpen]) warm_world))
      = [] ++ [ show_text pending; set_text_rise rise;
                show_text ([] ++ [TOpen; glyph_code font 76; TClose]);
                set_text_rise 0 ].
Proof.
  destruct (raised_glyph_shown_alone (H := raised_engine)) as (Hraised & _).
  destruct (Hraised 12%Q [72; 105] 1 [1; 2] 1%nat (glyph 76 6144 0 1000)
              (with_string initial_locals [TOpen]) warm_world
              (returned (fst (encode_glyph (H := raised_engine) 12 [72; 105]
                                1 [1; 2] 1 (glyph 76 6144 0 1000)
                                (with_string initial_locals [TOpen])
                                warm_world)) initial_locals)
              (snd (encode_glyph (H := raised_engine) 12 [72; 105]
                      1 [1; 2] 1 (glyph 76 6144 0 1000)
                      (with_string initial_locals [TOpen]) warm_world))
              eq_refl ltac:(discriminate) ltac:(vm_compute; reflexivity))
    as (pending & font & rise & Hclose & Hfont & Hrise & Hstream & _).
  exists pending, font, rise.
  split; [exact Hclose|]. split; [exact Hfont|]. split; [exact Hrise|].
  exact Hstream.
Defined.


(** The literals [1e-6] and [0.1] as binary64 numbers; a glyph whose
    logical width is 96 units, at size [0.1]: the float quotient is
    [937.5], and the width cached is 938. *)
Example cached_width_rounded :
  let engine := fixed_engine [] 100 96 outline_font [] None in
  let w := snd (cache_width (H := engine) (fl (1 # 10)) 1 43
                  (snd (add_font (H := engine) 1 (sample_world [])))) in
  fl (1 # 1000000) = pydyf_precision /\
  fl (1 # 10) = (3602879701896397 # 36028797018963968)%Q /\
  fl (fl (units_to_double (96 * 1000)) / fl (1 # 10)) = (1875 # 2)%Q /\
  (fonts w !! 1) ≫= (fun f => font_widths f !! 43) = Some 938.
Proof. repeat split. Qed.

(** The rounding of the floats at work: a glyph declared 500 wide, shaped
    2176 units wide and moved right by 1 unit, at size 12.  The exact value
    of [500 - 2176000 / 1024 / 12 + 1 / 12] is 323; the float sum is
    [322.99999999999994], the kerning 322, and the declared width less the
    kerning is a whole unit more than the raw advance less the offset. *)
Example kerning_rounded_down :
  let raw := fdiv (units_to_double (2176 * 1000)) 12 in
  let offset := fdiv (of_int 1) 12 in
  (of_int 500 - raw + offset == 323)%Q /\
  kerning_of 12 500 2176 offset = 322 /\
  (of_int 500 - of_int (kerning_of 12 500 2176 offset) - (raw - offset)
   == 1)%Q.
Proof. repeat split. Qed.


(** Words that end at spaces. *)
Lemma last_space_Some t k :
  last_space t = Some k ->
  (k < length t)%nat /\ (space_words (firstn k t) < space_words t)%nat.
Proof.
  revert k. induction t as [|c t IH]; intros k; [done|].
  cbn [last_space]. destruct (last_space t) as [k'|] eqn:Hlast.
  - intros [= <-]. destruct (IH k' eq_refl) as [Hlt Hwords].
    split; [cbn; lia|]. unfold space_words in *. cbn [firstn].
    destruct (decide (c = 32)).
    + rewrite !filter_cons_True by done. cbn [length]. lia.
    + rewrite !filter_cons_False by done. lia.
  - destruct (c =? 32) eqn:Hc; [|done]. intros [= <-].
    apply Z.eqb_eq in Hc as ->. split; [cbn; lia|].
    unfold space_words. cbn [firstn]. rewrite filter_cons_True by done.
    cbn. lia.
Qed.

Lemma space_breaker_inside t lang k :
  get_last_word_end (Collaborators := narrow_engine) t lang = Some k ->
  0 <= k < Z.of_nat (length t).
Proof.
  cbn. destruct (last_space t) as [n|] eqn:Hlast; [|done].
  intros [= <-]. apply last_space_Some in Hlast. lia.
Qed.



(** Scenario C: "The quick brown fox" becomes "The quick brown…" after one
    run of the body of the loop. *)
Example the_quick_brown_ellipsis :
  space_words the_quick_brown_fox = 4%nat /\
  let w := sample_world the_quick_brown_fox in
  let result := draw_first_line (H := narrow_engine) 1
                  (sample_textbox the_quick_brown_fox 12) clip be_auto
                  (1, 0, 0, -1, 0, 10)%Q w in
  fst result = Return [] /\
  layout_text (pango_layout (snd result))
    = [84; 104; 101; 32; 113; 117; 105; 99; 107; 32;
       98; 114; 111; 119; 110; 0x2026].
Proof. split; [reflexivity|]. split; vm_compute; reflexivity. Qed.

(** * More on the finalizer *)

Section PdfaFootprint.
Context `{PdfCollaborators}.

Ltac outside_keys :=
  rewrite ?not_elem_of_cons;
  repeat split; try discriminate; try apply not_elem_of_nil.

Lemma changes_only_refl allowed pdf : changes_only allowed pdf pdf.
Proof.
  split; [done|]. intros i [d| | | |] Ho; try done. by exists d.
Qed.

Lemma changes_only_weaken (a1 a2 : nat -> gmap string value -> string -> Prop)
    pdf pdf' :
  (forall i d k, a1 i d k -> a2 i d k) ->
  changes_only a1 pdf pdf' -> changes_only a2 pdf pdf'.
Proof.
  intros Hsub [Hc Hch]. split; [done|]. intros i o Ho.
  specialize (Hch i o Ho). destruct o as [d| | | |]; try done.
  destruct Hch as (d' & Hd' & Hk). exists d'. split; [done|].
  intros k Hn. apply Hk. intros Ha. apply Hn. by apply Hsub.
Qed.

(** Footprints compose when they depend on a dictionary through its type
    only, and never hold of the type itself. *)
Lemma changes_only_trans allowed pdf1 pdf2 pdf3 :
  (forall i d, ~ allowed i d "Type"%string) ->
  (forall i d d' k,
     d' !! "Type"%string = d !! "Type"%string ->
     allowed i d' k -> allowed i d k) ->
  changes_only allowed pdf1 pdf2 -> changes_only allowed pdf2 pdf3 ->
  changes_only allowed pdf1 pdf3.
Proof.
  intros Htype Hdep [Hc1 H1] [Hc2 H2]. split; [congruence|].
  intros i o Ho. specialize (H1 i o Ho).
  destruct o as [d| | | |]; try (by apply (H2 i _ H1)).
  destruct H1 as (d' & Hd' & Hk). specialize (H2 i _ Hd').
  destruct H2 as (d'' & Hd'' & Hk'). exists d''. split; [done|].
  intros k Hn. rewrite Hk' by (intros Ha; apply Hn; eapply Hdep; [|done];
                               apply Hk, Htype).
  by apply Hk.
Qed.

Lemma changes_only_add_object allowed o pdf :
  changes_only allowed pdf
    {| objects := objects pdf ++ [o]; catalog := catalog pdf |}.
Proof.
  split; [done|]. intros i o' Ho'. cbn.
  rewrite (lookup_app_l_Some _ _ _ _ Ho').
  destruct o' as [d| | | |]; try done. by exists d.
Qed.

Lemma changes_only_set_object
    (allowed : nat -> gmap string value -> string -> Prop) i d d' pdf :
  objects pdf !! i = Some (Dictionary d) ->
  (forall k, ~ allowed i d k -> d' !! k = d !! k) ->
  changes_only allowed pdf
    {| objects := <[i := Dictionary d']> (objects pdf);
       catalog := catalog pdf |}.
Proof.
  intros Hi Hk. split; [done|]. intros j o Ho. cbn.
  destruct (decide (i = j)) as [<-|Hne].
  - rewrite list_lookup_insert_eq by (by eapply lookup_lt_Some).
    rewrite Hi in Ho. injection Ho as <-. by exists d'.
  - rewrite list_lookup_insert_ne by done.
    destruct o as [d0| | | |]; try done. by exists d0.
Qed.

(** A computation that changes the objects one by one, each as [change]
    says. *)
Lemma changes_only_pointwise
    (allowed : nat -> gmap string value -> string -> Prop)
    (change : pdf_object -> pdf_object) pdf pdf' :
  catalog pdf' = catalog pdf ->
  (forall j, objects pdf' !! j = change <$> (objects pdf !! j)) ->
  (forall i o, objects pdf !! i = Some o ->
     match o with
     | Dictionary d =>
         exists d', change o = Dictionary d' /\
           forall k, ~ allowed i d k -> d' !! k = d !! k
     | _ => change o = o
     end) ->
  changes_only allowed pdf pdf'.
Proof.
  intros Hc Hl Hch. split; [done|]. intros i o Ho.
  specialize (Hch i o Ho). rewrite Hl, Ho. cbn.
  destruct o as [d| | | |]; try (by rewrite Hch).
  destruct Hch as (d' & -> & Hk). by exists d'.
Qed.

Lemma filter_ext_in {A} (P1 P2 : A -> Prop)
    `{!forall x, Decision (P1 x)} `{!forall x, Decision (P2 x)} (l : list A) :
  (forall x, x ∈ l -> P1 x <-> P2 x) -> filter P1 l = filter P2 l.
Proof.
  induction l as [|x l IH]; intros Hiff; [done|].
  rewrite !filter_cons. rewrite IH by (intros y Hy; apply Hiff; set_solver).
  destruct (decide (P1 x)) as [Hp1|Hp1], (decide (P2 x)) as [Hp2|Hp2];
    try done; exfalso; [apply Hp2 | apply Hp1]; apply (Hiff x); set_solver.
Qed.

Lemma filespec_at_same pdf pdf' j :
  objects pdf' !! j = objects pdf !! j ->
  filespec_at pdf' j = filespec_at pdf j.
Proof. unfold filespec_at. by intros ->. Qed.

(** The references the attachment loop collects: those it was given, then
    that of every file specification, in the order of the numbers. *)
Lemma tag_filespecs_refs relationships numbers acc pdf out pdf' :
  NoDup numbers ->
  tag_filespecs relationships numbers acc pdf = (Return out, pdf') ->
  out = acc ++ (VRef <$> filter (fun j => filespec_at pdf j = true) numbers).
Proof.
  intros Hnd. revert acc pdf. induction numbers as [|i rest IH];
    intros acc pdf Hrun.
  - cbn in Hrun. monad_unfold. injection Hrun as <- <-.
    by rewrite filter_nil, app_nil_r.
  - apply NoDup_cons in Hnd as [Hi Hnd].
    cbn [tag_filespecs] in Hrun. monad_unfold.
    assert (Hskip : filespec_at pdf i = false ->
              tag_filespecs relationships rest acc pdf = (Return out, pdf') ->
              out = acc ++ (VRef <$> filter (fun j => filespec_at pdf j = true)
                                            (i :: rest))).
    { intros Hno Hrun'. rewrite filter_cons_False by congruence.
      by apply IH. }
    destruct (objects pdf !! i) as [[d| | | |]|] eqn:Hoi;
      try (apply Hskip; [by unfold filespec_at; rewrite Hoi|done]).
    destruct (is_str (d !! "Type"%string) "/Filespec") eqn:Ht.
    2:{ apply Hskip; [by unfold filespec_at; rewrite Hoi|done]. }
    destruct (d !! "CheckSum"%string) as [checksum|]; [|done].
    destruct (relationships_get relationships checksum pdf)
      as [[r| |] pdf0] eqn:Hget; try done.
    assert (pdf0 = pdf) as ->.
    { destruct checksum; cbn in Hget; monad_unfold; congruence. }
    unfold set_object in Hrun. monad_unfold.
    apply (IH Hnd) in Hrun. rewrite Hrun.
    rewrite filter_cons_True by (by unfold filespec_at; rewrite Hoi).
    rewrite fmap_cons, <- app_assoc. cbn [app]. do 3 f_equal.
    apply filter_ext_in. intros j Hj.
    rewrite (filespec_at_same pdf); [done|]. cbn.
    apply list_lookup_insert_ne. intros ->. by apply Hi.
Qed.

(** What the loop over the attachments leaves, when it returns: the
    objects tagged, and the references collected. *)
Lemma tag_all_filespecs attachments acc pdf out pdf' :
  tag_filespecs (relationships_of attachments)
                (seq 0 (length (objects pdf))) acc pdf = (Return out, pdf') ->
  catalog pdf' = catalog pdf /\
  (forall j, objects pdf' !! j = tag_filespec attachments <$> (objects pdf !! j))
  /\ out = acc ++ (VRef <$> filespec_numbers pdf).
Proof.
  intros Hrun.
  pose proof (tag_filespecs_refs _ _ _ _ _ _ (NoDup_seq _ _) Hrun) as Hout.
  apply tag_filespecs_spec in Hrun as (Hc & Hl & _); [|apply NoDup_seq].
  split; [done|]. split; [|done]. intros j. rewrite Hl.
  case_bool_decide as Hin; [done|].
  rewrite seq_lookup_lt in Hin.
  rewrite (lookup_ge_None_2 (objects pdf) j) by lia. done.
Qed.

(** What extending the [AF] array leaves, when it returns. *)
Lemma extend_AF_exact out pdf pdf' :
  extend_AF out pdf = (Return tt, pdf') ->
  (out = [] /\ pdf' = pdf) \/
  (out <> [] /\
   exists c,
     objects pdf !! catalog pdf = Some (Dictionary c) /\
     pdf' = {| objects :=
                 <[catalog pdf :=
                     Dictionary (<["AF"%string :=
                                     VArray (initial_AF c ++ out)]> c)]>
                   (objects pdf);
               catalog := catalog pdf |}).
Proof.
  destruct out as [|v0 out'].
  { cbn. monad_unfold. intros [= <-]. by left. }
  set (out := v0 :: out'). unfold extend_AF.
  intros (c & pdf1 & Hc & Hrun)%bind_inv.
  apply get_catalog_inv in Hc as [-> Hc].
  right. split; [done|]. exists c. split; [done|].
  unfold initial_AF.
  destruct (c !! "AF"%string) as [v|] eqn:HAF.
  - rewrite HAF in Hrun. destruct v; try done.
    unfold set_catalog, set_object in Hrun. monad_unfold. congruence.
  - rewrite lookup_insert_eq in Hrun.
    unfold set_catalog, set_object in Hrun. monad_unfold.
    rewrite insert_insert_eq in Hrun. congruence.
Qed.

Ltac unchanged_state H lem :=
  let E := fresh in
  pose proof lem as E; rewrite H in E; cbn in E; subst.

(** What lines 39 to 44 collect, when they return: the entries the name
    tree gives. *)
Lemma names_part_exact c pdf has_names acc pdf1 pdf2 :
  match c !! "Names"%string with
  | Some names => py_contains "EmbeddedFiles" names
  | None => mret false
  end pdf = (Return has_names, pdf1) ->
  (if has_names : bool then
     names ← py_getitem "Names" (VDict c);
     embedded ← py_getitem "EmbeddedFiles" names;
     reference ← reference_number embedded;
     names ← object_at reference;
     names_1_2 names
   else mret []) pdf1 = (Return acc, pdf2) ->
  acc = embedded_names c pdf.
Proof.
  intros Hn Hacc. unfold embedded_names.
  destruct (c !! "Names"%string) as [v|] eqn:HN.
  - pose proof (py_contains_state "EmbeddedFiles" v pdf) as E.
    rewrite Hn in E. cbn in E. subst pdf1.
    destruct has_names.
    + apply bind_inv in Hacc as (names & p1 & H1 & Hacc).
      apply bind_inv in Hacc as (embedded & p2 & H1' & Hacc).
      apply bind_inv in Hacc as (reference & p3 & H2 & Hacc).
      apply bind_inv in Hacc as (names' & p4 & H3 & Hacc).
      cbn in H1. rewrite HN in H1. injection H1 as <- <-.
      destruct v as [| | | | |nd|]; try done.
      cbn in H1'.
      destruct (nd !! "EmbeddedFiles"%string) as [x|] eqn:HE; [|done].
      injection H1' as <- <-.
      assert (p3 = pdf /\ embedded_reference x = Some reference)
        as [-> Href].
      { destruct x; try done; cbn in H2 |- *.
        - destruct (int_of_first_word s); [|done|done].
          by injection H2 as <- <-.
        - by injection H2 as <- <-. }
      rewrite Href.
      pose proof (object_at_state reference pdf) as Hst.
      rewrite H3 in Hst. cbn in Hst. subst p4.
      destruct names' as [|l| | |]; try done.
      cbn in Hacc. injection Hacc as <- _.
      unfold object_at in H3. monad_unfold. cbv zeta.
      destruct (_ || _); [done|].
      destruct (objects pdf !! Z.to_nat _) as [o|]; [|done].
      by injection H3 as ->.
    + injection Hacc as <- _.
      destruct v as [| | | | |nd|]; try done.
      cbn in Hn. injection Hn as Hb.
      destruct (nd !! "EmbeddedFiles"%string) eqn:HE; [|done].
      rewrite bool_decide_eq_true_2 in Hb by eauto. done.
  - injection Hn as <- <-. by injection Hacc as <- _.
Qed.

(** The attachment part of the finalizer, when it returns: the objects
    are tagged, and the references of the name tree, then those of the file
    specifications, are added to the catalog's [AF]. *)
Lemma add_AF_exact attachments pdf pdf' :
  add_AF attachments pdf = (Return tt, pdf') ->
  exists c names_part tagged,
    objects pdf !! catalog pdf = Some (Dictionary c) /\
    (c !! "Names"%string = None -> names_part = []) /\
    (names_part = [] \/
     exists n l, objects pdf !! n = Some (Array l) /\
                 names_part = odd_elements l) /\
    names_part = embedded_names c pdf /\
    catalog tagged = catalog pdf /\
    (forall j, objects tagged !! j
               = tag_filespec attachments <$> (objects pdf !! j)) /\
    extend_AF (names_part ++ (VRef <$> filespec_numbers pdf)) tagged
      = (Return tt, pdf').
Proof.
  unfold add_AF.
  intros (c & pdf1 & Hc & Hrun)%bind_inv.
  apply get_catalog_inv in Hc as [-> Hc].
  apply bind_inv in Hrun as (has_names & pdf1 & Hn & Hrun).
  assert (pdf1 = pdf /\ (c !! "Names"%string = None -> has_names = false))
    as [-> Hnone].
  { destruct (c !! "Names"%string) as [v|].
    - unchanged_state Hn (py_contains_state "EmbeddedFiles" v pdf). done.
    - monad_unfold. injection Hn as <- <-. done. }
  apply bind_inv in Hrun as (acc & pdf1 & Hacc & Hrun).
  pose proof (names_part_exact _ _ _ _ _ _ Hn Hacc) as Hemb.
  assert (pdf1 = pdf /\
          (has_names = false -> acc = []) /\
          (acc = [] \/ exists n l, objects pdf !! n = Some (Array l) /\
                                   acc = odd_elements l))
    as (-> & Hfalse & Hnames).
  { destruct has_names.
    2:{ monad_unfold. injection Hacc as <- <-. by eauto. }
    apply bind_inv in Hacc as (names & p1 & H1 & Hacc).
    unchanged_state H1 (py_getitem_state "Names" (VDict c) pdf).
    apply bind_inv in Hacc as (embedded & p1 & H1' & Hacc).
    unchanged_state H1' (py_getitem_state "EmbeddedFiles" names pdf).
    apply bind_inv in Hacc as (reference & p1 & H2 & Hacc).
    unchanged_state H2 (reference_number_state embedded pdf).
    apply bind_inv in Hacc as (names' & p1 & H3 & Hacc).
    pose proof (object_at_state reference pdf) as Hst.
    rewrite H3 in Hst. cbn in Hst. subst p1.
    split; [by unchanged_state Hacc (names_1_2_state names' pdf)|].
    split; [done|]. right.
    destruct names' as [|l| | |]; try done.
    cbn in Hacc. monad_unfold. injection Hacc as <- <-.
    unfold object_at in H3. monad_unfold.
    destruct (_ || _); [done|].
    destruct (objects pdf !! Z.to_nat _) as [o|] eqn:Hlook; [|done].
    assert (o = Array l) as -> by congruence. eauto. }
  apply bind_inv in Hrun as (pdf0 & pdf1 & Hget & Hrun).
  monad_unfold. injection Hget as <- <-.
  apply bind_inv in Hrun as (out & tagged & Htag & Hext).
  apply tag_all_filespecs in Htag as (Hcat & Hl & ->).
  exists c, acc, tagged. repeat (split; [by auto|]). done.
Qed.

(** The stages of the finalizer, when it returns. *)
Lemma pdfa_exact metadata attachments compress version pdf pdf' :
  pdfa metadata attachments compress version pdf = (Return tt, pdf') ->
  exists c pdf2 pdf3 c3 packet,
    objects pdf !! catalog pdf = Some (Dictionary c) /\
    (if 2 <=? version then add_AF attachments else mret tt)
      {| objects :=
           <[catalog pdf :=
               Dictionary (<["OutputIntents"%string :=
                               output_intents (length (objects pdf))]> c)]>
             (objects pdf ++ [profile_stream compress]);
         catalog := catalog pdf |}
      = (Return tt, pdf2) /\
    catalog pdf3 = catalog pdf2 /\
    (forall j, objects pdf3 !! j = mark_printable <$> (objects pdf2 !! j)) /\
    objects pdf3 !! catalog pdf3 = Some (Dictionary c3) /\
    pdf' = {| objects :=
                <[catalog pdf3 :=
                    Dictionary (<["Metadata"%string :=
                                    VRef (length (objects pdf3))]> c3)]>
                  (objects pdf3 ++ [packet]);
              catalog := catalog pdf3 |} /\
    (forall d, packet <> Dictionary d).
Proof.
  unfold pdfa.
  intros (profile & pdf0 & Hadd & Hrun)%bind_inv.
  apply bind_inv in Hrun as (c & pdf1 & Hc & Hrun).
  apply bind_inv in Hrun as ([] & pdf1' & Hset & Hrun).
  apply bind_inv in Hrun as ([] & pdf2 & HAF & Hrun).
  apply bind_inv in Hrun as (pdf2' & pdf2'' & Hget & Hrun).
  apply bind_inv in Hrun as ([] & pdf3 & Hprint & Hmeta).
  unfold add_metadata in Hmeta.
  apply bind_inv in Hmeta as (number & pdf4 & Hadd' & Hmeta).
  apply bind_inv in Hmeta as (c3 & pdf5 & Hc3 & Hmeta).
  unfold add_object in Hadd, Hadd'. unfold set_catalog in Hset, Hmeta.
  monad_unfold.
  injection Hadd as <- <-. injection Hget as <- <-.
  injection Hadd' as <- <-.
  apply get_catalog_inv in Hc as [-> Hc]. cbn in Hc.
  apply lookup_snoc_Dictionary in Hc; [|done].
  injection Hset as <-. cbn [catalog objects] in HAF.
  destruct (print_annotations_spec (seq 0 (length (objects pdf2))) pdf2)
    as (pdf3' & Hprint' & Hcat3 & Hl3).
  rewrite Hprint in Hprint'. injection Hprint' as <-.
  apply get_catalog_inv in Hc3 as [-> Hc3]. cbn in Hc3.
  apply lookup_snoc_Dictionary in Hc3; [|done].
  injection Hmeta as <-. cbn [catalog objects].
  eexists c, pdf2, pdf3, c3, _.
  split; [done|]. split; [exact HAF|]. split; [done|]. split.
  { intros j. rewrite Hl3. case_bool_decide as Hin; [done|].
    rewrite seq_lookup_lt in Hin.
    rewrite (lookup_ge_None_2 (objects pdf2) j) by lia. done. }
  split; [done|]. split; [reflexivity|]. done.
Qed.

Lemma pointwise_length (change : pdf_object -> pdf_object)
    (l l' : list pdf_object) :
  (forall j, l' !! j = change <$> (l !! j)) -> length l' = length l.
Proof.
  intros Hl. assert (l' = change <$> l) as ->; [|by rewrite length_fmap].
  apply list_eq. intros j. by rewrite Hl, list_lookup_fmap.
Qed.

Section Stages.
Variable allowed : nat -> gmap string value -> string -> Prop.
Hypothesis allowed_not_type : forall i d, ~ allowed i d "Type"%string.
Hypothesis allowed_by_type :
  forall i d d' k,
    d' !! "Type"%string = d !! "Type"%string ->
    allowed i d' k -> allowed i d k.

Lemma stage_append_and_set key v o c pdf :
  objects pdf !! catalog pdf = Some (Dictionary c) ->
  (forall d, allowed (catalog pdf) d key) ->
  changes_only allowed pdf
    {| objects := <[catalog pdf := Dictionary (<[key := v]> c)]>
                    (objects pdf ++ [o]);
       catalog := catalog pdf |}.
Proof using allowed_not_type allowed_by_type.
  intros Hc Hkey.
  eapply changes_only_trans; [done|done|apply (changes_only_add_object _ o)|].
  apply (changes_only_set_object allowed (catalog pdf) c
           (<[key := v]> c)
           {| objects := objects pdf ++ [o]; catalog := catalog pdf |}).
  - cbn. by apply lookup_app_l_Some.
  - intros k Hk. apply lookup_insert_ne. intros <-. apply Hk, Hkey.
Qed.

Lemma stage_print pdf pdf' :
  (forall i d, is_str (d !! "Type"%string) "/Annot" = true ->
               allowed i d "F"%string) ->
  catalog pdf' = catalog pdf ->
  (forall j, objects pdf' !! j = mark_printable <$> (objects pdf !! j)) ->
  changes_only allowed pdf pdf'.
Proof.
  intros HF Hc Hl. apply (changes_only_pointwise _ mark_printable); try done.
  intros i o Ho. destruct o as [d| | | |]; try done. cbn.
  destruct (is_str (d !! "Type"%string) "/Annot") eqn:Ht; [|by exists d].
  eexists. split; [done|]. intros k Hk. apply lookup_insert_ne.
  intros <-. by apply Hk, HF.
Qed.

Lemma stage_AF attachments pdf pdf' :
  (forall i d, is_str (d !! "Type"%string) "/Filespec" = true ->
               allowed i d "AFRelationship"%string) ->
  (forall d, allowed (catalog pdf) d "AF"%string) ->
  add_AF attachments pdf = (Return tt, pdf') ->
  changes_only allowed pdf pdf'.
Proof using allowed_not_type allowed_by_type.
  intros Hrel HAF Hrun.
  apply add_AF_exact in Hrun
    as (c & names_part & tagged & Hc & _ & _ & _ & Hcat & Hl & Hext).
  assert (Htag : changes_only allowed pdf tagged).
  { apply (changes_only_pointwise _ (tag_filespec attachments)); try done.
    intros i o Ho. destruct o as [d| | | |]; try done. cbn.
    destruct (is_str (d !! "Type"%string) "/Filespec") eqn:Ht; [|by exists d].
    destruct (d !! "CheckSum"%string); [|by exists d].
    eexists. split; [done|]. intros k Hk. apply lookup_insert_ne.
    intros <-. by apply Hk, Hrel. }
  apply extend_AF_exact in Hext as [[_ ->]|(_ & ct & Hct & ->)]; [done|].
  eapply changes_only_trans; [done|done|exact Htag|].
  apply (changes_only_set_object allowed (catalog tagged) ct); [done|].
  intros k Hk. apply lookup_insert_ne. intros <-. apply Hk.
  rewrite Hcat. apply HAF.
Qed.

(** What follows the writing of the output intent, when the finalizer
    returns. *)
Lemma pdfa_rest metadata attachments compress version pdf pdf' :
  (forall i d, is_str (d !! "Type"%string) "/Annot" = true ->
               allowed i d "F"%string) ->
  (2 <= version ->
   forall i d, is_str (d !! "Type"%string) "/Filespec" = true ->
               allowed i d "AFRelationship"%string) ->
  (2 <= version -> forall d, allowed (catalog pdf) d "AF"%string) ->
  (forall d, allowed (catalog pdf) d "Metadata"%string) ->
  pdfa metadata attachments compress version pdf = (Return tt, pdf') ->
  exists c pdf1,
    objects pdf !! catalog pdf = Some (Dictionary c) /\
    pdf1 = {| objects :=
                <[catalog pdf :=
                    Dictionary (<["OutputIntents"%string :=
                                    output_intents (length (objects pdf))]> c)]>
                  (objects pdf ++ [profile_stream compress]);
              catalog := catalog pdf |} /\
    changes_only allowed pdf1 pdf' /\
    length (objects pdf') = S (length (objects pdf1)).
Proof using allowed_not_type allowed_by_type.
  intros HF Hrel HAF' Hmeta Hrun.
  destruct (pdfa_exact _ _ _ _ _ _ Hrun)
    as (c & pdf2 & pdf3 & c3 & packet & Hc & HAF & Hcat3 & Hl3 & Hc3 & -> & _).
  eexists c, _. split; [done|]. split; [reflexivity|].
  match type of HAF with _ ?p = _ => set (pdf1 := p) in * end.
  assert (H2 : changes_only allowed pdf1 pdf2 /\
               length (objects pdf2) = length (objects pdf1)).
  { destruct (2 <=? version) eqn:Hv.
    - apply Z.leb_le in Hv. split.
      + apply (stage_AF attachments); by auto.
      + apply add_AF_exact in HAF
          as (c1 & names_part & tagged & _ & _ & _ & _ & Hcat & Hl & Hext).
        apply pointwise_length in Hl.
        apply extend_AF_exact in Hext as [[_ ->]|(_ & ct & _ & ->)];
          [done|]. cbn [objects]. by rewrite length_insert.
    - monad_unfold. injection HAF as <-. split; [|done].
      apply changes_only_refl. }
  destruct H2 as [H2 Hlen2].
  assert (Hc2 : catalog pdf2 = catalog pdf) by (by destruct H2 as [-> _]).
  assert (H3 : changes_only allowed pdf2 pdf3) by (by apply stage_print).
  split.
  - eapply changes_only_trans; [done|done|exact H2|].
    eapply changes_only_trans; [done|done|exact H3|].
    apply stage_append_and_set; [done|].
    intros d. rewrite Hcat3, Hc2. apply Hmeta.
  - cbn [objects]. rewrite length_insert, length_app.
    apply pointwise_length in Hl3. rewrite Hl3, Hlen2. cbn. lia.
Qed.

End Stages.

Lemma later_keys_not_type i d : ~ later_keys i d "Type"%string.
Proof. intros [?|[?|[?|?]]]; discriminate. Qed.

Lemma later_keys_by_type i (d d' : gmap string value) k :
  d' !! "Type"%string = d !! "Type"%string ->
  later_keys i d' k -> later_keys i d k.
Proof. done. Qed.

Lemma pdfa_touches_not_type version cat i d :
  ~ pdfa_touches version cat i d "Type"%string.
Proof.
  intros [[? _]|[[? _]|[_ [?|[?|[? _]]]]]]; discriminate.
Qed.

Lemma pdfa_touches_by_type version cat i (d d' : gmap string value) k :
  d' !! "Type"%string = d !! "Type"%string ->
  pdfa_touches version cat i d' k -> pdfa_touches version cat i d k.
Proof. unfold pdfa_touches. by intros ->. Qed.

Lemma intent_catalog compress c pdf :
  objects pdf !! catalog pdf = Some (Dictionary c) ->
  objects (with_output_intent compress c pdf) !! catalog pdf
  = Some (Dictionary (<["OutputIntents"%string :=
                          output_intents (length (objects pdf))]> c)).
Proof.
  intros Hc. cbn. apply list_lookup_insert_eq.
  rewrite length_app. apply lookup_lt_Some in Hc. lia.
Qed.

Lemma intent_profile compress c pdf :
  objects pdf !! catalog pdf = Some (Dictionary c) ->
  objects (with_output_intent compress c pdf) !! length (objects pdf)
  = Some (profile_stream compress).
Proof.
  intros Hc. cbn. apply lookup_lt_Some in Hc as Hlt.
  rewrite list_lookup_insert_ne by lia.
  rewrite lookup_app_r by lia. by rewrite Nat.sub_diag.
Qed.

Lemma intent_others compress c pdf j :
  j <> catalog pdf ->
  (length (objects pdf) < j)%nat \/
  objects (with_output_intent compress c pdf) !! j = objects pdf !! j \/
  j = length (objects pdf).
Proof.
  intros Hj. cbn. rewrite list_lookup_insert_ne by done.
  destruct (lt_eq_lt_dec j (length (objects pdf))) as [[Hlt| ->]|Hgt];
    [|by auto|by auto].
  right. left. by apply lookup_app_l.
Qed.

(** The output intent leaves the objects their types, and adds no
    dictionary. *)
Lemma intent_dictionary compress c pdf j d1 :
  objects pdf !! catalog pdf = Some (Dictionary c) ->
  objects (with_output_intent compress c pdf) !! j = Some (Dictionary d1) ->
  exists d, objects pdf !! j = Some (Dictionary d) /\
    forall k, k <> "OutputIntents"%string -> d1 !! k = d !! k.
Proof.
  intros Hc Hj. destruct (decide (j = catalog pdf)) as [->|Hne].
  - rewrite intent_catalog in Hj by done. injection Hj as <-.
    exists c. split; [done|]. intros k Hk. by apply lookup_insert_ne.
  - destruct (intent_others compress c pdf j Hne) as [Hgt|[Heq| ->]].
    + cbn in Hj. rewrite list_lookup_insert_ne in Hj by done.
      rewrite lookup_ge_None_2 in Hj; [done|]. rewrite length_app. cbn. lia.
    + rewrite Heq in Hj. by exists d1.
    + by rewrite intent_profile in Hj.
Qed.

Lemma intent_of_dictionary compress c pdf j d :
  objects pdf !! catalog pdf = Some (Dictionary c) ->
  objects pdf !! j = Some (Dictionary d) ->
  exists d1,
    objects (with_output_intent compress c pdf) !! j = Some (Dictionary d1) /\
    forall k, k <> "OutputIntents"%string -> d1 !! k = d !! k.
Proof.
  intros Hc Hj. destruct (decide (j = catalog pdf)) as [->|Hne].
  - rewrite intent_catalog by done. eexists. split; [done|].
    intros k Hk. rewrite lookup_insert_ne by done. congruence.
  - exists d. split; [|done]. cbn. rewrite list_lookup_insert_ne by done.
    by apply lookup_app_l_Some.
Qed.

Lemma intent_array compress c pdf n l :
  objects pdf !! catalog pdf = Some (Dictionary c) ->
  objects (with_output_intent compress c pdf) !! n = Some (Array l) ->
  objects pdf !! n = Some (Array l).
Proof.
  intros Hc Hn. destruct (decide (n = catalog pdf)) as [->|Hne].
  - by rewrite intent_catalog in Hn.
  - destruct (intent_others compress c pdf n Hne) as [Hgt|[Heq| ->]].
    + cbn in Hn. rewrite list_lookup_insert_ne in Hn by done.
      rewrite lookup_ge_None_2 in Hn; [done|]. rewrite length_app. cbn. lia.
    + by rewrite <- Heq.
    + by rewrite intent_profile in Hn.
Qed.

Lemma intent_filespec_numbers compress c pdf :
  objects pdf !! catalog pdf = Some (Dictionary c) ->
  filespec_numbers (with_output_intent compress c pdf) = filespec_numbers pdf.
Proof.
  intros Hc. unfold filespec_numbers.
  replace (length (objects (with_output_intent compress c pdf)))
    with (S (length (objects pdf))).
  2:{ cbn. rewrite length_insert, length_app. cbn. lia. }
  rewrite seq_S, filter_app. cbn [Nat.add].
  rewrite (filter_cons_False _ (length (objects pdf))).
  2:{ unfold filespec_at. rewrite intent_profile by done. done. }
  rewrite filter_nil, app_nil_r.
  apply filter_ext_in. intros j Hj. apply seq_lookup_lt in Hj.
  destruct (objects pdf !! j) as [o|] eqn:Ho;
    [|apply lookup_ge_None in Ho; lia].
  unfold filespec_at. rewrite Ho.
  destruct o as [d| | | |].
  - destruct (intent_of_dictionary compress c pdf j d Hc Ho)
      as (d1 & -> & Hk). by rewrite Hk.
  - assert (j <> catalog pdf) as Hne by congruence.
    cbn. rewrite list_lookup_insert_ne by done.
    by rewrite (lookup_app_l_Some _ _ _ _ Ho).
  - assert (j <> catalog pdf) as Hne by congruence.
    cbn. rewrite list_lookup_insert_ne by done.
    by rewrite (lookup_app_l_Some _ _ _ _ Ho).
  - assert (j <> catalog pdf) as Hne by congruence.
    cbn. rewrite list_lookup_insert_ne by done.
    by rewrite (lookup_app_l_Some _ _ _ _ Ho).
  - assert (j <> catalog pdf) as Hne by congruence.
    cbn. rewrite list_lookup_insert_ne by done.
    by rewrite (lookup_app_l_Some _ _ _ _ Ho).
Qed.

Lemma tag_filespec_dictionary attachments d :
  exists d', tag_filespec attachments (Dictionary d) = Dictionary d' /\
    forall k, k <> "AFRelationship"%string -> d' !! k = d !! k.
Proof.
  cbn. destruct (is_str _ _); [|by exists d].
  destruct (d !! "CheckSum"%string); [|by exists d].
  eexists. split; [done|]. intros k Hk. by apply lookup_insert_ne.
Qed.

Lemma mark_printable_dictionary d :
  exists d', mark_printable (Dictionary d) = Dictionary d' /\
    forall k, k <> "F"%string -> d' !! k = d !! k.
Proof.
  cbn. destruct (is_str _ _); [|by exists d].
  eexists. split; [done|]. intros k Hk. by apply lookup_insert_ne.
Qed.

(** X1.  When the finalizer has returned, the objects the document had
    are all there under their numbers, followed by two new ones.  What was
    no dictionary is as it was; a dictionary differs at most in [F] if it
    is an annotation, in [AFRelationship] if it is a file specification
    and the version is at least 2, and, for the catalog, in
    [OutputIntents], [Metadata] and, from version 2, [AF]. *)
Theorem pdfa_footprint metadata attachments compress version pdf pdf' :
  pdfa metadata attachments compress version pdf = (Return tt, pdf') ->
  changes_only (pdfa_touches version (catalog pdf)) pdf pdf' /\
  length (objects pdf') = (length (objects pdf) + 2)%nat.
Proof.
  intros Hrun.
  set (touches := pdfa_touches version (catalog pdf)).
  assert (Hnt := pdfa_touches_not_type version (catalog pdf)).
  assert (Hbt := pdfa_touches_by_type version (catalog pdf)).
  destruct (pdfa_rest touches Hnt Hbt _ _ _ _ _ _
              ltac:(intros i d Ht; left; by eauto)
              ltac:(intros Hv i d Ht; right; left; by eauto)
              ltac:(intros Hv d; right; right; by eauto)
              ltac:(intros d; right; right; by eauto)
              Hrun)
    as (c & pdf1 & Hc & -> & Hch & Hlen).
  split.
  - eapply changes_only_trans; [done|done| |exact Hch].
    apply stage_append_and_set; try done.
    intros d. right. right. by eauto.
  - rewrite Hlen. cbn. rewrite length_insert, length_app. cbn. lia.
Qed.

(** X2.  When the finalizer has returned, the catalog's [OutputIntents]
    is one output intent whose [DestOutputProfile] is the reference of the
    first number that was free, and the object of that number is the stream
    of the colour profile, with [N] 3 and [/DeviceRGB] as alternate. *)
Theorem pdfa_output_intent metadata attachments compress version pdf pdf' :
  pdfa metadata attachments compress version pdf = (Return tt, pdf') ->
  exists c',
    objects pdf' !! catalog pdf' = Some (Dictionary c') /\
    c' !! "OutputIntents"%string
      = Some (output_intents (length (objects pdf))) /\
    objects pdf' !! length (objects pdf) = Some (profile_stream compress).
Proof.
  intros Hrun.
  destruct (pdfa_rest later_keys later_keys_not_type later_keys_by_type
              _ _ _ _ _ _
              ltac:(intros i d Ht; left; done)
              ltac:(intros Hv i d Ht; right; left; done)
              ltac:(intros Hv d; right; right; left; done)
              ltac:(intros d; right; right; right; done)
              Hrun)
    as (c & pdf1 & Hc & -> & [Hcat Hch] & _).
  pose proof (Hch _ _ (intent_catalog compress c pdf Hc)) as (c' & Hc' & Hk).
  pose proof (Hch _ _ (intent_profile compress c pdf Hc)) as Hp.
  cbn in Hcat. rewrite Hcat.
  exists c'. split; [done|]. split; [|done].
  rewrite Hk; [by rewrite lookup_insert_eq|].
  intros [?|[?|[?|?]]]; discriminate.
Qed.

(** X3.  From version 2, when the finalizer has returned, the catalog's
    [AF] is what it was (or nothing), then the entries the name tree
    gives, then the reference of every file specification in the order of
    the objects; and when there is nothing to add, [AF] is as before, so
    that no empty array is created.  The entries the name tree gives are
    every second entry of the array that [EmbeddedFiles] of the catalog's
    [Names] refers to, among the objects the document has once the colour
    profile is added. *)
Theorem pdfa_associated_files metadata attachments compress version
    pdf pdf' :
  2 <= version ->
  pdfa metadata attachments compress version pdf = (Return tt, pdf') ->
  exists c c',
    objects pdf !! catalog pdf = Some (Dictionary c) /\
    objects pdf' !! catalog pdf = Some (Dictionary c') /\
    c' !! "AF"%string =
      match embedded_names c (with_output_intent compress c pdf)
            ++ (VRef <$> filespec_numbers pdf) with
      | [] => c !! "AF"%string
      | added => Some (VArray (initial_AF c ++ added))
      end.
Proof.
  intros Hv%Z.leb_le Hrun.
  destruct (pdfa_exact _ _ _ _ _ _ Hrun)
    as (c & pdf2 & pdf3 & c3 & packet & Hc & HAF & Hcat3 & Hl3 & Hc3 & -> & _).
  rewrite Hv in HAF.
  change {| objects := _; catalog := catalog pdf |}
    with (with_output_intent compress c pdf) in HAF.
  apply add_AF_exact in HAF
    as (c1 & names_part & tagged & Hc1 & _ & _ & Hemb & Hcat & Hl & Hext).
  change (catalog (with_output_intent compress c pdf))
    with (catalog pdf) in *.
  rewrite intent_catalog in Hc1 by done. injection Hc1 as <-.
  assert (names_part = embedded_names c (with_output_intent compress c pdf))
    as Hnames.
  { rewrite Hemb. unfold embedded_names.
    by rewrite lookup_insert_ne by done. }
  rewrite intent_filespec_numbers in Hext by done.
  destruct (tag_filespec_dictionary attachments
              (<["OutputIntents"%string :=
                   output_intents (length (objects pdf))]> c))
    as (ct & Htag & Hkt).
  assert (Hct : objects tagged !! catalog pdf = Some (Dictionary ct)).
  { by rewrite Hl, intent_catalog, <- Htag. }
  assert (HctAF : ct !! "AF"%string = c !! "AF"%string).
  { rewrite Hkt by done. by apply lookup_insert_ne. }
  set (added := names_part ++ (VRef <$> filespec_numbers pdf)) in *.
  assert (exists c2, catalog pdf2 = catalog pdf /\
            objects pdf2 !! catalog pdf = Some (Dictionary c2) /\
            c2 !! "AF"%string =
              match added with
              | [] => c !! "AF"%string
              | _ => Some (VArray (initial_AF c ++ added))
              end) as (c2 & Hcat2 & Hc2 & HAF2).
  { apply extend_AF_exact in Hext as [[-> ->]|(Hne & ct' & Hct' & ->)].
    - by exists ct.
    - rewrite Hcat, Hct in Hct'. injection Hct' as <-.
      eexists. split; [done|]. cbn [objects catalog]. rewrite Hcat. split.
      + apply list_lookup_insert_eq. by eapply lookup_lt_Some.
      + rewrite lookup_insert_eq. unfold initial_AF. rewrite HctAF.
        by destruct added. }
  destruct (mark_printable_dictionary c2) as (c3' & Hmark & Hk3).
  rewrite Hcat3, Hcat2 in *.
  rewrite Hl3, Hc2 in Hc3.
  change (Some (mark_printable (Dictionary c2)) = Some (Dictionary c3))
    in Hc3.
  rewrite Hmark in Hc3. injection Hc3 as <-.
  exists c, (<["Metadata"%string := VRef (length (objects pdf3))]> c3').
  split; [done|]. split.
  { cbn. apply list_lookup_insert_eq. rewrite length_app.
    assert (is_Some (objects pdf3 !! catalog pdf)) as Hs
      by (rewrite Hl3, Hc2; by eexists).
    apply lookup_lt_is_Some in Hs. lia. }
  rewrite lookup_insert_ne by done. rewrite Hk3 by done. rewrite HAF2.
  subst added. rewrite <- Hnames. by destruct (names_part ++ _).
Qed.

(** X4.  From version 2, a document with a file specification that has no
    [CheckSum] stops the finalizer: it does not return. *)
Theorem pdfa_filespec_needs_checksum metadata attachments compress version
    pdf i d :
  2 <= version ->
  objects pdf !! i = Some (Dictionary d) ->
  is_str (d !! "Type"%string) "/Filespec" = true ->
  d !! "CheckSum"%string = None ->
  fst (pdfa metadata attachments compress version pdf) <> Return tt.
Proof.
  intros Hv%Z.leb_le Hi Ht Hcs Hret.
  destruct (pdfa metadata attachments compress version pdf)
    as [[[]| |] pdf'] eqn:Hrun; try done.
  destruct (pdfa_exact _ _ _ _ _ _ Hrun)
    as (c & pdf2 & _ & _ & _ & Hc & HAF & _).
  rewrite Hv in HAF.
  change {| objects := _; catalog := catalog pdf |}
    with (with_output_intent compress c pdf) in HAF.
  apply add_AF_spec in HAF as [_ Hall].
  destruct (intent_of_dictionary compress c pdf i d Hc Hi) as (d1 & Hd1 & Hk).
  destruct (Hall i d1 Hd1) as (checksum & _ & Hsome & _).
  - by rewrite Hk.
  - rewrite Hk in Hsome by done. congruence.
Qed.

(** X5.  From version 2, when the catalog's name tree names, as its
    embedded files, an object that is no array (or a number that has no
    object), the finalizer raises; the document is then left with the
    colour profile and the output intent, and nothing else written. *)
Theorem pdfa_names_must_be_array metadata attachments compress version
    pdf c names n :
  2 <= version ->
  objects pdf !! catalog pdf = Some (Dictionary c) ->
  c !! "Names"%string = Some (VDict names) ->
  names !! "EmbeddedFiles"%string = Some (VRef n) ->
  (forall l, objects pdf !! n <> Some (Array l)) ->
  exists e,
    pdfa metadata attachments compress version pdf
    = (Raise e, with_output_intent compress c pdf).
Proof.
  intros Hv%Z.leb_le Hc Hnames Hemb Hno.
  pose proof (intent_catalog compress c pdf Hc) as Hc1.
  assert (Hno1 : forall l,
            objects (with_output_intent compress c pdf) !! n
            <> Some (Array l)).
  { intros l Hl. apply (Hno l). by eapply intent_array. }
  unfold pdfa, add_object, get_catalog, set_catalog, set_object.
  monad_unfold. cbn [objects catalog].
  rewrite (lookup_app_l_Some _ _ _ _ Hc). cbn [objects catalog].
  rewrite Hv.
  change {| objects := _; catalog := catalog pdf |}
    with (with_output_intent compress c pdf).
  unfold add_AF, get_catalog. monad_unfold.
  change (catalog (with_output_intent compress c pdf)) with (catalog pdf).
  rewrite Hc1. rewrite lookup_insert_ne by done. rewrite Hnames.
  cbn [py_contains py_getitem]. monad_unfold.
  rewrite Hemb. rewrite bool_decide_eq_true_2 by (by eexists).
  rewrite lookup_insert_ne by done. rewrite Hnames.
  cbn [py_getitem]. rewrite Hemb. monad_unfold.
  cbn [reference_number]. monad_unfold.
  unfold object_at. monad_unfold.
  replace (Z.of_nat n <? 0) with false by (symmetry; apply Z.ltb_ge; lia).
  cbn [orb]. rewrite Nat2Z.id.
  destruct (_ || _); [by exists IndexError|].
  destruct (objects (with_output_intent compress c pdf) !! n)
    as [o|] eqn:Ho; [|by exists IndexError].
  destruct o; try (by exists TypeError). by destruct (Hno1 l).
Qed.

(** X6.  Of the attachments that carry one content hash, the last one
    gives the relationship the finalizer looks up for that hash. *)
Theorem relationships_last_wins before a after h :
  md5 a = Some h ->
  h <> ""%string ->
  (forall b, b ∈ after -> md5 b <> Some h) ->
  relationships_of (before ++ a :: after) !! h = Some (relationship a).
Proof.
  intros Ha Hh Hafter. rewrite relationships_of_lookup.
  rewrite bool_decide_eq_false_2 by done.
  unfold recorded_relationship.
  rewrite filter_app, filter_cons_True by done.
  assert (filter (fun b => md5 b = Some h) after = []) as ->.
  { clear Ha. induction after as [|b after IH]; [done|].
    rewrite filter_cons_False by (apply Hafter; set_solver).
    apply IH. intros b' Hb'. apply Hafter. set_solver. }
  by rewrite last_snoc.
Qed.

(** The attachment loop returns on file specifications with checksums
    that can be looked up. *)
Lemma tag_filespecs_returns relationships numbers acc pdf :
  filespecs_checked pdf ->
  exists out pdf',
    tag_filespecs relationships numbers acc pdf = (Return out, pdf').
Proof.
  revert acc pdf. induction numbers as [|i rest IH]; intros acc pdf Hok.
  - by eexists _, _.
  - cbn [tag_filespecs]. monad_unfold.
    destruct (objects pdf !! i) as [[d| | | |]|] eqn:Hi; try by apply IH.
    destruct (is_str (d !! "Type"%string) "/Filespec") eqn:Ht;
      [|by apply IH].
    destruct (Hok i d Hi Ht) as (checksum & Hcs & Hhash). rewrite Hcs.
    assert (exists r, relationships_get relationships checksum pdf
                      = (Return r, pdf)) as [r ->].
    { destruct checksum; try done; by eexists. }
    unfold set_object. monad_unfold. apply IH.
    intros j dj Hj Htj. cbn in Hj.
    destruct (decide (j = i)) as [->|Hne].
    + rewrite list_lookup_insert_eq in Hj by (by eapply lookup_lt_Some).
      injection Hj as <-. exists checksum. split; [|done].
      by rewrite lookup_insert_ne.
    + rewrite list_lookup_insert_ne in Hj by done. by eapply Hok.
Qed.

Lemma bind_run {S A B} (m : M S A) (k : A -> M S B) s a s1 :
  m s = (Return a, s1) -> (m ≫= k) s = k a s1.
Proof. monad_unfold. by intros ->. Qed.

Lemma get_catalog_run pdf c :
  objects pdf !! catalog pdf = Some (Dictionary c) ->
  get_catalog pdf = (Return c, pdf).
Proof. unfold get_catalog. monad_unfold. by intros ->. Qed.

(** The attachment part returns when there is no name tree, [AF] can be
    extended and the file specifications have checksums. *)
Lemma add_AF_returns attachments pdf c :
  objects pdf !! catalog pdf = Some (Dictionary c) ->
  c !! "Names"%string = None ->
  (c !! "AF"%string = None \/ exists l, c !! "AF"%string = Some (VArray l)) ->
  filespecs_checked pdf ->
  exists pdf', add_AF attachments pdf = (Return tt, pdf').
Proof.
  intros Hc Hnames HAF Hok. unfold add_AF.
  erewrite bind_run by (by apply get_catalog_run).
  rewrite Hnames.
  erewrite bind_run by reflexivity.
  erewrite bind_run by reflexivity.
  erewrite bind_run by reflexivity.
  destruct (tag_filespecs_returns (relationships_of attachments)
              (seq 0 (length (objects pdf))) [] pdf Hok)
    as (out & tagged & Htag).
  erewrite bind_run by exact Htag.
  apply tag_all_filespecs in Htag as (Hcat & Hl & _).
  destruct (tag_filespec_dictionary attachments c) as (ct & Htagc & Hkt).
  assert (Hct : objects tagged !! catalog tagged = Some (Dictionary ct)).
  { by rewrite Hcat, Hl, Hc, <- Htagc. }
  assert (HctAF : ct !! "AF"%string = c !! "AF"%string) by (by apply Hkt).
  destruct out as [|v out']; [by eexists|].
  unfold extend_AF.
  erewrite bind_run by (by apply get_catalog_run).
  rewrite !HctAF.
  destruct HAF as [HAF|[l HAF]]; rewrite HAF; cbv beta iota zeta;
    [rewrite lookup_insert_eq|rewrite HctAF, HAF]; eexists; reflexivity.
Qed.

(** X7.  The finalizer returns on a document whose catalog is a dictionary
    when the version is below 2; and from version 2 when, moreover, the
    catalog has no name tree, its [AF] is an array or absent, and every file
    specification has a checksum that is no list and no dictionary. *)
Theorem pdfa_returns metadata attachments compress version pdf c :
  objects pdf !! catalog pdf = Some (Dictionary c) ->
  (2 <= version ->
   c !! "Names"%string = None /\
   (c !! "AF"%string = None \/ exists l, c !! "AF"%string = Some (VArray l)) /\
   filespecs_checked pdf) ->
  exists pdf', pdfa metadata attachments compress version pdf
               = (Return tt, pdf').
Proof.
  intros Hc Hgood.
  pose proof (intent_catalog compress c pdf Hc) as Hc1.
  unfold pdfa.
  erewrite bind_run by reflexivity.
  erewrite bind_run
    by (apply get_catalog_run; cbn; by apply lookup_app_l_Some).
  erewrite bind_run by reflexivity.
  change {| objects := _; catalog := _ |}
    with (with_output_intent compress c pdf).
  assert (exists pdf2,
            (if 2 <=? version then add_AF attachments else mret tt)
              (with_output_intent compress c pdf) = (Return tt, pdf2))
    as [pdf2 HAF].
  { destruct (2 <=? version) eqn:Hv; [|by eexists].
    apply Z.leb_le in Hv. destruct (Hgood Hv) as (Hnames & HAF & Hok).
    eapply add_AF_returns; [exact Hc1| | |].
    - by rewrite lookup_insert_ne.
    - by rewrite lookup_insert_ne.
    - intros j d1 Hj Ht.
      destruct (intent_dictionary compress c pdf j d1 Hc Hj) as (d & Hd & Hk).
      rewrite Hk by done. rewrite Hk in Ht by done. by eapply Hok. }
  assert (exists c2, objects pdf2 !! catalog pdf2 = Some (Dictionary c2))
    as [c2 Hc2].
  { assert (changes_only later_keys (with_output_intent compress c pdf) pdf2)
      as [Hcat Hch].
    { destruct (2 <=? version).
      - apply (stage_AF later_keys later_keys_not_type later_keys_by_type
                 attachments); [| |done].
        + intros i d _. right. by left.
        + intros d. right. right. by left.
      - injection HAF as <-. apply changes_only_refl. }
    destruct (Hch _ _ Hc1) as (c2 & Hc2 & _). rewrite Hcat. by exists c2. }
  erewrite bind_run by exact HAF.
  erewrite bind_run by reflexivity.
  destruct (print_annotations_spec (seq 0 (length (objects pdf2))) pdf2)
    as (pdf3 & Hprint & Hcat3 & Hl3).
  erewrite bind_run by exact Hprint.
  destruct (mark_printable_dictionary c2) as (c3 & Hmark & _).
  assert (Hc3 : objects pdf3 !! catalog pdf3 = Some (Dictionary c3)).
  { rewrite Hcat3, Hl3, Hc2. rewrite <- Hmark.
    case_bool_decide as Hin; [done|]. exfalso. apply Hin.
    apply seq_lookup_lt. by eapply lookup_lt_Some. }
  unfold add_metadata.
  erewrite bind_run by reflexivity.
  erewrite bind_run
    by (apply get_catalog_run; cbn; by apply lookup_app_l_Some).
  eexists; reflexivity.
Qed.

End PdfaFootprint.

Lemma pdfa_footprint_witness :
  changes_only (pdfa_touches 3 (catalog sample_pdf))
               sample_pdf sample_pdf_final /\
  length (objects sample_pdf_final) = (length (objects sample_pdf) + 2)%nat.
Proof.
  apply (pdfa_footprint (H := sample_pdf_collaborators)
           [60; 62] sample_attachments false 3 sample_pdf sample_pdf_final).
  vm_compute. reflexivity.
Defined.

Lemma pdfa_output_intent_witness :
  exists c',
    objects sample_pdf_final !! catalog sample_pdf_final
      = Some (Dictionary c') /\
    c' !! "OutputIntents"%string = Some (output_intents 6) /\
    objects sample_pdf_final !! 6%nat
      = Some (profile_stream (H := sample_pdf_collaborators) false).
Proof.
  apply (pdfa_output_intent (H := sample_pdf_collaborators)
           [60; 62] sample_attachments false 3 sample_pdf sample_pdf_final).
  vm_compute. reflexivity.
Defined.

(** A catalog with [AF] of one reference, a name tree of two files and
    one file specification: the name tree gives the references 2 and 7,
    and [AF] ends with the reference of the file specification. *)
Lemma pdfa_associated_files_witness :
  embedded_names (H := sample_pdf_collaborators)
    (<["Type"%string := VStr "/Catalog"]>
       (<["AF"%string := VArray [VRef 9]]>
          (<["Names"%string :=
               VDict (<["EmbeddedFiles"%string := VRef 1]> ∅)]> ∅)))
    named_pdf = [VRef 2; VRef 7] /\
  exists c',
    objects named_pdf_final !! 0%nat = Some (Dictionary c') /\
    c' !! "AF"%string
      = Some (VArray [VRef 9; VRef 2; VRef 7; VRef 2]).
Proof.
  split; [vm_compute; reflexivity|].
  destruct (pdfa_associated_files (H := sample_pdf_collaborators)
              [60; 62] sample_attachments true 2 named_pdf named_pdf_final
              ltac:(lia) ltac:(vm_compute; reflexivity))
    as (c & c' & Hc & Hc' & HAF).
  exists c'. split; [exact Hc'|].
  rewrite HAF. vm_compute in Hc. injection Hc as <-.
  vm_compute. reflexivity.
Defined.

Lemma pdfa_filespec_needs_checksum_witness :
  fst (pdfa (H := sample_pdf_collaborators) [60; 62] sample_attachments
            false 2 unchecked_pdf) <> Return tt.
Proof.
  apply (pdfa_filespec_needs_checksum (H := sample_pdf_collaborators)
           [60; 62] sample_attachments false 2 unchecked_pdf 1%nat
           (<["Type"%string := VStr "/Filespec"]>
              (<["F"%string := VString "notes.txt"]> ∅))).
  - lia.
  - reflexivity.
  - vm_compute. reflexivity.
  - vm_compute. reflexivity.
Defined.

Lemma pdfa_names_must_be_array_witness :
  exists e,
    pdfa (H := sample_pdf_collaborators) [60; 62] sample_attachments
         false 2 misnamed_pdf
    = (Raise e,
       with_output_intent (H := sample_pdf_collaborators) false
                          misnamed_catalog misnamed_pdf).
Proof.
  apply (pdfa_names_must_be_array (H := sample_pdf_collaborators)
           [60; 62] sample_attachments false 2 misnamed_pdf misnamed_catalog
           (<["EmbeddedFiles"%string := VRef 1]> ∅) 1%nat).
  - lia.
  - reflexivity.
  - vm_compute. reflexivity.
  - vm_compute. reflexivity.
  - intros l Hl. vm_compute in Hl. discriminate.
Defined.

Lemma relationships_last_wins_witness :
  relationships_of twin_attachments !! "0cc175b9"%string = Some "Source"%string.
Proof.
  apply (relationships_last_wins
           [ {| md5 := Some "0cc175b9"%string; relationship := "Data" |} ]
           {| md5 := Some "0cc175b9"%string; relationship := "Source" |}
           [ {| md5 := Some "92eb5ffe"%string;
                relationship := "Alternative" |} ]
           "0cc175b9"%string).
  - reflexivity.
  - discriminate.
  - intros b Hb. apply list_elem_of_singleton in Hb as ->. discriminate.
Defined.

Lemma pdfa_returns_witness :
  exists pdf',
    pdfa (H := sample_pdf_collaborators) [60; 62] sample_attachments
         false 3 sample_pdf = (Return tt, pdf').
Proof.
  apply (pdfa_returns (H := sample_pdf_collaborators)
           [60; 62] sample_attachments false 3 sample_pdf
           (<["Type"%string := VStr "/Catalog"]> ∅)).
  - reflexivity.
  - intros _. split; [vm_compute; reflexivity|].
    split; [left; vm_compute; reflexivity|].
    intros [|[|[|[|[|[|i]]]]]] d Hi Ht; vm_compute in Hi; try discriminate;
      injection Hi as <-; try (vm_compute in Ht; discriminate).
    eexists. split; vm_compute; reflexivity.
Defined.

(** * More on the drawing of a line *)

(** ** Show strings *)

Lemma scan_app s1 s2 inside :
  scan inside (s1 ++ s2) = scan inside s1 ≫= fun b => scan b s2.
Proof.
  revert inside. induction s1 as [|t s1 IH]; intros inside; [done|].
  destruct t, inside; cbn; by rewrite ?IH.
Qed.

Lemma half_open_snoc s : closed s -> half_open (s ++ [TOpen]).
Proof. unfold closed, half_open. rewrite scan_app. by intros ->. Qed.

Lemma half_open_glyph s digits g :
  half_open s -> half_open (s ++ [TGlyph digits g]).
Proof. unfold half_open. rewrite scan_app. by intros ->. Qed.

Lemma half_open_number s t :
  (exists n, t = TInt n) \/ (exists x, t = TFloat x) ->
  half_open s -> half_open (s ++ [TClose; t; TOpen]).
Proof.
  unfold half_open. rewrite scan_app.
  by intros [[n ->]|[x ->]] ->.
Qed.

Lemma half_open_last s : half_open s -> exists s' t, s = s' ++ [t].
Proof.
  intros Hs. destruct s as [|t0 s0] using rev_ind; [done|]. by eauto.
Qed.

Lemma closed_of_half_open s t :
  half_open (s ++ [t]) ->
  match t with
  | TOpen => closed s
  | _ => closed ((s ++ [t]) ++ [TClose])
  end.
Proof.
  unfold half_open, closed. rewrite !scan_app.
  destruct (scan false s) as [[]|]; destruct t; cbn; done.
Qed.

(** ** Rules for [spec] *)

Section Specs.
Context `{Collaborators}.
Variable R : World -> World -> Prop.
Variable ok : op -> Prop.
Variable expected : exn -> Prop.
Hypothesis R_refl : forall w, R w w.
Hypothesis R_trans : forall w1 w2 w3, R w1 w2 -> R w2 w3 -> R w1 w3.

Lemma spec_ret {A} (a : A) (P : gmap Z Font -> Prop) Q :
  (forall fs, P fs -> Q a fs) -> spec R expected P (mret a) Q.
Proof using R_refl. intros HQ w HP. split; [apply R_refl|by apply HQ]. Qed.

Lemma spec_raise {A} e (P : gmap Z Font -> Prop) (Q : A -> _) :
  expected e -> spec R expected P (raise e) Q.
Proof using R_refl. intros He w HP. split; [apply R_refl|done]. Qed.

Lemma spec_out_of_fuel {A} (P : gmap Z Font -> Prop) (Q : A -> _) :
  spec R expected P out_of_fuel Q.
Proof using R_refl. intros w HP. split; [apply R_refl|done]. Qed.

Lemma spec_get (P : gmap Z Font -> Prop) : spec R expected P get (fun _ => P).
Proof using R_refl. intros w HP. split; [apply R_refl|done]. Qed.

Lemma spec_bind {A B} (m : M World A) (k : A -> M World B) P Q Q' :
  spec R expected P m Q -> (forall a, spec R expected (Q a) (k a) Q') -> spec R expected P (m ≫= k) Q'.
Proof using R_trans.
  intros Hm Hk w HP. destruct (Hm w HP) as [HR Ho].
  unfold mbind, M_bind. destruct (m w) as [[a| |] w1]; cbn in *; try done.
  destruct (Hk a w1 Ho) as [HR' Ho']. split; [|done].
  by eapply R_trans.
Qed.

Lemma spec_bind_ret {A B} (a : A) (k : A -> M World B) P Q :
  spec R expected P (k a) Q -> spec R expected P (mret a ≫= k) Q.
Proof. intros Hk w HP. exact (Hk w HP). Qed.

Lemma spec_conseq {A} (m : M World A) (P P' : gmap Z Font -> Prop)
    (Q Q' : A -> gmap Z Font -> Prop) :
  (forall fs, P' fs -> P fs) -> (forall a fs, Q a fs -> Q' a fs) ->
  spec R expected P m Q -> spec R expected P' m Q'.
Proof.
  intros HP HQ Hm w Hw. destruct (Hm w (HP _ Hw)) as [HR Ho].
  split; [done|]. destruct (fst (m w)); by auto.
Qed.

(** A fact that does not depend on the registry can be taken out of the
    precondition. *)
Lemma spec_pull {A} (m : M World A) (P : gmap Z Font -> Prop) (fact : Prop)
    Q :
  (fact -> spec R expected P m Q) -> spec R expected (fun fs => P fs /\ fact) m Q.
Proof. intros Hm w [HP Hf]. by apply Hm. Qed.

Hypothesis R_emit : forall o w, ok o -> R w (snd (emit o w)).
Hypothesis R_set_fonts : forall fs w, R w (snd (set_fonts fs w)).

Lemma spec_emit o (P : gmap Z Font -> Prop) :
  ok o -> spec R expected P (emit o) (fun _ => P).
Proof using R_emit. intros Ho w HP. split; [by apply R_emit|done]. Qed.

Lemma spec_the_font pango_font (P : gmap Z Font -> Prop) :
  (forall fs, P fs -> registered pango_font fs) ->
  spec R expected P (the_font pango_font)
       (fun f fs => P fs /\ fs !! pango_font = Some f).
Proof using R_refl.
  intros Hreg w HP. unfold the_font. monad_unfold.
  destruct (Hreg _ HP) as [f Hf]. rewrite Hf.
  split; [apply R_refl|done].
Qed.

Lemma spec_add_font pango_font :
  spec R expected (fun _ => True) (add_font pango_font)
       (fun f fs => fs !! pango_font = Some f).
Proof using R_refl R_set_fonts.
  intros w _. unfold add_font. monad_unfold.
  destruct (fonts w !! pango_font) as [f|] eqn:Hf.
  - split; [apply R_refl|done].
  - split; [apply R_set_fonts|]. cbn. apply lookup_insert_eq.
Qed.

Lemma spec_cache_width size pango_font g :
  spec R expected (registered pango_font) (cache_width size pango_font g)
       (fun _ => width_cached pango_font g).
Proof using R_refl R_set_fonts.
  intros w [f Hf]. unfold cache_width, the_font, store_width. monad_unfold.
  rewrite Hf. destruct (font_widths f !! g) as [v|] eqn:Hv.
  - split; [apply R_refl|]. exists f. by rewrite Hv.
  - split; [apply R_set_fonts|]. cbn. eexists. split.
    + rewrite lookup_alter_eq, Hf. done.
    + cbn. rewrite lookup_insert_eq. by eexists.
Qed.

Lemma spec_declared_width pango_font g :
  spec R expected (width_cached pango_font g) (declared_width pango_font g)
       (fun _ => registered pango_font).
Proof using R_refl.
  intros w (f & Hf & v & Hv). unfold declared_width, the_font. monad_unfold.
  rewrite Hf, Hv. split; [apply R_refl|]. by exists f.
Qed.

Lemma spec_py_div a b (P : gmap Z Font -> Prop) :
  expected ZeroDivisionError -> spec R expected P (py_div a b) (fun _ => P).
Proof using R_refl.
  intros He. unfold py_div. destruct (Qeq_bool b 0).
  - by apply spec_raise.
  - by apply spec_ret.
Qed.

Lemma spec_close_string s (P : gmap Z Font -> Prop) :
  half_open s ->
  spec R expected P (close_string s) (fun s' fs => P fs /\ closed s').
Proof using R_refl.
  intros Hs. destruct (half_open_last s Hs) as (s' & t & Heq). subst s.
  apply closed_of_half_open in Hs. unfold close_string.
  rewrite last_snoc.
  destruct t; try (apply spec_ret; by auto).
  rewrite removelast_last. apply spec_ret. by auto.
Qed.

Hypothesis ok_show : forall s, closed s -> ok (show_text s).
Hypothesis ok_rise : forall r, ok (set_text_rise r).

Lemma spec_place_glyph font g offset rise s (P : gmap Z Font -> Prop) :
  half_open s ->
  spec R expected P (place_glyph font g offset rise s)
       (fun s' fs => P fs /\ half_open s').
Proof using R_refl R_trans R_emit ok_show ok_rise.
  intros Hs. unfold place_glyph. destruct (truthy rise).
  - eapply spec_bind; [by apply spec_close_string|].
    intros flushed. cbn beta. apply spec_pull. intros Hflushed.
    eapply spec_bind; [apply spec_emit; by apply ok_show|]. intros ?.
    eapply spec_bind; [apply spec_emit; by apply ok_rise|]. intros ?.
    eapply spec_bind.
    { apply spec_emit. apply ok_show. by destruct (truthy offset). }
    intros ?.
    eapply spec_bind; [apply spec_emit; by apply ok_rise|]. intros ?.
    apply spec_ret. by auto.
  - apply spec_ret. intros fs HP. split; [done|].
    unfold glyph_code. destruct (truthy offset).
    + rewrite app_assoc. apply half_open_glyph.
      apply half_open_number; [|done]. right. by eexists.
    + by apply half_open_glyph.
Qed.

Hypothesis raises_unicode : expected UnicodeError.
Hypothesis raises_parse : expected ParseError.
Hypothesis raises_image : expected UnidentifiedImageError.
Hypothesis raises_zero : expected ZeroDivisionError.

Lemma spec_cache_cmap utf8_text pango_font g previous position :
  spec R expected (registered pango_font)
       (cache_cmap utf8_text pango_font g previous position)
       (fun _ => registered pango_font).
Proof using R_refl R_set_fonts raises_unicode.
  intros w [f Hf]. unfold cache_cmap, the_font, store_cmap. monad_unfold.
  rewrite Hf. destruct (font_cmap f !! g) as [t|].
  - split; [apply R_refl|]. by exists f.
  - destruct (decode _) as [t|].
    + split; [apply R_set_fonts|]. cbn. unfold registered.
      rewrite lookup_alter_eq, Hf. by eexists.
    + split; [apply R_refl|done].
Qed.

Lemma spec_emoji_of size pango_font g declared font x
    (P : gmap Z Font -> Prop) :
  spec R expected P (emoji_of size pango_font g declared font x) (fun _ => P).
Proof using R_refl R_trans raises_parse raises_image raises_zero.
  unfold emoji_of. destruct (font_svg font).
  - case_bool_decide; [by apply spec_ret|].
    destruct (svg_parses _); [|by apply spec_raise].
    eapply spec_bind; [by apply spec_py_div|]. intros a.
    by apply spec_ret.
  - destruct (font_png font); [|by apply spec_ret].
    case_bool_decide; [by apply spec_ret|].
    destruct (image_open _) as [[pw ph]|]; [|by apply spec_raise].
    eapply spec_bind; [by apply spec_py_div|]. intros a.
    by apply spec_ret.
Qed.

(** One step of the glyph loop: the font stays registered, and a glyph
    list stays open. *)
Lemma spec_encode_glyph size utf8_text pango_font positions i gi l :
  half_open (cur_string l) ->
  is_Some (positions !! i) ->
  spec R expected (registered pango_font)
       (encode_glyph size utf8_text pango_font positions i gi l)
       (fun l' fs => registered pango_font fs /\ half_open (cur_string l') /\
                     last_font l' = last_font l).
Proof using All.
  intros Hs [position Hposition]. unfold encode_glyph.
  destruct (no_visible_glyph (glyph_id gi)).
  { apply spec_ret. intros fs Hfs. split; [done|]. split; [|done]. cbn.
    apply half_open_number; [|done]. right. by eexists. }
  rewrite Hposition. apply spec_bind_ret.
  eapply spec_bind; [by apply spec_the_font|]. intros font. cbn beta.
  eapply spec_conseq with (P := registered pango_font)
                          (Q := fun l' fs => _); [by intros fs []| |].
  { intros a fs HQ. exact HQ. }
  eapply spec_bind; [by apply spec_place_glyph|]. intros string. cbn beta.
  apply spec_pull. intros Hstring.
  eapply spec_bind; [apply spec_cache_width|]. intros ?.
  eapply spec_bind; [apply spec_declared_width|]. intros declared.
  eapply spec_bind; [apply spec_cache_cmap|]. intros ?.
  eapply spec_bind; [apply spec_emoji_of|]. intros new_emojis.
  apply spec_ret. intros fs Hfs. split; [done|]. split; [|done]. cbn.
  destruct (_ =? 0); [done|].
  apply half_open_number; [|done]. left. by eexists.
Qed.

Lemma spec_encode_glyphs size utf8_text pango_font positions gs :
  forall i l,
  half_open (cur_string l) ->
  (i + length gs <= length positions)%nat ->
  spec R expected (registered pango_font)
       (encode_glyphs size utf8_text pango_font positions i gs l)
       (fun l' fs => registered pango_font fs /\ half_open (cur_string l') /\
                     last_font l' = last_font l).
Proof using All.
  induction gs as [|gi gs IH]; intros i l Hs Hlen; cbn [encode_glyphs].
  - apply spec_ret. by auto.
  - eapply spec_bind.
    { apply spec_encode_glyph; [done|].
      apply lookup_lt_is_Some. cbn in Hlen. lia. }
    intros l'. cbn beta.
    eapply spec_conseq with (P := fun fs => registered pango_font fs /\
        (half_open (cur_string l') /\ last_font l' = last_font l))
      (Q := fun l'' fs => _); [done| |].
    { intros a fs HQ. exact HQ. }
    apply spec_pull. intros [Hs' Hfont].
    eapply spec_conseq; [| |apply (IH (S i) l' Hs')].
    + done.
    + intros l'' fs (? & ? & ?). split; [done|]. split; [done|]. congruence.
    + cbn in Hlen. lia.
Qed.

Lemma utf8_positions_length run :
  (length (glyphs run) <= length (utf8_positions_of run))%nat.
Proof.
  unfold utf8_positions_of. rewrite length_app, length_map, length_seq.
  cbn. lia.
Qed.

Hypothesis ok_font : forall h s, ok (set_font_size h s).

(** One run: the pending string comes closed and leaves closed. *)
Lemma spec_encode_run size utf8_text run l :
  closed (cur_string l) ->
  spec R expected (fun _ => True) (encode_run size utf8_text run l)
       (fun l' _ => closed (cur_string l')).
Proof using All.
  intros Hs. unfold encode_run.
  eapply spec_bind; [apply spec_add_font|]. intros font. cbn beta.
  eapply spec_conseq with (P := registered (analysis_font run))
                          (Q := fun l' fs => _);
    [by intros fs ?; eexists| |].
  { intros a fs HQ. exact HQ. }
  eapply spec_bind with
    (Q := fun l1 fs => registered (analysis_font run) fs /\
                       closed (cur_string l1)).
  { case_bool_decide.
    - apply spec_ret. by auto.
    - eapply spec_bind with (Q := fun _ => registered (analysis_font run)).
      { destruct (cur_string l) eqn:Hcur; [by apply spec_ret|].
        apply spec_emit. apply ok_show. by rewrite ?Hcur in Hs. }
      intros ?.
      eapply spec_bind; [apply spec_emit, ok_font|]. intros ?.
      apply spec_ret. by auto. }
  intros l1. cbn beta. apply spec_pull. intros Hl1.
  eapply spec_bind.
  { apply spec_encode_glyphs.
    - cbn. by apply half_open_snoc.
    - apply utf8_positions_length. }
  intros l2. cbn beta.
  eapply spec_conseq with
    (P := fun fs => registered (analysis_font run) fs /\
                    (half_open (cur_string l2) /\ _))
    (Q := fun l' fs => _); [done| |].
  { intros a fs HQ. exact HQ. }
  apply spec_pull. intros [Hl2 _].
  eapply spec_bind; [by apply spec_close_string|]. intros string. cbn beta.
  apply spec_ret. by intros fs [_ ?].
Qed.

Lemma spec_encode_runs size utf8_text runs :
  forall l,
  closed (cur_string l) ->
  spec R expected (fun _ => True) (encode_runs size utf8_text runs l)
       (fun l' _ => closed (cur_string l')).
Proof using All.
  induction runs as [|run runs IH]; intros l Hs; cbn [encode_runs].
  - by apply spec_ret.
  - eapply spec_bind; [by apply spec_encode_run|]. intros l'. cbn beta.
    eapply spec_conseq with (P := fun fs => True /\ closed (cur_string l'))
                            (Q := fun l'' fs => _); [by auto| |].
    { intros a fs HQ. exact HQ. }
    apply spec_pull. apply IH.
Qed.

Hypothesis R_set_layout : forall l w, R w (snd (set_layout l w)).
Hypothesis ok_matrix : forall a b c d e f, ok (set_text_matrix a b c d e f).
Hypothesis raises_assertion : expected AssertionError.
Hypothesis raises_unbound : expected UnboundLocalError.
Hypothesis raises_null : expected NullPointer.

Lemma spec_set_layout l (P : gmap Z Font -> Prop) :
  spec R expected P (set_layout l) (fun _ => P).
Proof using R_set_layout. intros w HP. split; [apply R_set_layout|done]. Qed.

Lemma spec_set_text t (P : gmap Z Font -> Prop) :
  spec R expected P (set_text t) (fun _ => P).
Proof using R_set_layout. intros w HP. split; [apply R_set_layout|done]. Qed.

Lemma spec_get_bind {A} (k : World -> M World A)
    (P : gmap Z Font -> Prop) Q :
  (forall w0, spec R expected P (k w0) Q) -> spec R expected P (get ≫= k) Q.
Proof. intros Hk w HP. exact (Hk w w HP). Qed.

Lemma spec_truncation_loop fuel ellipsis lang (P : gmap Z Font -> Prop) :
  forall line,
  spec R expected P (truncation_loop fuel ellipsis lang line) (fun _ => P).
Proof using R_refl R_trans R_set_layout raises_unbound.
  induction fuel as [|fuel IH]; intros line; cbn [truncation_loop].
  - destruct (index_truthy _); [|by apply spec_ret].
    destruct ellipsis as [ellipsis|]; [|by apply spec_raise].
    apply spec_get_bind. intros w0.
    destruct (get_last_word_end _ _);
      [apply spec_out_of_fuel|by apply spec_ret].
  - destruct (index_truthy _); [|by apply spec_ret].
    destruct ellipsis as [ellipsis|]; [|by apply spec_raise].
    apply spec_get_bind. intros w0.
    destruct (get_last_word_end _ _) as [k|]; [|by apply spec_ret].
    eapply spec_bind; [apply spec_set_text|]. intros ?.
    apply spec_get_bind. intros w1. apply IH.
Qed.

Lemma spec_prepare_layout textbox text_overflow block_ellipsis
    (P : gmap Z Font -> Prop) :
  spec R expected P (prepare_layout textbox text_overflow block_ellipsis)
       (fun _ => P).
Proof using R_refl R_trans R_set_layout raises_assertion.
  unfold prepare_layout. destruct (_ || _); [|by apply spec_ret].
  apply spec_get_bind. intros w0.
  destruct (max_width _); [|by apply spec_raise].
  eapply spec_bind; [apply spec_set_layout|]. intros ?.
  destruct (is_ellipsis _).
  - apply spec_get_bind. intros w1.
    eapply spec_bind; [apply spec_set_layout|]. intros ?.
    by apply spec_ret.
  - eapply spec_bind with (Q := fun _ => P).
    { destruct block_ellipsis;
        [by apply spec_raise|by apply spec_ret|by apply spec_ret]. }
    intros ellipsis. apply spec_get_bind. intros w1.
    eapply spec_bind; [apply spec_set_text|]. intros ?.
    by apply spec_ret.
Qed.

(** Drawing a line, as a whole. *)
Lemma spec_draw_first_line fuel textbox text_overflow block_ellipsis matrix :
  spec R expected (fun _ => True)
       (draw_first_line fuel textbox text_overflow block_ellipsis matrix)
       (fun _ _ => True).
Proof using All.
  unfold draw_first_line.
  case_bool_decide; [by apply spec_ret|].
  destruct (Qlt_bool _ _); [by apply spec_ret|].
  apply spec_get_bind. intros w0.
  eapply spec_bind; [apply spec_set_layout|]. intros ?.
  eapply spec_bind; [apply spec_prepare_layout|]. intros ellipsis.
  apply spec_get_bind. intros w1.
  eapply spec_bind with (Q := fun _ _ => True).
  { destruct (not_none _); [apply spec_truncation_loop|by apply spec_ret]. }
  intros line. apply spec_get_bind. intros w2.
  eapply spec_bind with (Q := fun _ _ => True).
  { destruct (encode _); [by apply spec_ret|by apply spec_raise]. }
  intros utf8_text. destruct matrix as [[[[[ma mb] mc] md] me] mf].
  eapply spec_bind; [apply spec_emit, ok_matrix|]. intros ?.
  destruct (fst line) as [|run runs] eqn:Hruns; [by apply spec_raise|].
  eapply spec_bind; [by apply spec_encode_runs|]. intros l. cbn beta.
  eapply spec_conseq with (P := fun fs => True /\ closed (cur_string l))
                          (Q := fun _ _ => True); [by auto|done|].
  apply spec_pull. intros Hl.
  eapply spec_bind; [apply spec_emit; by apply ok_show|]. intros ?.
  by apply spec_ret.
Qed.

End Specs.

(** ** What a line sends *)

Lemma sends_refl ok w : sends ok w w.
Proof. exists []. by rewrite app_nil_r. Qed.

Lemma sends_trans ok w1 w2 w3 :
  sends ok w1 w2 -> sends ok w2 w3 -> sends ok w1 w3.
Proof.
  intros (ops1 & H1 & Hok1) (ops2 & H2 & Hok2). exists (ops1 ++ ops2).
  split; [by rewrite H2, H1, app_assoc|]. by apply Forall_app.
Qed.

Lemma sends_emit (ok : op -> Prop) o w : ok o -> sends ok w (snd (emit o w)).
Proof. intros Ho. exists [o]. split; [done|]. by apply Forall_singleton. Qed.

Lemma sends_set_fonts ok fs w : sends ok w (snd (set_fonts fs w)).
Proof. exists []. by rewrite app_nil_r. Qed.

Lemma sends_set_layout ok l w : sends ok w (snd (set_layout l w)).
Proof. exists []. by rewrite app_nil_r. Qed.

Section Line.
Context `{Collaborators}.

(** Whatever drawing a line ends with, it has sent text operators only,
    and every string shown is well formed. *)
Lemma line_sends fuel textbox text_overflow block_ellipsis matrix w :
  sends text_operator w
    (snd (draw_first_line fuel textbox text_overflow block_ellipsis matrix w)).
Proof.
  apply (spec_draw_first_line (sends text_operator) text_operator
           (fun _ => True)); try done.
  - apply sends_refl.
  - apply sends_trans.
  - apply sends_emit.
  - apply sends_set_fonts.
  - apply sends_set_layout.
Qed.

(** What drawing a line raises. *)
Lemma line_raises fuel textbox text_overflow block_ellipsis matrix w :
  match fst (draw_first_line fuel textbox text_overflow block_ellipsis
                             matrix w) with
  | Raise e => e ∈ drawing_errors
  | _ => True
  end.
Proof.
  destruct (spec_draw_first_line (fun _ _ => True) (fun _ => True)
              (fun e => e ∈ drawing_errors)
              ltac:(done) ltac:(done) ltac:(done) ltac:(done)
              ltac:(done) ltac:(done)
              ltac:(unfold drawing_errors; set_solver)
              ltac:(unfold drawing_errors; set_solver)
              ltac:(unfold drawing_errors; set_solver)
              ltac:(unfold drawing_errors; set_solver)
              ltac:(done) ltac:(done) ltac:(done)
              ltac:(unfold drawing_errors; set_solver)
              ltac:(unfold drawing_errors; set_solver)
              ltac:(unfold drawing_errors; set_solver)
              fuel textbox text_overflow block_ellipsis matrix w I)
    as [_ Ho].
  by destruct (fst _).
Qed.

(** X8.  Whatever drawing a line ends with, what it has sent to the stream
    are text operators only: the text matrix, the choice of a font, rises
    and strings shown; and in every string shown the glyph lists are closed,
    do not nest, hold the glyph codes, and have the numbers between
    them. *)
Theorem line_sends_text_operators fuel textbox text_overflow block_ellipsis
    matrix w :
  exists ops,
    stream (snd (draw_first_line fuel textbox text_overflow block_ellipsis
                                 matrix w)) = stream w ++ ops /\
    Forall text_operator ops.
Proof. apply line_sends. Qed.

(** X9.  Drawing a line raises nothing but an assertion error, an unbound
    local, a text that cannot be encoded or decoded, a line without runs, a
    picture that cannot be read, or a division by zero.  So the lookups of
    the glyph loop, [string[-1]], [utf8_positions[i]] and
    [font.widths[glyph]], never fail. *)
Theorem line_raises_expected fuel textbox text_overflow block_ellipsis
    matrix w e w' :
  draw_first_line fuel textbox text_overflow block_ellipsis matrix w
    = (Raise e, w') ->
  e ∈ drawing_errors /\ e <> IndexError /\ e <> KeyError.
Proof.
  intros Hrun.
  pose proof (line_raises fuel textbox text_overflow block_ellipsis matrix w)
    as He.
  rewrite Hrun in He. cbn in He. split; [done|].
  unfold drawing_errors in He. split; intros ->; set_solver.
Qed.

Lemma Qlt_bool_false (a b : Q) : (b <= a)%Q -> Qlt_bool a b = false.
Proof.
  intros Hle. unfold Qlt_bool. apply negb_false_iff. by apply Qle_bool_iff.
Qed.

(** X10.  With [text-overflow: ellipsis] and a [block-ellipsis] that is not
    [none], a line that does not fit ends the draw with an unbound local:
    the loop that shortens the text reads [ellipsis], which only the other
    branch assigns.  Nothing has been sent to the stream then, and the
    layout has been set up for an ellipsis at the end. *)
Theorem ellipsis_unbound fuel textbox block_ellipsis matrix w width :
  strip (box_text textbox) <> [] ->
  (pydyf_precision <= font_size (style textbox))%Q ->
  not_none block_ellipsis = true ->
  max_width (pango_layout w) = Some width ->
  let shaped :=
    with_ellipsize
      (with_width (with_single_paragraph_mode (pango_layout w) true)
                  (units_from_double width)) true in
  index_truthy (snd (get_first_line shaped)) = true ->
  draw_first_line fuel textbox overflow_ellipsis block_ellipsis matrix w
  = (Raise UnboundLocalError,
     {| stream := stream w; fonts := fonts w; pango_layout := shaped |}).
Proof.
  intros Htext Hsize Hblock Hwidth shaped Hindex.
  unfold draw_first_line.
  rewrite bool_decide_eq_false_2 by done.
  rewrite Qlt_bool_false by done.
  unfold prepare_layout. cbn [is_ellipsis orb].
  unfold set_layout. monad_unfold. cbn [pango_layout stream fonts].
  change (max_width (with_single_paragraph_mode (pango_layout w) true))
    with (max_width (pango_layout w)).
  rewrite Hwidth. cbn [pango_layout stream fonts]. rewrite Hblock.
  fold shaped.
  assert (Hloop : forall w0,
            truncation_loop fuel None (lang (style textbox))
                            (get_first_line shaped) w0
            = (Raise UnboundLocalError, w0)).
  { intros w0. destruct fuel; cbn [truncation_loop]; by rewrite Hindex. }
  by rewrite Hloop.
Qed.

End Line.

Lemma line_raises_expected_witness :
  UnidentifiedImageError ∈ drawing_errors /\
  UnidentifiedImageError <> IndexError /\
  UnidentifiedImageError <> KeyError.
Proof.
  eapply (line_raises_expected (H := broken_picture_engine) 0
            (sample_textbox [72; 105] 12) clip be_none
            (1, 0, 0, -1, 0, 10)%Q (sample_world [72; 105])).
  vm_compute. reflexivity.
Defined.

Lemma ellipsis_unbound_witness :
  draw_first_line (H := narrow_engine) 3
                  (sample_textbox the_quick_brown_fox 12)
                  overflow_ellipsis be_auto (1, 0, 0, -1, 0, 10)%Q
                  (sample_world the_quick_brown_fox)
  = (Raise UnboundLocalError,
     {| stream := []; fonts := ∅;
        pango_layout :=
          with_ellipsize
            (with_width
               (with_single_paragraph_mode
                  (sample_layout the_quick_brown_fox) true)
               (units_from_double 100)) true |}).
Proof.
  apply (ellipsis_unbound (H := narrow_engine) 3
           (sample_textbox the_quick_brown_fox 12) be_auto
           (1, 0, 0, -1, 0, 10)%Q (sample_world the_quick_brown_fox) 100%Q).
  - vm_compute. discriminate.
  - vm_compute. discriminate.
  - reflexivity.
  - reflexivity.
  - vm_compute. reflexivity.
Defined.

(** ** The text object of a textbox *)

Lemma extend_nil w : extend w [] = w.
Proof. destruct w. unfold extend. cbn. by rewrite app_nil_r. Qed.

Lemma extend_extend w ops1 ops2 :
  extend (extend w ops1) ops2 = extend w (ops1 ++ ops2).
Proof. unfold extend. cbn. by rewrite app_assoc. Qed.

Lemma emit_run o w : emit o w = (Return tt, extend w [o]).
Proof. done. Qed.

Lemma bind_stop {S A B} (m : M S A) (k : A -> M S B) s s1 :
  (exists e, m s = (Raise e, s1)) \/ m s = (OutOfFuel, s1) ->
  snd ((m ≫= k) s) = s1 /\
  forall b, fst ((m ≫= k) s) <> Return b.
Proof. monad_unfold. by intros [[e ->]| ->]. Qed.

Section TextObject.
Context `{Collaborators}.

Lemma draw_emojis_run size x y ems w :
  draw_emojis size x y ems w
  = (Return tt, extend w (flat_map (emoji_block size x y) ems)).
Proof.
  revert w. induction ems as [|em ems IH]; intros w.
  - cbn. by rewrite extend_nil.
  - cbn [draw_emojis flat_map].
    rewrite !(bind_run _ _ _ _ _ (emit_run _ _)).
    rewrite IH, !extend_extend. done.
Qed.

Lemma emoji_blocks_outside size x y ems :
  Forall outside_text (flat_map (emoji_block size x y) ems).
Proof.
  induction ems as [|em ems IH]; [done|]. cbn [flat_map].
  apply Forall_app. split; [|done]. by repeat constructor.
Qed.

(** A decoration, drawn or not. *)
Lemma decoration_run name (offset_y thickness : World -> Q) textbox
    offset_x w :
  (if bool_decide (name ∈ text_decoration_line (style textbox)) then
     w ← get;
     draw_text_decoration textbox offset_x (offset_y w) (thickness w)
                          (text_decoration_color (style textbox))
   else mret tt) w
  = (Return tt,
     extend w (decoration name textbox offset_x (offset_y w) (thickness w))).
Proof.
  unfold decoration. case_bool_decide; [reflexivity|].
  by rewrite extend_nil.
Qed.

(** X11.  Drawing a visible textbox whose font size is not 0 sends the
    overline and the underline the style asks for, the colour, the alpha
    and the beginning of a text object; then what drawing the line sends,
    which are text operators only.  When the line is drawn, the text object
    is ended, one picture is drawn for each emoji the line has returned,
    in their order, then the line through the text if the style asks for
    it, and [draw_text] returns.  When drawing the line ends with an
    exception, [draw_text] ends with it and nothing more is sent: the text
    object is left open. *)
Theorem draw_text_text_object fuel textbox offset_x text_overflow
    block_ellipsis w :
  ~ (font_size (style textbox) == 0)%Q ->
  visibility (style textbox) = "visible"%string ->
  let x := position_x textbox in
  let y := fadd (position_y textbox) (baseline textbox) in
  let opening := text_opening textbox offset_x (pango_layout w) in
  let line :=
    draw_first_line fuel textbox text_overflow block_ellipsis
                    (1, 0, 0, -1, x, y)%Q (extend w opening) in
  let result :=
    draw_text fuel textbox offset_x text_overflow block_ellipsis w in
  exists inside,
    Forall text_operator inside /\
    stream (snd line) = stream w ++ opening ++ inside /\
    match fst line with
    | Return emojis =>
        fst result = Return tt /\
        stream (snd result)
        = stream w ++ opening ++ inside ++
          end_text ::
          flat_map (emoji_block (font_size (style textbox)) x y) emojis ++
          line_through textbox offset_x (pango_layout (snd line))
    | Raise e =>
        fst result = Raise e /\
        stream (snd result) = stream w ++ opening ++ inside
    | OutOfFuel =>
        fst result = OutOfFuel /\
        stream (snd result) = stream w ++ opening ++ inside
    end.
Proof.
  intros Hsize Hvisible x y opening line result.
  assert (Hz : Qeq_bool (font_size (style textbox)) 0 = false).
  { destruct (Qeq_bool _ 0) eqn:Hz; [|done].
    by apply Qeq_bool_iff in Hz. }
  pose proof (line_sends fuel textbox text_overflow block_ellipsis
                (1, 0, 0, -1, x, y)%Q (extend w opening))
    as (inside & Hinside & Htext).
  fold line in Hinside.
  exists inside. split; [done|].
  assert (Hopened : stream (snd line) = stream w ++ opening ++ inside).
  { rewrite Hinside. cbn [extend stream]. by rewrite <- app_assoc. }
  split; [done|].
  assert (Hstart : forall (k : list Emoji -> M World unit),
            result = (draw_first_line fuel textbox text_overflow
                        block_ellipsis (1, 0, 0, -1, x, y)%Q ≫= k)
                       (extend w opening) ->
            match fst line with
            | Return emojis => result = k emojis (snd line)
            | Raise e => result = (Raise e, snd line)
            | OutOfFuel => result = (OutOfFuel, snd line)
            end).
  { intros k ->. fold line. unfold mbind, M_bind.
    fold line. by destruct line as [[ems|e|] w2]. }
  subst result. unfold draw_text in *. rewrite Hz in *.
  rewrite bool_decide_eq_true_2 in * by done. cbn [negb] in *.
  subst opening. unfold text_opening in *.
  destruct (color (style textbox)) as [[[r g] b] alpha].
  erewrite bind_run in *
    by apply (decoration_run "overline"
                (fun w => fadd (fsub (baseline textbox)
                                     (ascent (pango_layout w)))
                               (fdiv (underline_thickness (pango_layout w)) 2))
                (fun w => underline_thickness (pango_layout w))).
  erewrite bind_run in *
    by apply (decoration_run "underline"
                (fun w => fadd (fsub (baseline textbox)
                                     (underline_position (pango_layout w)))
                               (fdiv (underline_thickness (pango_layout w)) 2))
                (fun w => underline_thickness (pango_layout w))).
  rewrite !(bind_run _ _ _ _ _ (emit_run _ _)) in *.
  rewrite !extend_extend in *.
  cbn [extend pango_layout] in Hstart.
  fold (overline textbox offset_x (pango_layout w)) in Hstart.
  fold (underline textbox offset_x (pango_layout w)) in Hstart.
  specialize (Hstart _ eq_refl).
  destruct (fst line) as [ems|e|].
  - cbn [extend pango_layout].
    fold (overline textbox offset_x (pango_layout w)).
    fold (underline textbox offset_x (pango_layout w)).
    rewrite Hstart.
    rewrite (bind_run _ _ _ _ _ (emit_run _ _)).
    erewrite bind_run by apply draw_emojis_run.
    rewrite (decoration_run "line-through"
               (fun w => fsub (baseline textbox)
                              (strikethrough_position (pango_layout w)))
               (fun w => strikethrough_thickness (pango_layout w))).
    split; [done|]. cbn [snd extend stream pango_layout].
    rewrite Hopened. unfold line_through. by rewrite <- !app_assoc.
  - cbn [extend pango_layout].
    fold (overline textbox offset_x (pango_layout w)).
    fold (underline textbox offset_x (pango_layout w)).
    by rewrite Hstart.
  - cbn [extend pango_layout].
    fold (overline textbox offset_x (pango_layout w)).
    fold (underline textbox offset_x (pango_layout w)).
    by rewrite Hstart.
Qed.

End TextObject.

(** "Hi" at size 12 in black, undecorated: the second glyph is raised and
    shown alone inside the text object, and no picture follows. *)
Lemma draw_text_text_object_witness :
  exists inside,
    Forall text_operator inside /\
    fst (draw_text (H := raised_engine) 0 (sample_textbox [72; 105] 12) 0
                   clip be_none (sample_world [72; 105])) = Return tt /\
    stream (snd (draw_text (H := raised_engine) 0
                   (sample_textbox [72; 105] 12) 0 clip be_none
                   (sample_world [72; 105])))
    = [] ++ [set_color_rgb 0 0 0; set_alpha 1; begin_text] ++ inside ++
      end_text :: [] ++ [].
Proof.
  destruct (draw_text_text_object (H := raised_engine) 0
              (sample_textbox [72; 105] 12) 0 clip be_none
              (sample_world [72; 105]))
    as (inside & Hinside & _ & Hdrawn).
  - intros Hq. vm_compute in Hq. discriminate.
  - reflexivity.
  - exists inside. split; [exact Hinside|]. exact Hdrawn.
Defined.

(** ** Triples over the world *)

Lemma triple_bind {A B} (m : M World A) (k : A -> M World B) P Q Q' X :
  triple P m Q X -> (forall a, triple (Q a) (k a) Q' X) ->
  triple P (m ≫= k) Q' X.
Proof.
  intros Hm Hk w HP. specialize (Hm w HP). unfold mbind, M_bind.
  destruct (m w) as [[a| |] w1]; cbn in *; try done. by apply Hk.
Qed.

Lemma triple_get_bind {A} (k : World -> M World A) (P : World -> Prop) Q X :
  (forall w0, triple (fun w => P w /\ w = w0) (k w0) Q X) ->
  triple P (get ≫= k) Q X.
Proof. intros Hk w HP. exact (Hk w w (conj HP eq_refl)). Qed.

Lemma triple_conseq {A} (m : M World A) (P P' : World -> Prop)
    (Q Q' : A -> World -> Prop) (X X' : World -> Prop) :
  (forall w, P' w -> P w) -> (forall a w, Q a w -> Q' a w) ->
  (forall w, X w -> X' w) ->
  triple P m Q X -> triple P' m Q' X'.
Proof.
  intros HP HQ HX Hm w Hw. specialize (Hm w (HP _ Hw)).
  destruct (fst (m w)); by auto.
Qed.

Lemma triple_ret {A} (a : A) (P : World -> Prop) Q X :
  (forall w, P w -> Q a w) -> triple P (mret a) Q X.
Proof. intros HQ w HP. by apply HQ. Qed.

Lemma triple_raise {A} e (P : World -> Prop) (Q : A -> World -> Prop) X :
  (forall w, P w -> X w) -> triple P (raise e) Q X.
Proof. intros HX w HP. by apply HX. Qed.

(** ** The font of a run *)

Section RunSent.
Context `{Collaborators}.
Variables (start : show_string) (base : list op).









End RunSent.

Section FontChoice.
Context `{Collaborators}.


End FontChoice.


(** ** The text of a line cut for an ellipsis *)

Lemma py_slice_to_prefix {A} (k : Z) (l : list A) :
  py_slice_to k l `prefix_of` l.
Proof.
  unfold py_slice_to, py_slice.
  replace (slice_bound (Z.of_nat (length l)) 0) with 0
    by (unfold slice_bound; cbn; lia).
  cbn [Z.to_nat skipn]. apply prefix_take.
Qed.

Section Cut.
Context `{Collaborators}.
Variables original ellipsis : text.
Hypothesis last_word_end_in_text :
  forall t lang k,
    get_last_word_end t lang = Some k -> 0 <= k <= Z.of_nat (length t).

Lemma cut_same_layout w w' :
  same_layout w w' ->
  cut_with_ellipsis original ellipsis w ->
  cut_with_ellipsis original ellipsis w'.
Proof. unfold cut_with_ellipsis, same_layout. by intros ->. Qed.

(** Cutting at the end of the last word keeps a part of the original. *)
Lemma cut_again kept lang k :
  kept `prefix_of` original ->
  get_last_word_end
    (py_slice_to (- Z.of_nat (length ellipsis)) (kept ++ ellipsis)) lang
    = Some k ->
  py_slice_to k (kept ++ ellipsis) `prefix_of` original.
Proof using last_word_end_in_text.
  intros Hkept Hend. apply last_word_end_in_text in Hend.
  destruct ellipsis as [|c ellipsis'] eqn:He.
  - cbn in Hend. rewrite py_slice_to_zero in Hend. cbn in Hend.
    assert (k = 0) as -> by lia. rewrite py_slice_to_zero.
    apply prefix_nil.
  - rewrite <- He in *.
    assert (0 < length ellipsis)%nat by (rewrite He; cbn; lia).
    rewrite py_slice_to_neg in Hend by done.
    rewrite length_app in Hend.
    replace (length kept + length ellipsis - length ellipsis)%nat
      with (length kept) in Hend by lia.
    rewrite take_app_length in Hend.
    rewrite py_slice_to_firstn by (rewrite length_app; lia).
    rewrite take_app_le by lia.
    etrans; [apply prefix_take|done].
Qed.

Lemma truncation_loop_cut fuel lang :
  forall line,
  triple (cut_with_ellipsis original ellipsis)
         (truncation_loop fuel (Some ellipsis) lang line)
         (fun _ => cut_with_ellipsis original ellipsis)
         (cut_with_ellipsis original ellipsis).
Proof using last_word_end_in_text.
  induction fuel as [|fuel IH]; intros line w Hcut;
    pose proof Hcut as (kept & Hkept & Htext);
    cbn [truncation_loop]; (destruct (index_truthy _); [|done]);
    monad_unfold; rewrite Htext;
    (destruct (get_last_word_end _ _) as [k|] eqn:Hend; [|done]).
  - done.
  - apply IH. exists (py_slice_to k (kept ++ ellipsis)).
    split; [by eapply cut_again|done].
Qed.

End Cut.

Section CutLine.
Context `{Collaborators}.

Lemma prepare_layout_cut textbox block_ellipsis original width :
  not_none block_ellipsis = true ->
  triple (fun w => layout_text (pango_layout w) = original /\
                   max_width (pango_layout w) = Some width)
         (prepare_layout textbox clip block_ellipsis)
         (fun ellipsis w =>
            ellipsis = Some (ellipsis_of block_ellipsis) /\
            cut_with_ellipsis original (ellipsis_of block_ellipsis) w)
         (cut_with_ellipsis original (ellipsis_of block_ellipsis)).
Proof.
  intros Hblock w [Htext Hwidth]. unfold prepare_layout.
  cbn [is_ellipsis orb]. rewrite Hblock.
  unfold set_text, set_layout. monad_unfold. rewrite Hwidth.
  destruct block_ellipsis as [| |s]; [done|..];
    cbn [fst snd pango_layout stream fonts layout_text with_width with_text
         ellipsis_of];
    rewrite Htext; (split; [done|]); eexists; (split; [|reflexivity]);
    (destruct (endswith _ _); [|reflexivity]);
    (destruct (get_last_word_end _ _) as [k|]; [|reflexivity]);
    (destruct (k =? 0); [reflexivity|]); apply py_slice_to_prefix.
Qed.

(** The strings of the runs come closed, so drawing them keeps the
    layout. *)
Lemma encode_runs_same_layout size utf8_text runs l w :
  closed (cur_string l) ->
  same_layout w (snd (encode_runs size utf8_text runs l w)).
Proof.
  intros Hl.
  apply (spec_encode_runs same_layout (fun _ => True) (fun _ => True));
    try done.
  intros w1 w2 w3. unfold same_layout. congruence.
Qed.

Lemma line_cut fuel textbox block_ellipsis matrix original width :
  (forall t lang k,
     get_last_word_end t lang = Some k -> 0 <= k <= Z.of_nat (length t)) ->
  strip (box_text textbox) <> [] ->
  (pydyf_precision <= font_size (style textbox))%Q ->
  not_none block_ellipsis = true ->
  triple (fun w => layout_text (pango_layout w) = original /\
                   max_width (pango_layout w) = Some width)
         (draw_first_line fuel textbox clip block_ellipsis matrix)
         (fun _ => cut_with_ellipsis original (ellipsis_of block_ellipsis))
         (cut_with_ellipsis original (ellipsis_of block_ellipsis)).
Proof.
  intros Hinside Htext Hsize Hblock.
  set (cut := cut_with_ellipsis original (ellipsis_of block_ellipsis)).
  assert (Hstable : forall w ops, cut w -> cut (extend w ops)).
  { intros w ops. by apply cut_same_layout. }
  unfold draw_first_line.
  rewrite bool_decide_eq_false_2 by done.
  rewrite Qlt_bool_false by done.
  apply triple_get_bind. intros w0.
  eapply triple_bind with
    (Q := fun _ w => layout_text (pango_layout w) = original /\
                     max_width (pango_layout w) = Some width).
  { intros w [[Ht Hw] ->]. done. }
  intros ?.
  eapply triple_bind; [by apply prepare_layout_cut|].
  intros ellipsis. apply triple_get_bind. intros w1. rewrite Hblock.
  eapply triple_bind with (Q := fun _ => cut).
  { intros w [[-> Hcut] ->]. by apply truncation_loop_cut. }
  intros line. apply triple_get_bind. intros w2.
  eapply triple_bind with (Q := fun _ => cut).
  { destruct (encode _).
    - apply triple_ret. by intros w [].
    - apply triple_raise. by intros w []. }
  intros utf8_text. destruct matrix as [[[[[ma mb] mc] md] me] mf].
  eapply triple_bind with (Q := fun _ => cut).
  { intros w Hcut. rewrite emit_run. by apply Hstable. }
  intros ?.
  destruct (fst line) as [|run runs]; [by apply triple_raise|].
  eapply triple_bind with (Q := fun _ => cut).
  { intros w Hcut.
    pose proof (encode_runs_same_layout (font_size (style textbox)) utf8_text
                  (run :: runs) initial_locals w eq_refl) as Hsame.
    destruct (fst _); by eapply cut_same_layout. }
  intros l.
  eapply triple_bind with (Q := fun _ => cut).
  { intros w Hcut. rewrite emit_run. by apply Hstable. }
  intros ?. by apply triple_ret.
Qed.

(** X13.  In block-ellipsis mode ([block-ellipsis] is not [none] and
    [text-overflow] is not [ellipsis]), for a text that is not blank, a
    font size of at least the precision [1e-6] and a layout that has a
    maximal width, with a word breaker that places the end of the last word
    inside the text it is given: whatever drawing the line ends with, the
    text left on the layout is a part of the text it had, from its start,
    followed by the ellipsis. *)
Theorem block_ellipsis_cuts_text fuel textbox block_ellipsis matrix w width :
  (forall t lang k,
     get_last_word_end t lang = Some k -> 0 <= k <= Z.of_nat (length t)) ->
  strip (box_text textbox) <> [] ->
  (pydyf_precision <= font_size (style textbox))%Q ->
  not_none block_ellipsis = true ->
  max_width (pango_layout w) = Some width ->
  exists kept,
    kept `prefix_of` layout_text (pango_layout w) /\
    layout_text (pango_layout
      (snd (draw_first_line fuel textbox clip block_ellipsis matrix w)))
    = kept ++ ellipsis_of block_ellipsis.
Proof.
  intros Hinside Htext Hsize Hblock Hwidth.
  pose proof (line_cut fuel textbox block_ellipsis matrix
                (layout_text (pango_layout w)) width
                Hinside Htext Hsize Hblock w (conj eq_refl Hwidth)) as Hcut.
  by destruct (fst _).
Qed.

End CutLine.

Lemma block_ellipsis_cuts_text_witness :
  exists kept,
    kept `prefix_of` the_quick_brown_fox /\
    layout_text (pango_layout
      (snd (draw_first_line (H := narrow_engine) 1
              (sample_textbox the_quick_brown_fox 12) clip be_auto
              (1, 0, 0, -1, 0, 10)%Q (sample_world the_quick_brown_fox))))
    = kept ++ [0x2026].
Proof.
  apply (block_ellipsis_cuts_text (H := narrow_engine) 1
           (sample_textbox the_quick_brown_fox 12) be_auto
           (1, 0, 0, -1, 0, 10)%Q (sample_world the_quick_brown_fox) 100%Q).
  - intros t lang k Hk. apply space_breaker_inside in Hk. lia.
  - vm_compute. discriminate.
  - vm_compute. discriminate.
  - reflexivity.
  - reflexivity.
Defined.

(** ** The caches when a line is drawn *)

Section Known.
Context `{Collaborators}.

Ltac preserving :=
  first [ apply caches_preserved_refl | apply caches_preserved_trans
        | apply preserving_add_font | apply preserving_cache_width
        | apply preserving_cache_cmap | apply preserving_place_glyph
        | (intros; intros w; by apply caches_preserved_fonts) ].

Lemma preserving_encode_runs size utf8_text runs l :
  keeps caches_preserved (encode_runs size utf8_text runs l).
Proof. apply keeps_encode_runs; preserving. Qed.

Lemma glyph_known_preserved pango_font g w w' :
  caches_preserved w w' ->
  glyph_known pango_font g w -> glyph_known pango_font g w'.
Proof.
  intros Hp (f & Hf & [v Hv] & [t Ht]).
  destruct (Hp pango_font f Hf) as (f' & Hf' & Hstable).
  destruct Hstable as (_ & _ & _ & _ & _ & Hw & Hc).
  exists f'. split; [done|]. split; eexists; eauto.
Qed.

(** A visible glyph is known once its step of the loop has returned. *)
Lemma encode_glyph_known size utf8_text pango_font positions i gi l w l' w' :
  no_visible_glyph (glyph_id gi) = false ->
  encode_glyph size utf8_text pango_font positions i gi l w
    = (Return l', w') ->
  glyph_known pango_font (glyph_id gi) w'.
Proof.
  intros Hvis Hrun.
  destruct (encode_glyph_inv _ _ _ _ _ _ _ _ _ _ Hvis Hrun)
    as (position & font & string & w1 & w2 & declared & new_emojis &
        _ & _ & _ & _ & Hdw & Hcc & _).
  apply declared_width_inv in Hdw as (_ & f2 & Hf2 & Hdeclared).
  unfold cache_cmap, the_font, store_cmap, set_fonts in Hcc.
  monad_unfold. rewrite Hf2 in Hcc.
  destruct (font_cmap f2 !! glyph_id gi) as [t|] eqn:Ht.
  - injection Hcc as <-. exists f2. split; [done|]. split; by eexists.
  - destruct (decode _) as [t|]; [|done]. injection Hcc as <-.
    eexists. split.
    + cbn. rewrite lookup_alter_eq, Hf2. done.
    + cbn. rewrite lookup_insert_eq. split; by eexists.
Qed.

Lemma encode_glyphs_known size utf8_text pango_font positions gs :
  forall i l w l' w',
  encode_glyphs size utf8_text pango_font positions i gs l w
    = (Return l', w') ->
  forall gi, gi ∈ gs -> no_visible_glyph (glyph_id gi) = false ->
    glyph_known pango_font (glyph_id gi) w'.
Proof.
  induction gs as [|g0 gs IH]; intros i l w l' w' Hrun gi Hin Hvis;
    [by apply elem_of_nil in Hin|].
  cbn [encode_glyphs] in Hrun.
  apply bind_inv in Hrun as (l1 & w1 & Hstep & Hrest).
  apply elem_of_cons in Hin as [->|Hin].
  - pose proof (preserving_encode_glyphs size utf8_text pango_font positions
                  gs (S i) l1 w1) as Hp.
    rewrite Hrest in Hp. eapply glyph_known_preserved; [exact Hp|].
    by eapply encode_glyph_known.
  - by eapply IH.
Qed.

Lemma encode_run_known size utf8_text run l w l' w' :
  encode_run size utf8_text run l w = (Return l', w') ->
  forall gi, gi ∈ glyphs run -> no_visible_glyph (glyph_id gi) = false ->
    glyph_known (analysis_font run) (glyph_id gi) w'.
Proof.
  unfold encode_run.
  intros (font & w1 & _ & Hrun)%bind_inv.
  apply bind_inv in Hrun as (l1 & w2 & _ & Hrun).
  apply bind_inv in Hrun as (l2 & w3 & Hglyphs & Hrun).
  apply bind_inv in Hrun as (string & w4 & Hclose & Hret).
  pose proof (close_string_state (cur_string l2) w3) as Hstate.
  rewrite Hclose in Hstate. cbn in Hstate. subst w4.
  monad_unfold. injection Hret as _ <-.
  by eapply encode_glyphs_known.
Qed.

Lemma encode_runs_known size utf8_text runs :
  forall l w l' w',
  encode_runs size utf8_text runs l w = (Return l', w') ->
  glyphs_known runs w'.
Proof.
  induction runs as [|r0 runs IH]; intros l w l' w' Hrun run gi Hin Hgi Hvis;
    [by apply elem_of_nil in Hin|].
  cbn [encode_runs] in Hrun.
  apply bind_inv in Hrun as (l1 & w1 & Hstep & Hrest).
  apply elem_of_cons in Hin as [->|Hin].
  - pose proof (preserving_encode_runs size utf8_text runs l1 w1) as Hp.
    rewrite Hrest in Hp. eapply glyph_known_preserved; [exact Hp|].
    by eapply encode_run_known.
  - by eapply IH.
Qed.

(** The line the loop returns is the first line of the layout it leaves,
    and the loop touches neither stream nor fonts. *)
Lemma truncation_loop_line fuel ellipsis lang :
  forall line w line' w',
  line = get_first_line (pango_layout w) ->
  truncation_loop fuel ellipsis lang line w = (Return line', w') ->
  line' = get_first_line (pango_layout w').
Proof.
  induction fuel as [|fuel IH]; intros line w line' w' Hline;
    cbn [truncation_loop]; (destruct (index_truthy _); [|by intros [= <- <-]]);
    (destruct ellipsis as [ellipsis'|]; [|done]); monad_unfold;
    (destruct (get_last_word_end _ _) as [k|]; [|by intros [= <- <-]]).
  - done.
  - intros Hrun. by eapply IH in Hrun.
Qed.

(** X14.  When drawing a line returns, for a text that is not blank and a
    font size of at least the precision [1e-6], every visible glyph of the
    first line of the layout, as it is then, has its width and its text in
    the caches of the font the stream has registered for its run. *)
Theorem drawn_glyphs_known fuel textbox text_overflow block_ellipsis matrix
    w returned_emojis w' :
  strip (box_text textbox) <> [] ->
  (pydyf_precision <= font_size (style textbox))%Q ->
  draw_first_line fuel textbox text_overflow block_ellipsis matrix w
    = (Return returned_emojis, w') ->
  glyphs_known (fst (get_first_line (pango_layout w'))) w'.
Proof.
  intros Htext Hsize. unfold draw_first_line.
  rewrite bool_decide_eq_false_2 by done.
  rewrite Qlt_bool_false by done.
  intros (w0 & w0' & Hget & Hrun)%bind_inv.
  apply bind_inv in Hrun as ([] & w1 & _ & Hrun).
  apply bind_inv in Hrun as (ellipsis & w2 & _ & Hrun).
  apply bind_inv in Hrun as (w2' & w2'' & Hget2 & Hrun).
  injection Hget2 as <- <-.
  apply bind_inv in Hrun as (line & w3 & Hloop & Hrun).
  assert (Hline : line = get_first_line (pango_layout w3)).
  { destruct (not_none block_ellipsis).
    - by eapply truncation_loop_line in Hloop.
    - by injection Hloop as <- <-. }
  apply bind_inv in Hrun as (w3' & w3'' & Hget3 & Hrun).
  injection Hget3 as <- <-.
  apply bind_inv in Hrun as (utf8_text & w4 & Hencode & Hrun).
  assert (w4 = w3) as ->.
  { destruct (encode _); [|done]. by injection Hencode as _ <-. }
  destruct matrix as [[[[[ma mb] mc] md] me] mf].
  apply bind_inv in Hrun as ([] & w5 & Hemit & Hrun).
  rewrite emit_run in Hemit. injection Hemit as <-.
  destruct (fst line) as [|run runs] eqn:Hruns; [done|].
  apply bind_inv in Hrun as (l & w6 & Hdrawn & Hrun).
  apply bind_inv in Hrun as ([] & w7 & Hemit & Hret).
  rewrite emit_run in Hemit. injection Hemit as <-.
  monad_unfold. injection Hret as _ <-.
  pose proof (encode_runs_same_layout (font_size (style textbox)) utf8_text
                (run :: runs) initial_locals
                (extend w3 [set_text_matrix ma mb mc md me mf]) eq_refl)
    as Hsame.
  rewrite Hdrawn in Hsame. unfold same_layout in Hsame. cbn in Hsame.
  cbn [extend pango_layout]. rewrite Hsame, <- Hline, Hruns.
  intros r gi Hr Hgi Hvis.
  destruct (encode_runs_known _ _ _ _ _ _ _ Hdrawn r gi Hr Hgi Hvis)
    as (f & Hf & Hw & Hc).
  by exists f.
Qed.

End Known.

Lemma drawn_glyphs_known_witness :
  glyphs_known
    (fst (get_first_line (Collaborators := tight_engine)
            (pango_layout
               (snd (draw_first_line (H := tight_engine) 0
                       (sample_textbox [72; 105; 72] 1) clip be_none
                       (1, 0, 0, -1, 0, 10)%Q
                       (sample_world [72; 105; 72]))))))
    (snd (draw_first_line (H := tight_engine) 0
            (sample_textbox [72; 105; 72] 1) clip be_none
            (1, 0, 0, -1, 0, 10)%Q (sample_world [72; 105; 72]))).
Proof.
  eapply (drawn_glyphs_known (H := tight_engine) 0
            (sample_textbox [72; 105; 72] 1) clip be_none
            (1, 0, 0, -1, 0, 10)%Q (sample_world [72; 105; 72])).
  - vm_compute. discriminate.
  - vm_compute. discriminate.
  - vm_compute. reflexivity.
Defined.

(** ** The text of the layout without block ellipsis *)

Section PlainLine.
Context `{Collaborators}.

(** X15.  Without block ellipsis, drawing a line never changes the text
    of the layout, whatever the line ends with.  The layout is left as it
    was for a blank text or a font size below the precision.  Otherwise it
    is put in single-paragraph mode, and when [text-overflow] is
    [ellipsis] and the layout has a maximal width, Pango's width is set to
    it and Pango is asked to put the ellipsis at the end; nothing else of
    the layout changes. *)
Theorem plain_line_keeps_text fuel textbox text_overflow matrix w :
  let w' := snd (draw_first_line fuel textbox text_overflow be_none matrix w)
  in
  layout_text (pango_layout w') = layout_text (pango_layout w) /\
  pango_layout w'
  = plain_line_layout textbox text_overflow (pango_layout w).
Proof.
  intros w'.
  enough (Hlayout : pango_layout w'
            = plain_line_layout textbox text_overflow (pango_layout w)).
  { split; [|done]. rewrite Hlayout. unfold plain_line_layout.
    destruct (_ || _); [done|]. cbv zeta.
    destruct (is_ellipsis text_overflow); [|done].
    by destruct (max_width (pango_layout w)). }
  set (kept := fun w' : World =>
                 pango_layout w'
                 = plain_line_layout textbox text_overflow (pango_layout w)).
  enough (Hline : triple (fun w0 => w0 = w)
            (draw_first_line fuel textbox text_overflow be_none matrix)
            (fun _ => kept) kept).
  { specialize (Hline w eq_refl). fold w' in Hline.
    by destruct (fst _). }
  assert (Hstable : forall (layout : Layout) w1 w2,
            same_layout w1 w2 ->
            pango_layout w1 = layout -> pango_layout w2 = layout).
  { unfold same_layout. by intros layout w1 w2 ->. }
  subst kept. unfold draw_first_line, plain_line_layout.
  case_bool_decide; cbn [orb]; [apply triple_ret; by intros ? ->|].
  destruct (Qlt_bool _ _); [apply triple_ret; by intros ? ->|].
  cbv zeta.
  set (single := with_single_paragraph_mode (pango_layout w) true).
  set (target := if is_ellipsis text_overflow then _ else single).
  apply triple_get_bind. intros w0.
  eapply triple_bind with (Q := fun _ w1 => pango_layout w1 = single).
  { by intros w1 [-> ->]. }
  intros ?.
  eapply triple_bind with (Q := fun _ w1 => pango_layout w1 = target).
  { unfold prepare_layout. rewrite orb_false_r. subst target.
    destruct (is_ellipsis text_overflow); [|by apply triple_ret].
    intros w1 Hsingle. unfold set_layout. monad_unfold.
    rewrite Hsingle.
    change (max_width single) with (max_width (pango_layout w)).
    destruct (max_width (pango_layout w)); cbn; by rewrite ?Hsingle. }
  intros ellipsis. apply triple_get_bind. intros w1. cbn [not_none].
  eapply triple_bind with (Q := fun _ w1 => pango_layout w1 = target).
  { apply triple_ret. by intros w2 []. }
  intros line. apply triple_get_bind. intros w2.
  eapply triple_bind with (Q := fun _ w1 => pango_layout w1 = target).
  { destruct (encode _).
    - apply triple_ret. by intros w3 [].
    - apply triple_raise. by intros w3 []. }
  intros utf8_text. destruct matrix as [[[[[ma mb] mc] md] me] mf].
  eapply triple_bind with (Q := fun _ w1 => pango_layout w1 = target).
  { by intros w3 Hkept. }
  intros ?.
  destruct (fst line) as [|run runs]; [by apply triple_raise|].
  eapply triple_bind with (Q := fun _ w1 => pango_layout w1 = target).
  { intros w3 Hkept.
    pose proof (encode_runs_same_layout (font_size (style textbox)) utf8_text
                  (run :: runs) initial_locals w3 eq_refl) as Hsame.
    destruct (fst _); by eapply Hstable. }
  intros l.
  eapply triple_bind with (Q := fun _ w1 => pango_layout w1 = target).
  { by intros w3 Hkept. }
  intros ?. by apply triple_ret.
Qed.

End PlainLine.

(** ** An ellipsis needs a width *)

Section NoWidth.
Context `{Collaborators}.

(** X16.  When an ellipsis of either kind is asked for and the layout has
    no maximal width, drawing a line that is not blank, at a font size of
    at least the precision [1e-6], ends with an assertion error; nothing
    has been sent to the stream, and the layout has only been set to a
    single paragraph. *)
Theorem ellipsis_needs_max_width fuel textbox text_overflow block_ellipsis
    matrix w :
  strip (box_text textbox) <> [] ->
  (pydyf_precision <= font_size (style textbox))%Q ->
  is_ellipsis text_overflow || not_none block_ellipsis = true ->
  max_width (pango_layout w) = None ->
  draw_first_line fuel textbox text_overflow block_ellipsis matrix w
  = (Raise AssertionError,
     {| stream := stream w; fonts := fonts w;
        pango_layout := with_single_paragraph_mode (pango_layout w) true |}).
Proof.
  intros Htext Hsize Hasked Hwidth. unfold draw_first_line.
  rewrite bool_decide_eq_false_2 by done.
  rewrite Qlt_bool_false by done.
  unfold prepare_layout. rewrite Hasked.
  unfold set_layout. monad_unfold. cbn [pango_layout stream fonts].
  change (max_width (with_single_paragraph_mode (pango_layout w) true))
    with (max_width (pango_layout w)).
  by rewrite Hwidth.
Qed.

End NoWidth.

Lemma ellipsis_needs_max_width_witness :
  draw_first_line (H := raised_engine) 0 (sample_textbox [72; 105] 12)
                  overflow_ellipsis be_none (1, 0, 0, -1, 0, 10)%Q
                  unbounded_world
  = (Raise AssertionError,
     {| stream := []; fonts := ∅;
        pango_layout :=
          with_single_paragraph_mode (pango_layout unbounded_world) true |}).
Proof.
  apply (ellipsis_needs_max_width (H := raised_engine) 0
           (sample_textbox [72; 105] 12) overflow_ellipsis be_none
           (1, 0, 0, -1, 0, 10)%Q unbounded_world).
  - vm_compute. discriminate.
  - vm_compute. discriminate.
  - reflexivity.
  - reflexivity.
Defined.
